(** * The Oak evolution loop (OakEvolutionLoop) as a shallow embedding

    The development follows the TypeScript class [OakEvolutionLoop]:
    a generational loop over a population of opaque agents.  Agents are
    references with identity; what a capability call does is left to an
    environment ([Env]) that owns every agent's private state, the
    random source, the clock and the callers that may request a stop
    while the driver is suspended.

    Modelling choices, stated once:
    - a JavaScript [number] is a rational ([Q]) where the code can only
      produce finite values, and a [num] (rational, NaN or an infinity)
      where it can produce more; rounding of doubles is not modelled;
    - [Math.random()] is the numerator of a 53-bit fraction, so that the
      value lies in [0,1) by construction;
    - an [async] method is a computation in a state-and-exception monad;
      [Promise.all] over a list runs the calls in list order;
    - [Date] values are dropped from records; [Date.now()] is read from
      the environment.

    One implementation of the agent interface, [KimiK2Adapter], is
    modelled as far as the first Oak step reaches into it. *)

From Stdlib Require Import String Arith ZArith QArith Qround Qabs Qminmax Bool Lia List.
From Stdlib Require Import Sorting.Sorted Sorting.Permutation Lqa.
Import ListNotations.

Set Implicit Arguments.
Local Open Scope Q_scope.

(** ** JavaScript numbers *)

Module JSNum.

Inductive num : Type :=
| NaN
| NegInf
| PosInf
| Fin (q : Q).

Definition Qltb (a b : Q) : bool := negb (Qle_bool b a).

(** [a + b] *)
Definition add (a b : num) : num :=
  match a, b with
  | NaN, _ | _, NaN => NaN
  | NegInf, PosInf | PosInf, NegInf => NaN
  | NegInf, _ | _, NegInf => NegInf
  | PosInf, _ | _, PosInf => PosInf
  | Fin x, Fin y => Fin (x + y)
  end.

Definition neg (a : num) : num :=
  match a with
  | NaN => NaN
  | NegInf => PosInf
  | PosInf => NegInf
  | Fin x => Fin (- x)
  end.

(** [a - b] *)
Definition sub (a b : num) : num := add a (neg b).

(** [Math.abs(a)] *)
Definition abs (a : num) : num :=
  match a with
  | NaN => NaN
  | NegInf | PosInf => PosInf
  | Fin x => Fin (Qabs x)
  end.

(** [Math.pow(a, 2)] *)
Definition sq (a : num) : num :=
  match a with
  | NaN => NaN
  | NegInf | PosInf => PosInf
  | Fin x => Fin (x * x)
  end.

(** [a / n] for an array length [n] *)
Definition div_len (a : num) (n : nat) : num :=
  match n with
  | O =>
      match a with
      | NaN => NaN
      | NegInf => NegInf
      | PosInf => PosInf
      | Fin x => if Qltb 0 x then PosInf else if Qltb x 0 then NegInf else NaN
      end
  | S _ =>
      match a with
      | Fin x => Fin (x / inject_Z (Z.of_nat n))
      | _ => a
      end
  end.

(** [a < b] and [a > b]: false as soon as one side is NaN *)
Definition ltb (a b : num) : bool :=
  match a, b with
  | NaN, _ | _, NaN => false
  | _, NegInf => false
  | NegInf, _ => true
  | PosInf, _ => false
  | Fin _, PosInf => true
  | Fin x, Fin y => Qltb x y
  end.

Definition gtb (a b : num) : bool := ltb b a.

(** [Math.max(a, b)] and [Math.min(a, b)] *)
Definition max2 (a b : num) : num :=
  match a, b with
  | NaN, _ | _, NaN => NaN
  | _, _ => if ltb a b then b else a
  end.

Definition min2 (a b : num) : num :=
  match a, b with
  | NaN, _ | _, NaN => NaN
  | _, _ => if ltb b a then b else a
  end.

(** [Math.max(...xs)] over an array of finite numbers; [-Infinity] for
    the empty array *)
Definition max_list (xs : list Q) : num :=
  fold_left (fun m x => max2 m (Fin x)) xs NegInf.

(** [x || d] on a number or [undefined]: 0, NaN and [undefined] are falsy *)
Definition or_default (x : option num) (d : Q) : num :=
  match x with
  | None | Some NaN => Fin d
  | Some (Fin q) => if Qeq_bool q 0 then Fin d else Fin q
  | Some v => v
  end.

(** The order used in statements: [le a b] reads [a <= b] on numbers
    that are not NaN. *)
Definition le (a b : num) : Prop :=
  match a, b with
  | NaN, _ | _, NaN => False
  | NegInf, _ => True
  | _, PosInf => True
  | Fin x, Fin y => x <= y
  | _, _ => False
  end.

End JSNum.
Import JSNum.

(** ** Results, errors and the monad of asynchronous methods *)

Inductive error : Type :=
| TypeError            (* a method call on [undefined] *)
| EvaluationTimeout    (* [new Error('Evaluation timeout')] *)
| AgentError (code : nat).

(** [OutOfFuel] is the model's own outcome for a loop that was given too
    few iterations; no [try]/[catch] intercepts it. *)
Inductive result (A : Type) : Type :=
| Ok (a : A)
| Throw (e : error)
| OutOfFuel.
Arguments Throw {A} e.
Arguments OutOfFuel {A}.

Definition SE (S A : Type) : Type := S -> result A * S.

Definition ret {S A} (a : A) : SE S A := fun s => (Ok a, s).

Definition bind {S A B} (m : SE S A) (k : A -> SE S B) : SE S B :=
  fun s =>
    match m s with
    | (Ok a, s') => k a s'
    | (Throw e, s') => (Throw e, s')
    | (OutOfFuel, s') => (OutOfFuel, s')
    end.

Definition throw {S A} (e : error) : SE S A := fun s => (Throw e, s).

(** [try { m } catch (error) { h error }] *)
Definition try_catch {S A} (m : SE S A) (h : error -> SE S A) : SE S A :=
  fun s =>
    match m s with
    | (Throw e, s') => h e s'
    | r => r
    end.

(** [try { m } finally { f }] where [f] only updates the state *)
Definition try_finally {S A} (m : SE S A) (f : S -> S) : SE S A :=
  fun s => let (r, s') := m s in (r, f s').

Declare Scope se_scope.
Delimit Scope se_scope with se.
Notation "x <- m ;; k" := (bind m (fun x => k))
  (at level 100, m at next level, right associativity) : se_scope.
Notation "m ;;; k" := (bind m (fun _ => k))
  (at level 100, right associativity) : se_scope.
Local Open Scope se_scope.

(** [for (const x of xs) { await f x }] *)
Fixpoint for_each {S A} (f : A -> SE S unit) (xs : list A) : SE S unit :=
  match xs with
  | [] => ret tt
  | x :: xs' => f x ;;; for_each f xs'
  end.

(** [await Promise.all(xs.map(f))], the calls taken in list order.  The
    two methods mapped this way, [executeAgentOakCycle] and
    [evaluateAgent], never reject (shown below), so that the first
    rejection ending the whole never comes into play. *)
Fixpoint promise_all {S A B} (f : A -> SE S B) (xs : list A) : SE S (list B) :=
  match xs with
  | [] => ret []
  | x :: xs' =>
      y <- f x ;;
      ys <- promise_all f xs' ;;
      ret (y :: ys)
  end.

(** ** Data model (IMetaAgent.ts) *)

(** An agent is an object reference; [undefined] is what an array read
    out of range yields.  Two references are the same agent exactly when
    they carry the same identifier. *)
Inductive IMetaAgent : Type :=
| undefined
| agent (id : nat).

Definition same_ref (a b : IMetaAgent) : bool :=
  match a, b with
  | undefined, undefined => true
  | agent i, agent j => Nat.eqb i j
  | _, _ => false
  end.

Inductive jsval : Type :=
| JNum (q : Q)
| JStr (s : string).

(** State identifiers are built by string templates; the template and
    its holes are kept instead of the printed string. *)
Inductive state_id : Type :=
| mutation_state (i : nat)
| mutation_next_state (i : nat)
| crossover_state (i : nat)
| crossover_next_state (i : nat)
| eval_state (now : Z) (r : Q)
| next_ (sid : state_id).

Record IState : Type := {
  s_id : state_id;
  s_features : list (string * num);
  s_context : list (string * jsval)
}.

Record IAction : Type := {
  a_type : string;
  a_parameters : list (string * jsval)
}.

Record IReward : Type := {
  r_value : Q;
  r_source : string;
  r_metadata : list (string * jsval)
}.

Record IExperience : Type := {
  e_state : IState;
  e_action : IAction;
  e_reward : IReward;
  e_nextState : IState;
  e_done : bool
}.

(** [map.get(k)] on a [Map] built from a literal with distinct keys *)
Fixpoint get {A} (k : string) (m : list (string * A)) : option A :=
  match m with
  | [] => None
  | (k', v) :: m' => if String.eqb k k' then Some v else get k m'
  end.

(** [{...o, k: v}]: an existing key keeps its place *)
Fixpoint spread_set {A} (o : list (string * A)) (k : string) (v : A) : list (string * A) :=
  match o with
  | [] => [(k, v)]
  | (k', v') :: o' =>
      if String.eqb k k' then (k, v) :: o' else (k', v') :: spread_set o' k v
  end.

(** [s.includes(sub)] *)
Definition includes (s sub : string) : bool :=
  match String.index 0 sub s with
  | Some _ => true
  | None => false
  end.

(** [x + y] where [x] may be [undefined] *)
Definition plus_undefined (x : option num) (y : Q) : num :=
  match x with
  | None => NaN
  | Some v => add v (Fin y)
  end.

Inductive Capability : Type :=
| learnPoliciesAndValues
| generateNewFeatures
| rankFeatures
| createSubproblems
| learnSubproblemSolutions
| learnTransitionModels
| plan
| maintainMetadata.

(** How a promise returned by an agent settles. *)
Inductive outcome (A : Type) : Type :=
| Resolves (a : A)
| Rejects (e : error).
Arguments Rejects {A} e.

(** [Promise.race] of a call against a timer: the call settles first,
    or the timer fires while it is still pending. *)
Inductive race (A : Type) : Type :=
| Settled (o : outcome A)
| Pending.
Arguments Pending {A}.

(** ** The environment of a run

    [World] holds whatever the loop cannot see: the private state of
    every agent, the random source, the clock, and the callers that may
    act while the driver is suspended.  Every agent call is a transition
    of the world; the values the eight Oak steps hand to each other stay
    inside the agent and are part of it.  Agent promises are assumed to
    settle, except [act], which is raced against a timer. *)
Record Env : Type := {
  World : Type;
  random_bits : World -> N * World;
  date_now : World -> Z;
  math_sqrt : Q -> Q;
  oak_step : Capability -> nat -> World -> outcome unit * World;
  agent_learn : nat -> IExperience -> World -> outcome unit * World;
  (** [agent_act a s t]: the call [a.act(s)] raced against a timer of [t] ms *)
  agent_act : nat -> IState -> Z -> World -> race IAction * World;
  (** what runs while the driver is suspended; [true] when [stop()] was called *)
  external_calls : World -> bool * World
}.

Record EvolutionConfig : Type := {
  populationSize : nat;
  generationLimit : nat;
  mutationRate : Q;
  crossoverRate : Q;
  eliteSize : nat;
  evaluationTimeout : Z;
  convergenceThreshold : Q;
  diversityWeight : Q
}.

Record EvolutionMetrics : Type := {
  m_generation : nat;
  m_bestFitness : num;
  m_averageFitness : num;
  m_diversity : num;
  m_convergenceRate : num;
  m_runtime : Z
}.

(** The constructor's defaults: [new OakEvolutionLoop()] *)
Definition default_config : EvolutionConfig := {|
  populationSize := 50;
  generationLimit := 100;
  mutationRate := 1 # 10;
  crossoverRate := 7 # 10;
  eliteSize := 5;
  evaluationTimeout := 30000;
  convergenceThreshold := 1 # 1000;
  diversityWeight := 3 # 10
|}.

(** Emitted events and console lines, in the order they occur.
    [fitnessLog] stands for the two console lines of [evaluatePopulation]
    and also records the evaluated array and its scores. *)
Inductive Event : Type :=
| evolutionStarted (c : EvolutionConfig)
| generationLog (n limit : nat)
| oakCycleLog
| fitnessLog (evaluated : list IMetaAgent) (fitnessScores : list Q)
| newBestAgentEvent (a : IMetaAgent) (fitness : num) (generation : nat)
| generationComplete (m : EvolutionMetrics)
| convergedLog
| evolutionComplete (best : option IMetaAgent) (fitness : num)
    (generations : nat) (ms : list EvolutionMetrics)
| evolutionError (e : error)
| stoppedLog.

(** The fields of the class; [bestAgent = None] is [null]; [metrics] and
    [log] grow at the end. *)
Record OakEvolutionLoop : Type := {
  config : EvolutionConfig;
  population : list IMetaAgent;
  generation : nat;
  bestAgent : option IMetaAgent;
  bestFitness : num;
  metrics : list EvolutionMetrics;
  isRunning : bool;
  log : list Event
}.

(** [new OakEvolutionLoop(c)] *)
Definition new_loop (c : EvolutionConfig) : OakEvolutionLoop := {|
  config := c;
  population := [];
  generation := 0;
  bestAgent := None;
  bestFitness := NegInf;
  metrics := [];
  isRunning := false;
  log := []
|}.

Definition set_population (p : list IMetaAgent) (this : OakEvolutionLoop) :=
  {| config := config this; population := p; generation := generation this;
     bestAgent := bestAgent this; bestFitness := bestFitness this;
     metrics := metrics this; isRunning := isRunning this; log := log this |}.

Definition set_generation (g : nat) (this : OakEvolutionLoop) :=
  {| config := config this; population := population this; generation := g;
     bestAgent := bestAgent this; bestFitness := bestFitness this;
     metrics := metrics this; isRunning := isRunning this; log := log this |}.

Definition set_best (a : IMetaAgent) (f : num) (this : OakEvolutionLoop) :=
  {| config := config this; population := population this;
     generation := generation this;
     bestAgent := Some a; bestFitness := f;
     metrics := metrics this; isRunning := isRunning this; log := log this |}.

Definition push_metrics (m : EvolutionMetrics) (this : OakEvolutionLoop) :=
  {| config := config this; population := population this;
     generation := generation this;
     bestAgent := bestAgent this; bestFitness := bestFitness this;
     metrics := metrics this ++ [m]; isRunning := isRunning this;
     log := log this |}.

Definition set_isRunning (b : bool) (this : OakEvolutionLoop) :=
  {| config := config this; population := population this;
     generation := generation this;
     bestAgent := bestAgent this; bestFitness := bestFitness this;
     metrics := metrics this; isRunning := b; log := log this |}.

Definition write_log (ev : Event) (this : OakEvolutionLoop) :=
  {| config := config this; population := population this;
     generation := generation this;
     bestAgent := bestAgent this; bestFitness := bestFitness this;
     metrics := metrics this; isRunning := isRunning this;
     log := log this ++ [ev] |}.

(** [stop()] *)
Definition stop (this : OakEvolutionLoop) : OakEvolutionLoop :=
  write_log stoppedLog (set_isRunning false this).

(** ** Pure helpers of the class *)

(** [fitnessScores.map((fitness, index) => ({ fitness, index }))] *)
Fixpoint with_index (i : nat) (fs : list Q) : list (Q * nat) :=
  match fs with
  | [] => []
  | f :: fs' => (f, i) :: with_index (S i) fs'
  end.

(** [xs.sort((a, b) => b.fitness - a.fitness)]: [Array.prototype.sort] is
    a stable sort, and on a consistent comparator every stable sort
    returns the same array; insertion from the right is that sort. *)
Section SortByFitness.
Variable A : Type.

Fixpoint insert_desc (x : Q * A) (l : list (Q * A)) : list (Q * A) :=
  match l with
  | [] => [x]
  | y :: l' =>
      if Qltb (fst x) (fst y) then y :: insert_desc x l' else x :: y :: l'
  end.

Definition sort_desc (l : list (Q * A)) : list (Q * A) :=
  fold_right insert_desc [] l.
End SortByFitness.

(** [xs.indexOf(v)] for [v = Math.max(...xs)] *)
Fixpoint indexOf (v : num) (xs : list Q) (i : nat) : option nat :=
  match xs with
  | [] => None
  | x :: xs' =>
      match v with
      | Fin q => if Qeq_bool x q then Some i else indexOf v xs' (S i)
      | _ => indexOf v xs' (S i)
      end
  end.

(** [arr[i]] where [i] may be the [-1] of a failed [indexOf] *)
Definition at_index (arr : list IMetaAgent) (i : option nat) : IMetaAgent :=
  match i with
  | Some n => nth n arr undefined
  | None => undefined
  end.

(** [xs.reduce((sum, x) => sum + x, 0)] *)
Definition sumQ (xs : list Q) : Q := fold_left Qplus xs 0.

(** [calculateConvergenceRate()] *)
Definition calculateConvergenceRate (this : OakEvolutionLoop) : num :=
  match rev (metrics this) with
  | current :: previous :: _ =>
      abs (sub (m_bestFitness current) (m_bestFitness previous))
  | _ => Fin 0
  end.

(** [hasConverged()] *)
Definition hasConverged (this : OakEvolutionLoop) : bool :=
  if length (metrics this) <? 5 then false
  else
    let recentMetrics := skipn (length (metrics this) - 5) (metrics this) in
    let convergenceRates := map m_convergenceRate recentMetrics in
    let avgConvergenceRate :=
      div_len (fold_left add convergenceRates (Fin 0)) (length convergenceRates) in
    ltb avgConvergenceRate (Fin (convergenceThreshold (config this))).

(** ** The asynchronous methods of the class *)

Local Open Scope string_scope.

Section Driver.
Variable E : Env.

Local Abbreviation M := (SE (World E)).

Definition settle {A} (call : World E -> outcome A * World E) : M A :=
  fun w =>
    match call w with
    | (Resolves a, w') => (Ok a, w')
    | (Rejects e, w') => (Throw e, w')
    end.

Definition out_of_fuel {S A} : SE S A := fun s => (OutOfFuel, s).

(** [Math.random()] *)
Definition Math_random : M Q :=
  fun w =>
    let (n, w') := random_bits E w in
    (Ok (Z.of_N (n mod 2 ^ 53) # 2 ^ 53), w').

(** [Date.now()] *)
Definition Date_now : M Z := fun w => (Ok (date_now E w), w).

(** [await a.step()] for one of the eight Oak steps *)
Definition call (c : Capability) (a : IMetaAgent) : M unit :=
  match a with
  | undefined => throw TypeError
  | agent i => settle (oak_step E c i)
  end.

(** [await a.learn(experience)] *)
Definition learn (a : IMetaAgent) (experience : IExperience) : M unit :=
  match a with
  | undefined => throw TypeError
  | agent i => settle (agent_learn E i experience)
  end.

(** [await Promise.race([a.act(s), timer])] *)
Definition act_or_timeout (timeout : Z) (a : IMetaAgent) (s : IState) : M IAction :=
  match a with
  | undefined => throw TypeError
  | agent i =>
      fun w =>
        match agent_act E i s timeout w with
        | (Settled (Resolves x), w') => (Ok x, w')
        | (Settled (Rejects e), w') => (Throw e, w')
        | (Pending, w') => (Throw EvaluationTimeout, w')
        end
  end.

(** [for (let i = i0; i < i0 + n; i++) { xs.push(await f(i)) }] *)
Fixpoint for_range {A} (n i : nat) (f : nat -> M A) : M (list A) :=
  match n with
  | O => ret []
  | S n' =>
      x <- f i ;;
      xs <- for_range n' (S i) f ;;
      ret (x :: xs)
  end.

Definition three_features (k1 k2 k3 : string) (v1 v2 v3 : Q) : list (string * num) :=
  [(k1, Fin v1); (k2, Fin v2); (k3, Fin v3)].

(** One turn of the loop of [generateMutationExperiences] *)
Definition mutation_experience (i : nat) : M IExperience :=
  f1 <- Math_random ;;
  f2 <- Math_random ;;
  f3 <- Math_random ;;
  intensity <- Math_random ;;
  direction <- Math_random ;;
  rewardValue <- Math_random ;;
  g1 <- Math_random ;;
  g2 <- Math_random ;;
  g3 <- Math_random ;;
  let ctx := [("source", JStr "mutation"); ("iteration", JNum (inject_Z (Z.of_nat i)))] in
  ret {| e_state :=
           {| s_id := mutation_state i;
              s_features := three_features "exploration" "adaptation" "novelty" f1 f2 f3;
              s_context := ctx |};
         e_action :=
           {| a_type := "mutate";
              a_parameters :=
                [("intensity", JNum (intensity * (2 # 10)));
                 ("direction",
                  JStr (if Qltb (5 # 10) direction then "increase" else "decrease"))] |};
         e_reward :=
           {| r_value := (rewardValue - (5 # 10)) * (1 # 10);
              r_source := "mutation";
              r_metadata := [] |};
         e_nextState :=
           {| s_id := mutation_next_state i;
              s_features := three_features "exploration" "adaptation" "novelty" g1 g2 g3;
              s_context := ctx |};
         e_done := false |}.

(** [generateMutationExperiences()] *)
Definition generateMutationExperiences : M (list IExperience) :=
  r <- Math_random ;;
  let numExperiences := (Qfloor (r * 5) + 1)%Z in
  for_range (Z.to_nat numExperiences) 0 mutation_experience.

(** One turn of the loop of [generateCrossoverExperiences] *)
Definition crossover_experience (i : nat) : M IExperience :=
  f1 <- Math_random ;;
  f2 <- Math_random ;;
  f3 <- Math_random ;;
  transfer_rate <- Math_random ;;
  integration_mode <- Math_random ;;
  rewardValue <- Math_random ;;
  g1 <- Math_random ;;
  g2 <- Math_random ;;
  g3 <- Math_random ;;
  let ctx := [("source", JStr "crossover"); ("iteration", JNum (inject_Z (Z.of_nat i)))] in
  ret {| e_state :=
           {| s_id := crossover_state i;
              s_features :=
                three_features "knowledge_transfer" "policy_blend" "hybrid_capability"
                  f1 f2 f3;
              s_context := ctx |};
         e_action :=
           {| a_type := "integrate_knowledge";
              a_parameters :=
                [("transfer_rate", JNum (transfer_rate * (5 # 10) + (25 # 100)));
                 ("integration_mode",
                  JStr (if Qltb (5 # 10) integration_mode then "additive" else "selective"))] |};
         e_reward :=
           {| r_value := rewardValue * (3 # 10);
              r_source := "crossover";
              r_metadata := [] |};
         e_nextState :=
           {| s_id := crossover_next_state i;
              s_features :=
                three_features "knowledge_transfer" "policy_blend" "hybrid_capability"
                  (g1 * (5 # 10) + (5 # 10)) g2 (g3 * (3 # 10) + (7 # 10));
              s_context := ctx |};
         e_done := false |}.

(** [generateCrossoverExperiences()] *)
Definition generateCrossoverExperiences : M (list IExperience) :=
  r <- Math_random ;;
  let numExperiences := (Qfloor (r * 3) + 2)%Z in
  for_range (Z.to_nat numExperiences) 0 crossover_experience.

(** [mutateAgent(agent)] *)
Definition mutateAgent (a : IMetaAgent) : M IMetaAgent :=
  try_catch
    (mutationExperiences <- generateMutationExperiences ;;
     for_each (learn a) mutationExperiences ;;;
     ret a)
    (fun _ => ret a).

(** [crossoverAgents(parent1, parent2)] *)
Definition crossoverAgents (parent1 parent2 : IMetaAgent) : M IMetaAgent :=
  try_catch
    (r <- Math_random ;;
     let selectedParent := if Qltb (5 # 10) r then parent1 else parent2 in
     crossoverExperiences <- generateCrossoverExperiences ;;
     for_each (learn selectedParent) crossoverExperiences ;;;
     ret selectedParent)
    (fun _ => ret parent1).

(** [selectRandomAgent(excludeAgent)] *)
Definition selectRandomAgent (this : OakEvolutionLoop) (excludeAgent : IMetaAgent)
  : M IMetaAgent :=
  let candidates := filter (fun a => negb (same_ref a excludeAgent)) (population this) in
  r <- Math_random ;;
  ret (nth (Z.to_nat (Qfloor (r * inject_Z (Z.of_nat (length candidates)))))
           candidates undefined).

(** [applyEvolution(agent)] *)
Definition applyEvolution (this : OakEvolutionLoop) (a : IMetaAgent) : M IMetaAgent :=
  r1 <- Math_random ;;
  evolvedAgent <-
    (if Qltb r1 (mutationRate (config this)) then mutateAgent a else ret a) ;;
  r2 <- Math_random ;;
  if Qltb r2 (crossoverRate (config this)) && (1 <? length (population this))%nat
  then
    otherParent <- selectRandomAgent this a ;;
    crossoverAgents evolvedAgent otherParent
  else ret evolvedAgent.

(** The eight Oak steps, in the order of [executeAgentOakCycle] *)
Definition eight_steps (a : IMetaAgent) : M unit :=
  call learnPoliciesAndValues a ;;;
  call generateNewFeatures a ;;;
  call rankFeatures a ;;;
  call createSubproblems a ;;;
  call learnSubproblemSolutions a ;;;
  call learnTransitionModels a ;;;
  call plan a ;;;
  call maintainMetadata a.

(** [executeAgentOakCycle(agent)] *)
Definition executeAgentOakCycle (this : OakEvolutionLoop) (a : IMetaAgent)
  : M IMetaAgent :=
  try_catch
    (eight_steps a ;;;
     applyEvolution this a)
    (fun _ => ret a).

(** The batch loop of [executeOakCycle]:
    [for (let i = ...; i < population.length; i += batchSize)] *)
Fixpoint oak_batches (fuel : nat) (this : OakEvolutionLoop) (batchSize i : nat)
    (newGeneration : list IMetaAgent) : M (list IMetaAgent) :=
  if (i <? length (population this))%nat then
    match fuel with
    | O => out_of_fuel
    | S fuel' =>
        let batch := firstn batchSize (skipn i (population this)) in
        batchResults <- promise_all (executeAgentOakCycle this) batch ;;
        oak_batches fuel' this batchSize (i + batchSize) (newGeneration ++ batchResults)
    end
  else ret newGeneration.

(** [executeOakCycle()] *)
Definition executeOakCycle (this : OakEvolutionLoop) : M (list IMetaAgent) :=
  let batchSize := Nat.min 10 (length (population this)) in
  oak_batches (length (population this)) this batchSize 0 [].

(** [generateRandomState()] *)
Definition generateRandomState : M IState :=
  now <- Date_now ;;
  r <- Math_random ;;
  challenge_level <- Math_random ;;
  complexity <- Math_random ;;
  noise_level <- Math_random ;;
  resource_availability <- Math_random ;;
  time_pressure <- Math_random ;;
  difficulty <- Math_random ;;
  ret {| s_id := eval_state now r;
         s_features :=
           [("challenge_level", Fin challenge_level);
            ("complexity", Fin complexity);
            ("noise_level", Fin (noise_level * (3 # 10)));
            ("resource_availability", Fin resource_availability);
            ("time_pressure", Fin time_pressure)];
         s_context :=
           [("environment", JStr "evaluation"); ("difficulty", JNum difficulty)] |}.

(** [assessActionQuality(state, action)].  On doubles [3 * 0.1 > 0.3]
    holds by rounding; the comparisons here are the exact ones. *)
Definition assessActionQuality (s : IState) (a : IAction) : Q :=
  let quality := 5 # 10 in
  let stateComplexity := or_default (get "complexity" (s_features s)) (5 # 10) in
  let actionComplexity :=
    inject_Z (Z.of_nat (length (a_parameters a))) * (1 # 10) in
  let quality :=
    if gtb stateComplexity (Fin (7 # 10)) && Qltb (3 # 10) actionComplexity
    then quality + (3 # 10) else quality in
  let quality :=
    if ltb stateComplexity (Fin (3 # 10)) && Qltb (5 # 10) actionComplexity
    then quality - (2 # 10) else quality in
  let quality :=
    if includes (a_type a) "adapt" || includes (a_type a) "learn"
    then quality + (2 # 10) else quality in
  Qmax (1 # 10) (Qmin 1 quality).

(** [simulateEnvironmentStep(state, action)] *)
Definition simulateEnvironmentStep (s : IState) (a : IAction) : M (IState * IReward) :=
  r <- Math_random ;;
  let baseReward := r * 2 - 1 in
  let actionQuality := assessActionQuality s a in
  let environmentReward := baseReward * actionQuality in
  d1 <- Math_random ;;
  d2 <- Math_random ;;
  d3 <- Math_random ;;
  d4 <- Math_random ;;
  d5 <- Math_random ;;
  let feature k := get k (s_features s) in
  let half := 5 # 10 in
  let nextState :=
    {| s_id := next_ (s_id s);
       s_features :=
         [("challenge_level",
           max2 (Fin 0) (plus_undefined (feature "challenge_level") ((d1 - half) * (2 # 10))));
          ("complexity",
           max2 (Fin 0) (plus_undefined (feature "complexity") ((d2 - half) * (1 # 10))));
          ("noise_level",
           max2 (Fin 0) (min2 (Fin 1)
             (plus_undefined (feature "noise_level") ((d3 - half) * (1 # 10)))));
          ("resource_availability",
           max2 (Fin 0) (min2 (Fin 1)
             (plus_undefined (feature "resource_availability") ((d4 - half) * (15 # 100)))));
          ("time_pressure",
           max2 (Fin 0) (min2 (Fin 1)
             (plus_undefined (feature "time_pressure") ((d5 - half) * (1 # 10)))))];
       s_context := spread_set (s_context s) "previous_action" (JStr (a_type a)) |} in
  let reward :=
    {| r_value := environmentReward;
       r_source := "environment";
       r_metadata :=
         [("action_quality", JNum actionQuality); ("base_reward", JNum baseReward)] |} in
  ret (nextState, reward).

(** [calculateComplexityBonus(agent)] and [calculateDiversityBonus(agent)] *)
Definition calculateComplexityBonus (a : IMetaAgent) : M Q :=
  r <- Math_random ;; ret (r * (1 # 10)).

Definition calculateDiversityBonus (this : OakEvolutionLoop) (a : IMetaAgent) : M Q :=
  r <- Math_random ;; ret (r * (5 # 100) * diversityWeight (config this)).

Definition evaluationSteps : nat := 10.

(** The step loop of [evaluateAgent]; [remaining] steps are left and
    [step] is the loop counter.  The result is the pair of the loop's
    variables [totalReward] and [currentState]. *)
Fixpoint evaluation_loop (this : OakEvolutionLoop) (a : IMetaAgent)
    (remaining step : nat) (totalReward : Q) (currentState : IState)
  : M (Q * IState) :=
  match remaining with
  | O => ret (totalReward, currentState)
  | S remaining' =>
      action <- act_or_timeout (evaluationTimeout (config this)) a currentState ;;
      sr <- simulateEnvironmentStep currentState action ;;
      let (nextState, reward) := sr in
      let totalReward := totalReward + r_value reward in
      learn a {| e_state := currentState;
                 e_action := action;
                 e_reward := reward;
                 e_nextState := nextState;
                 e_done := (step =? evaluationSteps - 1)%nat |} ;;;
      evaluation_loop this a remaining' (S step) totalReward nextState
  end.

(** The [try] block of [evaluateAgent] *)
Definition evaluation_body (this : OakEvolutionLoop) (a : IMetaAgent) : M Q :=
  currentState <- generateRandomState ;;
  after <- evaluation_loop this a evaluationSteps 0 0 currentState ;;
  let totalReward := fst after in
  let baseFitness := totalReward / inject_Z (Z.of_nat evaluationSteps) in
  complexityBonus <- calculateComplexityBonus a ;;
  diversityBonus <- calculateDiversityBonus this a ;;
  ret (baseFitness + complexityBonus + diversityBonus).

(** [evaluateAgent(agent)] *)
Definition evaluateAgent (this : OakEvolutionLoop) (a : IMetaAgent) : M Q :=
  try_catch (evaluation_body this a) (fun _ => ret (- (1))).

(** [evaluatePopulation(population)] *)
Definition evaluatePopulation (this : OakEvolutionLoop) (p : list IMetaAgent)
  : M (list Q) :=
  promise_all (evaluateAgent this) p.

(** [tournamentSelection(population, fitnessScores)].  Over an empty
    population every entry is [{agent: undefined, fitness: undefined}];
    the comparator then yields NaN, read as 0, and the order is kept:
    the default score of [nth] plays that part. *)
Definition tournamentSelection (p : list IMetaAgent) (fitnessScores : list Q)
  : M IMetaAgent :=
  let tournamentSize := Nat.max 2 (length p / 10) in
  tournament <-
    for_range tournamentSize 0 (fun _ =>
      r <- Math_random ;;
      let randomIndex := Z.to_nat (Qfloor (r * inject_Z (Z.of_nat (length p)))) in
      ret (nth randomIndex fitnessScores 0, nth randomIndex p undefined)) ;;
  match sort_desc tournament with
  | (_, a) :: _ => ret a
  | [] => throw TypeError
  end.

(** The [while] loop of [selectNextGeneration] *)
Fixpoint tournament_fill (fuel : nat) (this : OakEvolutionLoop)
    (p : list IMetaAgent) (fitnessScores : list Q)
    (nextGeneration : list IMetaAgent) : M (list IMetaAgent) :=
  if (length nextGeneration <? populationSize (config this))%nat then
    match fuel with
    | O => out_of_fuel
    | S fuel' =>
        selected <- tournamentSelection p fitnessScores ;;
        tournament_fill fuel' this p fitnessScores (nextGeneration ++ [selected])
    end
  else ret nextGeneration.

(** The indices of [fitnessScores], best score first *)
Definition sortedIndices (fitnessScores : list Q) : list nat :=
  map snd (sort_desc (with_index 0 fitnessScores)).

(** The elite loop of [selectNextGeneration] *)
Definition elite (this : OakEvolutionLoop) (p : list IMetaAgent)
    (fitnessScores : list Q) : list IMetaAgent :=
  let sorted := sortedIndices fitnessScores in
  map (fun i => nth (nth i sorted 0%nat) p undefined)
      (seq 0 (Nat.min (eliteSize (config this)) (length sorted))).

(** [selectNextGeneration(population, fitnessScores)] *)
Definition selectNextGeneration (this : OakEvolutionLoop) (p : list IMetaAgent)
    (fitnessScores : list Q) : M (list IMetaAgent) :=
  tournament_fill (populationSize (config this)) this p fitnessScores
    (elite this p fitnessScores).

(** ** The driver: methods that read and write the fields of [this] *)

Local Abbreviation RM := (SE (OakEvolutionLoop * World E)).

Definition lift {A} (m : OakEvolutionLoop -> M A) : RM A :=
  fun s => let (r, w') := m (fst s) (snd s) in (r, (fst s, w')).

Definition update (f : OakEvolutionLoop -> OakEvolutionLoop) : RM unit :=
  fun s => (Ok tt, (f (fst s), snd s)).

Definition read {A} (f : OakEvolutionLoop -> A) : RM A :=
  fun s => (Ok (f (fst s)), s).

(** The driver gives up control: whatever runs meanwhile may call
    [stop()]. *)
Definition suspend : RM unit :=
  fun s =>
    let (stopCalled, w') := external_calls E (snd s) in
    (Ok tt, ((if stopCalled then stop (fst s) else fst s), w')).

(** [await m] *)
Definition await {A} (m : RM A) : RM A :=
  x <- m ;; suspend ;;; ret x.

(** [console.log(...)], and [this.emit(...)], whose listeners run at once *)
Definition console_log (ev : Event) : RM unit := update (write_log ev).

Definition emit (ev : Event) : RM unit := update (write_log ev) ;;; suspend.

(** [updateBestAgent(population, fitnessScores)] *)
Definition updateBestAgent (p : list IMetaAgent) (fitnessScores : list Q) : RM unit :=
  let maxFitness := max_list fitnessScores in
  best <- read bestFitness ;;
  if gtb maxFitness best then
    let bestIndex := indexOf maxFitness fitnessScores 0 in
    update (set_best (at_index p bestIndex) maxFitness) ;;;
    g <- read generation ;;
    emit (newBestAgentEvent (at_index p bestIndex) maxFitness g)
  else ret tt.

(** [Math.sqrt(x)] *)
Definition Math_sqrt (x : num) : num :=
  match x with
  | Fin q => if Qltb q 0 then NaN else Fin (math_sqrt E q)
  | PosInf => PosInf
  | _ => NaN
  end.

(** [calculatePopulationDiversity(fitnessScores)] *)
Definition calculatePopulationDiversity (fitnessScores : list Q) : num :=
  let mean := div_len (Fin (sumQ fitnessScores)) (length fitnessScores) in
  let variance :=
    div_len
      (fold_left (fun sum score => add sum (sq (sub (Fin score) mean)))
         fitnessScores (Fin 0))
      (length fitnessScores) in
  Math_sqrt variance.

(** [calculateMetrics(fitnessScores, runtime)] *)
Definition calculateMetrics (this : OakEvolutionLoop) (fitnessScores : list Q)
    (runtime : Z) : EvolutionMetrics :=
  {| m_generation := generation this;
     m_bestFitness := max_list fitnessScores;
     m_averageFitness := div_len (Fin (sumQ fitnessScores)) (length fitnessScores);
     m_diversity := calculatePopulationDiversity fitnessScores;
     m_convergenceRate := calculateConvergenceRate this;
     m_runtime := runtime |}.

(** The body of the [while] loop of [run]; the result is [true] on
    [break].  The console line that opens [executeOakCycle] and the
    one that closes [evaluatePopulation] are written here. *)
Definition generation_body : RM bool :=
  startTime <- lift (fun _ => Date_now) ;;
  g <- read generation ;;
  limit <- read (fun this => generationLimit (config this)) ;;
  console_log (generationLog (g + 1) limit) ;;;
  console_log oakCycleLog ;;;
  newGeneration <- await (lift executeOakCycle) ;;
  fitnessScores <-
    await (scores <- lift (fun this => evaluatePopulation this newGeneration) ;;
           console_log (fitnessLog newGeneration scores) ;;;
           ret scores) ;;
  await (updateBestAgent newGeneration fitnessScores) ;;;
  endTime <- lift (fun _ => Date_now) ;;
  generationMetrics <-
    read (fun this => calculateMetrics this fitnessScores (endTime - startTime)) ;;
  update (push_metrics generationMetrics) ;;;
  emit (generationComplete generationMetrics) ;;;
  converged <- read hasConverged ;;
  if converged then
    console_log convergedLog ;;;
    ret true
  else
    next <- await (lift (fun this => selectNextGeneration this newGeneration fitnessScores)) ;;
    update (set_population next) ;;;
    update (fun this => set_generation (S (generation this)) this) ;;;
    ret false.

(** [while (this.isRunning && this.generation < this.config.generationLimit)] *)
Fixpoint generations (fuel : nat) : RM unit :=
  fun s =>
    if isRunning (fst s) && (generation (fst s) <? generationLimit (config (fst s)))%nat
    then
      match fuel with
      | O => (OutOfFuel, s)
      | S fuel' =>
          (exit <- generation_body ;;
           if exit then ret tt else generations fuel') s
      end
    else (Ok tt, s).

(** [run(initialPopulation)].  The generation counter starts at 0 and
    grows by one per turn, so [generationLimit] turns are enough fuel. *)
Definition run (initialPopulation : list IMetaAgent) : RM (option IMetaAgent) :=
  update (set_isRunning true) ;;;
  update (set_population initialPopulation) ;;;
  update (set_generation 0) ;;;
  c <- read config ;;
  emit (evolutionStarted c) ;;;
  try_finally
    (try_catch
       (generations (generationLimit c) ;;;
        ev <- read (fun this =>
                evolutionComplete (bestAgent this) (bestFitness this)
                  (generation this) (metrics this)) ;;
        emit ev ;;;
        read bestAgent)
       (fun e => emit (evolutionError e) ;;; throw e))
    (fun s => (set_isRunning false (fst s), snd s)).

End Driver.

(** ** A concrete environment

    Used to run the driver on explicit inputs.  Agents are told apart by
    three tables: which Oak steps reject, whether [learn] rejects, and
    whether [act] stays pending past the timer.  The world counts the
    random draws from a seed, keeps the identifiers of the agents whose
    [learn] call resolved (latest first), and counts the suspensions;
    [stop()] is called during the suspensions picked by [stopAt]. *)
Module Sim.

Record world : Type := {
  seed : N;
  learned : list nat;
  suspensions : nat
}.

Definition next_seed (s : N) : N :=
  ((s * 6364136223846793005 + 1442695040888963407) mod 2 ^ 64)%N.

Definition draw (w : world) : N * world :=
  let s := next_seed (seed w) in
  ((s / 2 ^ 11)%N,
   {| seed := s; learned := learned w; suspensions := suspensions w |}).

(** A rational square root to six decimals *)
Definition sqrt6 (q : Q) : Q :=
  (Z.sqrt (Qfloor (q * inject_Z (10 ^ 12))) # 10 ^ 6).

Definition env (stepFails : Capability -> nat -> bool) (learnFails : nat -> bool)
    (actHangs : nat -> bool) (stopAt : nat -> bool) : Env := {|
  World := world;
  random_bits := draw;
  date_now := fun w => Z.of_nat (suspensions w);
  math_sqrt := sqrt6;
  oak_step := fun c i w =>
    if stepFails c i then (Rejects (AgentError i), w) else (Resolves tt, w);
  agent_learn := fun i _ w =>
    if learnFails i then (Rejects (AgentError i), w)
    else (Resolves tt,
          {| seed := seed w; learned := i :: learned w;
             suspensions := suspensions w |});
  agent_act := fun i _ _ w =>
    if actHangs i then (Pending, w)
    else (Settled (Resolves {| a_type := "adapt"; a_parameters := [] |}), w);
  external_calls := fun w =>
    (stopAt (suspensions w),
     {| seed := seed w; learned := learned w;
        suspensions := S (suspensions w) |})
|}.

Definition start : world := {| seed := 2024; learned := []; suspensions := 0 |}.

Definition never (_ : nat) : bool := false.
Definition no_step (_ : Capability) (_ : nat) : bool := false.

(** Every agent works and nobody calls [stop()] *)
Definition healthy : Env := env no_step never never never.

(** Agent [victim] rejects [plan], the seventh step, and nothing else *)
Definition plan_rejects (victim : nat) (c : Capability) (i : nat) : bool :=
  match c with
  | plan => Nat.eqb i victim
  | _ => false
  end.

(** Agent [victim] rejects every Oak step *)
Definition steps_reject (victim : nat) (_ : Capability) (i : nat) : bool :=
  Nat.eqb i victim.

(** Every capability call of agent [victim] rejects *)
Definition broken (victim : nat) : Env :=
  env (steps_reject victim) (Nat.eqb victim) never never.

(** The [act] call of agent [victim] never settles before the timer *)
Definition hanging (victim : nat) : Env :=
  env no_step never (Nat.eqb victim) never.

(** Mutation and crossover at rate 1: both are applied whenever
    [applyEvolution] runs *)
Definition eager : EvolutionConfig := {|
  populationSize := 3;
  generationLimit := 2;
  mutationRate := 1;
  crossoverRate := 1;
  eliteSize := 1;
  evaluationTimeout := 1;
  convergenceThreshold := 1 # 1000;
  diversityWeight := 3 # 10
|}.

End Sim.

(** ** The Kimi K2 adapter (kimi_k2_adapter.ts)

    One of the agents the loop drives.  Of its private state, only what
    the methods below touch is kept: the [performance_metrics] object of
    [this.metadata], absent until [initialize] has run, and the
    console. *)
Module Kimi.

Record PerformanceMetrics : Type := {
  reasoning_accuracy : option num;
  knowledge_coverage : option num;
  response_coherence : option num
}.

Record KimiK2Adapter : Type := {
  performance_metrics : option PerformanceMetrics;
  console : list string
}.

(** [new KimiK2Adapter(config)] *)
Definition created : KimiK2Adapter :=
  {| performance_metrics := None; console := [] |}.

(** The metrics written by [loadPretrainedCapabilities] *)
Definition pretrained : PerformanceMetrics :=
  {| reasoning_accuracy := Some (Fin (92 # 100));
     knowledge_coverage := Some (Fin (88 # 100));
     response_coherence := Some (Fin (94 # 100)) |}.

Definition console_log (line : string) : SE KimiK2Adapter unit :=
  fun k =>
    (Ok tt, {| performance_metrics := performance_metrics k;
               console := (console k ++ [line])%list |}).

(** [updateValueFunction()].  Without a [performance_metrics] object the
    update goes to a fresh [{}] that is dropped. *)
Definition updateValueFunction : SE KimiK2Adapter unit :=
  fun k =>
    match performance_metrics k with
    | Some performanceMetrics =>
        (Ok tt,
         {| performance_metrics :=
              Some {| reasoning_accuracy :=
                        Some (min2 (Fin 1)
                                (add (or_default (reasoning_accuracy performanceMetrics)
                                        (9 # 10))
                                     (Fin (1 # 1000))));
                      knowledge_coverage := knowledge_coverage performanceMetrics;
                      response_coherence := response_coherence performanceMetrics |};
            console := console k |})
    | None => (Ok tt, k)
    end.

(** [learnPoliciesAndValues()].  The class defines no
    [refineDecisionPolicies]: the last line calls [undefined]. *)
Definition learnPoliciesAndValues : SE KimiK2Adapter unit :=
  console_log "Kimi K2: Learning policies and value functions..." ;;;
  updateValueFunction ;;;
  throw TypeError.

(** [calculatePlanningConfidence(step)] *)
Definition calculatePlanningConfidence (k : KimiK2Adapter) (step : nat) : num :=
  let baseConfidence :=
    or_default
      (match performance_metrics k with
       | Some performanceMetrics => reasoning_accuracy performanceMetrics
       | None => None
       end)
      (9 # 10) in
  max2 (Fin (1 # 2)) (sub baseConfidence (Fin (inject_Z (Z.of_nat step) * (1 # 10)))).

(** An adapter method as a step of the loop's environment, for a world
    that keeps the adapter: the promise resolves when the method
    returns and rejects with what it throws. *)
Definition as_step {W : Type} (get : W -> KimiK2Adapter)
    (put : KimiK2Adapter -> W -> W) (m : SE KimiK2Adapter unit)
  : W -> outcome unit * W :=
  fun w =>
    match m (get w) with
    | (Ok _, k) => (Resolves tt, put k w)
    | (Throw e, k) => (Rejects e, put k w)
    | (OutOfFuel, k) => (Rejects TypeError, put k w)
    end.

End Kimi.

Module KimiSim.

(** An environment in which agent 0 is an initialised adapter, kept
    beside the world of [Sim]; only the first Oak step of the adapter is
    its own method. *)
Definition env : Env := {|
  World := Sim.world * Kimi.KimiK2Adapter;
  random_bits := fun w => let (n, s) := Sim.draw (fst w) in (n, (s, snd w));
  date_now := fun w => date_now Sim.healthy (fst w);
  math_sqrt := Sim.sqrt6;
  oak_step := fun c i w =>
    match c, i with
    | learnPoliciesAndValues, O =>
        Kimi.as_step snd (fun k w => (fst w, k)) Kimi.learnPoliciesAndValues w
    | _, _ => (Resolves tt, w)
    end;
  agent_learn := fun i x w =>
    let (r, s) := agent_learn Sim.healthy i x (fst w) in (r, (s, snd w));
  agent_act := fun i s t w =>
    let (r, s') := agent_act Sim.healthy i s t (fst w) in (r, (s', snd w));
  external_calls := fun w =>
    let (b, s) := external_calls Sim.healthy (fst w) in (b, (s, snd w))
|}.

Definition start : World env :=
  (Sim.start, {| Kimi.performance_metrics := Some Kimi.pretrained; Kimi.console := [] |}).

End KimiSim.

Local Close Scope string_scope.

(** ** Vocabulary of the statements *)

(** [m] returns a value from every state: it neither throws nor runs out
    of fuel. *)
Definition returns {S A} (m : SE S A) : Prop :=
  forall s, exists a s', m s = (Ok a, s').

(** [m] returns or throws from every state. *)
Definition settles {S A} (m : SE S A) : Prop :=
  forall s, fst (m s) <> OutOfFuel.

(** [m] returns from every state, with a value that satisfies [P]. *)
Definition returns_with {S A} (m : SE S A) (P : A -> Prop) : Prop :=
  forall s, exists a s', m s = (Ok a, s') /\ P a.

(** Some call of [a.learn] resolves. *)
Definition can_learn (E : Env) (a : IMetaAgent) : Prop :=
  exists x w w', learn E a x w = (Ok tt, w').

(** What one agent's cycle may put in its slot: the agent itself, or a
    member of the population whose [learn] resolved. *)
Definition cycle_result (E : Env) (this : OakEvolutionLoop) (a x : IMetaAgent) : Prop :=
  x = a \/ (In x (population this) /\ can_learn E x).

Definition IMetaAgent_eq_dec (a b : IMetaAgent) : {a = b} + {a <> b}.
Proof. decide equality. apply Nat.eq_dec. Defined.

(** Every capability call of agent [i] rejects, [learn] included. *)
Definition every_call_throws (E : Env) (i : nat) : Prop :=
  (forall c w, exists e w', oak_step E c i w = (Rejects e, w')) /\
  (forall x w, exists e w', agent_learn E i x w = (Rejects e, w')).

(** [before x y]: entry [x] has the larger score, or the same score and
    the smaller original index. *)
Definition before (x y : Q * nat) : Prop :=
  fst y < fst x \/ (fst x == fst y /\ (snd x < snd y)%nat).

(** [ranks_before fs i j]: index [i] comes before index [j] in the
    descending order of [fs], ties going to the smaller index. *)
Definition ranks_before (fs : list Q) (i j : nat) : Prop :=
  nth j fs 0 < nth i fs 0 \/ (nth i fs 0 == nth j fs 0 /\ (i < j)%nat).

(** What one turn of the loop of [run] does to the object: [this] at the
    top of the turn, [this'] at its end, [tail] what it logged after the
    two opening lines, [exit] whether it left by [break]. *)
Record generation_outcome (E : Env) (this : OakEvolutionLoop)
    (newGeneration : list IMetaAgent) (fitnessScores : list Q)
    (tail : list Event) (exit : bool) (this' : OakEvolutionLoop) : Prop := {
  go_config : config this' = config this;
  go_members : Forall (fun x => In x (population this)) newGeneration;
  go_sizes :
    length newGeneration = length (population this) /\
    length fitnessScores = length newGeneration;
  go_log :
    log this'
    = log this
      ++ generationLog (generation this + 1) (generationLimit (config this))
      :: oakCycleLog :: tail;
  go_one_cycle : ~ In oakCycleLog tail;
  go_evaluated :
    forall p fs,
      In (fitnessLog p fs) tail <-> p = newGeneration /\ fs = fitnessScores;
  go_complete : exists m, In (generationComplete m) tail;
  go_running :
    isRunning this' = true -> ~ In stoppedLog tail /\ isRunning this = true;
  go_bestFitness :
    bestFitness this'
    = if gtb (max_list fitnessScores) (bestFitness this)
      then max_list fitnessScores else bestFitness this;
  go_bestAgent :
    bestAgent this'
    = if gtb (max_list fitnessScores) (bestFitness this)
      then Some (at_index newGeneration
                   (indexOf (max_list fitnessScores) fitnessScores 0))
      else bestAgent this;
  go_metrics :
    exists runtime,
      metrics this' = metrics this ++ [calculateMetrics E this fitnessScores runtime];
  go_generation :
    generation this' = if exit then generation this else S (generation this);
  go_population :
    exit = false ->
    length (population this')
    = Nat.max (Nat.min (eliteSize (config this)) (length fitnessScores))
              (populationSize (config this))
}.

(** The turns of the [while] loop of [run] as a relation:
    [loop_run E this delta this'] when the loop, entered in [this],
    leaves in [this'] after writing [delta] to the log. *)
Definition loop_condition (this : OakEvolutionLoop) : bool :=
  isRunning this && (generation this <? generationLimit (config this))%nat.

Inductive loop_run (E : Env) : OakEvolutionLoop -> list Event -> OakEvolutionLoop -> Prop :=
| loop_exit this :
    loop_condition this = false ->
    loop_run E this [] this
| loop_break this newGeneration fitnessScores tail this1 :
    loop_condition this = true ->
    generation_outcome E this newGeneration fitnessScores tail true this1 ->
    loop_run E this
      (generationLog (generation this + 1) (generationLimit (config this))
       :: oakCycleLog :: tail)
      this1
| loop_next this newGeneration fitnessScores tail this1 delta this2 :
    loop_condition this = true ->
    generation_outcome E this newGeneration fitnessScores tail false this1 ->
    loop_run E this1 delta this2 ->
    loop_run E this
      (generationLog (generation this + 1) (generationLimit (config this))
       :: oakCycleLog :: tail ++ delta)
      this2.

(** The state in which [run] enters its loop: the fields are reset, the
    start event is emitted, and a listener may already have called
    [stop()]. *)
Definition entry_state (initialPopulation : list IMetaAgent) (stopCalled : bool)
    (this : OakEvolutionLoop) : OakEvolutionLoop :=
  let started :=
    write_log (evolutionStarted (config this))
      (set_generation 0 (set_population initialPopulation (set_isRunning true this))) in
  if stopCalled then stop started else started.

(** The state in which [run] returns, from the state [this1] in which
    the loop ended. *)
Definition return_state (stopCalled : bool) (this1 : OakEvolutionLoop) : OakEvolutionLoop :=
  let completed :=
    write_log
      (evolutionComplete (bestAgent this1) (bestFitness this1) (generation this1)
         (metrics this1))
      this1 in
  set_isRunning false (if stopCalled then stop completed else completed).

(** The tracked pair is in order: no best fitness without a best agent. *)
Definition tracking (this : OakEvolutionLoop) : Prop :=
  match bestFitness this with
  | NegInf => True
  | Fin _ => bestAgent this <> None
  | _ => False
  end.

(** In [l], no Oak cycle is logged after a stop. *)
Definition no_cycle_after_stop (l : list Event) : Prop :=
  forall l1 l2, l = l1 ++ stoppedLog :: l2 -> ~ In oakCycleLog l2.

(** In [l], every Oak cycle that begins is followed by the completion of
    its generation. *)
Definition cycles_complete (l : list Event) : Prop :=
  forall l1 l2, l = l1 ++ oakCycleLog :: l2 -> exists m, In (generationComplete m) l2.

(** The kind of a log entry, without its payload. *)
Inductive mark : Type :=
| Started
| GenerationBegins (n : nat)
| OakCycle
| Evaluated
| NewBest
| GenerationDone (generation : nat)
| Converged
| Completed (generations : nat)
| Failed
| Stopped.

Definition mark_of (ev : Event) : mark :=
  match ev with
  | evolutionStarted _ => Started
  | generationLog n _ => GenerationBegins n
  | oakCycleLog => OakCycle
  | fitnessLog _ _ => Evaluated
  | newBestAgentEvent _ _ _ => NewBest
  | generationComplete m => GenerationDone (m_generation m)
  | convergedLog => Converged
  | evolutionComplete _ _ g _ => Completed g
  | evolutionError _ => Failed
  | stoppedLog => Stopped
  end.

(** [in_range lo hi v]: [v] is a finite number with [lo <= v < hi]. *)
Definition in_range (lo hi : Q) (v : num) : Prop :=
  match v with
  | Fin q => lo <= q /\ q < hi
  | _ => False
  end.

(** The experiences [generateMutationExperiences] builds. *)
Definition mutation_shaped (x : IExperience) : Prop :=
  e_done x = false /\
  a_type (e_action x) = "mutate"%string /\
  - (5 # 100) <= r_value (e_reward x) /\ r_value (e_reward x) < 5 # 100 /\
  map fst (s_features (e_state x))
  = ["exploration"; "adaptation"; "novelty"]%string /\
  map fst (s_features (e_nextState x))
  = ["exploration"; "adaptation"; "novelty"]%string /\
  Forall (fun kv => in_range 0 1 (snd kv)) (s_features (e_state x)) /\
  Forall (fun kv => in_range 0 1 (snd kv)) (s_features (e_nextState x)).

(** The experiences [generateCrossoverExperiences] builds. *)
Definition crossover_shaped (x : IExperience) : Prop :=
  e_done x = false /\
  a_type (e_action x) = "integrate_knowledge"%string /\
  0 <= r_value (e_reward x) /\ r_value (e_reward x) < 3 # 10 /\
  Forall (fun kv => in_range 0 1 (snd kv)) (s_features (e_state x)) /\
  (exists kt pb hc,
     s_features (e_nextState x)
     = [("knowledge_transfer"%string, kt); ("policy_blend"%string, pb);
        ("hybrid_capability"%string, hc)] /\
     in_range (5 # 10) 1 kt /\ in_range 0 1 pb /\ in_range (7 # 10) 1 hc).

(** The states of the evaluation harness: the five features are present
    with finite values, the first two non-negative, the others in [0, 1]. *)
Definition evaluation_state (s : IState) : Prop :=
  exists cl cx nl ra tp,
    s_features s
    = [("challenge_level"%string, Fin cl); ("complexity"%string, Fin cx);
       ("noise_level"%string, Fin nl); ("resource_availability"%string, Fin ra);
       ("time_pressure"%string, Fin tp)] /\
    0 <= cl /\ 0 <= cx /\
    (0 <= nl /\ nl <= 1) /\ (0 <= ra /\ ra <= 1) /\ (0 <= tp /\ tp <= 1).

(** One turn of the loop of [run], by the calls it makes: the Oak cycle
    on the current population gives [newGeneration], its evaluation
    gives [fitnessScores], and [stops] are the points at which the turn
    gave up control. *)
Record generation_turn (E : Env) (this : OakEvolutionLoop)
    (newGeneration : list IMetaAgent) (fitnessScores : list Q)
    (stops : list (World E)) (exit : bool) (this' : OakEvolutionLoop) : Prop := {
  gt_config : config this' = config this;
  gt_cycle :
    exists t w w',
      config t = config this /\ population t = population this /\
      executeOakCycle E t w = (Ok newGeneration, w');
  gt_scores :
    exists t w w',
      config t = config this /\
      evaluatePopulation E t newGeneration w = (Ok fitnessScores, w');
  gt_bestAgent :
    bestAgent this'
    = if gtb (max_list fitnessScores) (bestFitness this)
      then Some (at_index newGeneration
                   (indexOf (max_list fitnessScores) fitnessScores 0))
      else bestAgent this;
  gt_metrics :
    exists runtime,
      metrics this' = metrics this ++ [calculateMetrics E this fitnessScores runtime];
  gt_exit :
    exists m, exit = hasConverged (push_metrics m this) /\
              metrics this' = metrics this ++ [m];
  gt_generation :
    generation this' = if exit then generation this else S (generation this);
  gt_population :
    if exit then population this' = population this
    else exists t w w',
           config t = config this /\
           selectNextGeneration E t newGeneration fitnessScores w
           = (Ok (population this'), w');
  gt_running :
    isRunning this'
    = isRunning this && forallb (fun w => negb (fst (external_calls E w))) stops
}.

(** Nobody calls [stop()] while the driver is suspended. *)
Definition never_stopped (E : Env) : Prop :=
  forall w, fst (external_calls E w) = false.

(** A number that is not negative: NaN and [Infinity] count. *)
Definition not_negative (x : num) : Prop :=
  match x with
  | Fin q => 0 <= q
  | NegInf => False
  | _ => True
  end.

Definition rate_not_negative (m : EvolutionMetrics) : Prop :=
  not_negative (m_convergenceRate m).

(** [this] can be reached, turn after turn, from [this0] entered with
    [initialPopulation]: same configuration, a population of the given
    agents that is empty only for a population size of 0, and a best
    agent that is the one of [this0] or one of the given agents. *)
Definition from_start (initialPopulation : list IMetaAgent)
    (this0 this : OakEvolutionLoop) : Prop :=
  config this = config this0 /\
  Forall (fun x => In x initialPopulation) (population this) /\
  (population this <> [] \/ populationSize (config this0) = 0%nat) /\
  (bestAgent this = bestAgent this0 \/
   exists a, bestAgent this = Some a /\ In a initialPopulation).

(** The history of [this], reached from [this0] by turns of the loop:
    the entries of [this0] followed by one entry per generation,
    numbered from 0; [converged] tells whether the last turn left by
    [break]. *)
Definition numbered (this0 : OakEvolutionLoop) (converged : bool)
    (this : OakEvolutionLoop) : Prop :=
  config this = config this0 /\
  (generation this <= generationLimit (config this0))%nat /\
  exists ms,
    metrics this = metrics this0 ++ ms /\
    map m_generation ms = seq 0 (length ms) /\
    (length ms <= generationLimit (config this0))%nat /\
    if converged then length ms = S (generation this) /\ hasConverged this = true
    else length ms = generation this.

(** A run from [this0] that nobody stops and that cannot converge:
    [this] is still running and has one more entry per generation. *)
Definition undisturbed (this0 this : OakEvolutionLoop) : Prop :=
  config this = config this0 /\
  isRunning this = true /\
  (generation this <= generationLimit (config this0))%nat /\
  length (metrics this) = (length (metrics this0) + generation this)%nat /\
  ((convergenceThreshold (config this0) <= 0 /\
    Forall rate_not_negative (metrics this)) \/
   (length (metrics this0) + generationLimit (config this0) < 5)%nat).

(** Agent [i] is a Kimi K2 adapter kept in the world: its first Oak step
    is the adapter's method. *)
Definition is_adapter (E : Env) (get : World E -> Kimi.KimiK2Adapter)
    (put : Kimi.KimiK2Adapter -> World E -> World E) (i : nat) : Prop :=
  forall w,
    oak_step E learnPoliciesAndValues i w
    = Kimi.as_step get put Kimi.learnPoliciesAndValues w.

(** ** The model on small inputs *)

Example sortedIndices_ties : sortedIndices [1 # 3; 1 # 2; 1 # 2] = [1; 2; 0]%nat.
Proof. reflexivity. Qed.

Example max_list_empty : max_list [] = NegInf.
Proof. reflexivity. Qed.

Example max_list_three : max_list [1 # 2; 3 # 4; 1 # 4] = Fin (3 # 4).
Proof. reflexivity. Qed.

Example indexOf_first_maximum :
  indexOf (Fin (3 # 4)) [1 # 2; 3 # 4; 6 # 8] 0 = Some 1%nat.
Proof. reflexivity. Qed.

Example average_of_nothing : div_len (Fin 0) 0 = NaN.
Proof. reflexivity. Qed.

Example includes_adapt : includes "adaptive_step" "adapt" = true.
Proof. reflexivity. Qed.

Example includes_learn_absent : includes "mutate" "learn" = false.
Proof. reflexivity. Qed.

Example elite_of_four :
  elite (new_loop Sim.eager) [agent 0; agent 1; agent 2; agent 3]
    [1 # 5; 4 # 5; 2 # 5; 4 # 5]
  = [agent 1].
Proof. reflexivity. Qed.

Example quality_of_adaptive_action :
  assessActionQuality
    {| s_id := mutation_state 0;
       s_features := [("complexity"%string, Fin (8 # 10))];
       s_context := [] |}
    {| a_type := "learn_more";
       a_parameters := [("a"%string, JNum 0); ("b"%string, JNum 0);
                        ("c"%string, JNum 0); ("d"%string, JNum 0)] |}
  == 1.
Proof. reflexivity. Qed.

Example quality_without_complexity :
  assessActionQuality
    {| s_id := mutation_state 0; s_features := []; s_context := [] |}
    {| a_type := "mutate"; a_parameters := [] |}
  == 5 # 10.
Proof. reflexivity. Qed.

Example convergence_rate_of_two_entries :
  let entry g b :=
    {| m_generation := g; m_bestFitness := Fin b; m_averageFitness := Fin b;
       m_diversity := Fin 0; m_convergenceRate := Fin 0; m_runtime := 0 |} in
  calculateConvergenceRate
    (push_metrics (entry 1%nat 3) (push_metrics (entry 0%nat 1) (new_loop Sim.eager)))
  = Fin 2.
Proof. reflexivity. Qed.

Example crossover_keeps_first_parent_of_undefined :
  fst (crossoverAgents Sim.healthy (agent 0) undefined Sim.start) = Ok (agent 0).
Proof. vm_compute. reflexivity. Qed.

Example tournament_over_nothing :
  fst (tournamentSelection Sim.healthy [] [] Sim.start) = Ok undefined.
Proof. vm_compute. reflexivity. Qed.

(** ** Numbers *)

Lemma Qltb_lt a b : Qltb a b = true <-> a < b.
Proof.
  unfold Qltb. rewrite negb_true_iff. split; intro H.
  - apply Qnot_le_lt. intro L. apply Qle_bool_iff in L. congruence.
  - destruct (Qle_bool b a) eqn:Hle; [|reflexivity].
    apply Qle_bool_iff in Hle. exfalso. exact (Qlt_not_le _ _ H Hle).
Qed.

Lemma Qltb_ge a b : Qltb a b = false <-> b <= a.
Proof.
  unfold Qltb. rewrite negb_false_iff. apply Qle_bool_iff.
Qed.

Lemma unit_fraction_range (n : N) :
  0 <= (Z.of_N (n mod 2 ^ 53) # 2 ^ 53) /\ (Z.of_N (n mod 2 ^ 53) # 2 ^ 53) < 1.
Proof.
  assert (Hlt : (n mod 2 ^ 53 < 2 ^ 53)%N) by (apply N.mod_lt; discriminate).
  unfold Qle, Qlt; cbn [Qnum Qden]. split.
  - rewrite Z.mul_1_r. change (0 * _)%Z with 0%Z. apply N2Z.is_nonneg.
  - rewrite Z.mul_1_r, Z.mul_1_l.
    change (Z.pos (2 ^ 53)) with (Z.of_N (2 ^ 53)). now apply N2Z.inj_lt.
Qed.

(** ** The monad *)

Lemma settles_ret {S A} (a : A) : settles (@ret S A a).
Proof. intros s. discriminate. Qed.

Lemma settles_throw {S A} (e : error) : settles (@throw S A e).
Proof. intros s. discriminate. Qed.

Lemma settles_bind {S A B} (m : SE S A) (k : A -> SE S B) :
  settles m -> (forall a, settles (k a)) -> settles (bind m k).
Proof.
  intros Hm Hk s. unfold bind. specialize (Hm s).
  destruct (m s) as [[a| e |] s']; cbn in *.
  - apply Hk.
  - discriminate.
  - congruence.
Qed.

Lemma settles_try_catch {S A} (m : SE S A) (h : error -> SE S A) :
  settles m -> (forall e, settles (h e)) -> settles (try_catch m h).
Proof.
  intros Hm Hh s. unfold try_catch. specialize (Hm s).
  destruct (m s) as [[a| e |] s']; cbn in *.
  - discriminate.
  - apply Hh.
  - congruence.
Qed.

Lemma returns_settles {S A} (m : SE S A) : returns m -> settles m.
Proof. intros H s. destruct (H s) as (a & s' & ->). discriminate. Qed.

Lemma returns_ret {S A} (a : A) : returns (@ret S A a).
Proof. intros s. now exists a, s. Qed.

(** A [try]/[catch] whose handler returns, returns. *)
Lemma returns_try_catch {S A} (m : SE S A) (h : error -> SE S A) :
  settles m -> (forall e, returns (h e)) -> returns (try_catch m h).
Proof.
  intros Hm Hh s. unfold try_catch. specialize (Hm s).
  destruct (m s) as [[a| e |] s']; cbn in *.
  - eauto.
  - apply Hh.
  - congruence.
Qed.

Lemma settles_for_each {S A} (f : A -> SE S unit) (xs : list A) :
  (forall x, settles (f x)) -> settles (for_each f xs).
Proof.
  intros Hf. induction xs as [|x xs IH]; cbn.
  - apply settles_ret.
  - apply settles_bind; auto.
Qed.

Lemma returns_with_promise_all {S A B} (f : A -> SE S B) (P : A -> B -> Prop)
    (xs : list A) :
  (forall x, In x xs -> returns_with (f x) (P x)) ->
  returns_with (promise_all f xs) (Forall2 P xs).
Proof.
  induction xs as [|x xs IH]; intros Hf s; cbn.
  - exists [], s. split; [reflexivity | constructor].
  - unfold bind. destruct (Hf x (or_introl eq_refl) s) as (y & s1 & -> & Hy).
    destruct (IH (fun x' Hx' => Hf x' (or_intror Hx')) s1) as (ys & s2 & -> & Hys).
    exists (y :: ys), s2. split; [reflexivity | now constructor].
Qed.

Lemma returns_with_bind {S A B} (m : SE S A) (k : A -> SE S B) (P : A -> Prop)
    (Q : B -> Prop) :
  returns_with m P -> (forall a, P a -> returns_with (k a) Q) ->
  returns_with (bind m k) Q.
Proof.
  intros Hm Hk s. unfold bind.
  destruct (Hm s) as (a & s1 & -> & Ha). apply (Hk a Ha).
Qed.

Lemma returns_with_weaken {S A} (m : SE S A) (P Q : A -> Prop) :
  returns_with m P -> (forall a, P a -> Q a) -> returns_with m Q.
Proof.
  intros Hm HPQ s. destruct (Hm s) as (a & s1 & -> & Ha). eauto.
Qed.

Lemma returns_with_returns {S A} (m : SE S A) (P : A -> Prop) :
  returns_with m P -> returns m.
Proof. intros Hm s. destruct (Hm s) as (a & s1 & -> & _). eauto. Qed.

Lemma returns_returns_with {S A} (m : SE S A) :
  returns m -> returns_with m (fun _ => True).
Proof. intros Hm s. destruct (Hm s) as (a & s1 & ->). eauto. Qed.

Lemma returns_with_ret {S A} (a : A) (P : A -> Prop) :
  P a -> returns_with (@ret S A a) P.
Proof. intros Ha s. now exists a, s. Qed.

(** What a [try]/[catch] returns: the value of the block when the block
    returns, the value of the handler when it throws. *)
Lemma returns_with_try_catch {S A} (m : SE S A) (h : error -> SE S A)
    (P : A -> Prop) :
  settles m ->
  (forall s a s', m s = (Ok a, s') -> P a) ->
  (forall e, returns_with (h e) P) ->
  returns_with (try_catch m h) P.
Proof.
  intros Hm Hok Hh s. unfold try_catch. specialize (Hm s). specialize (Hok s).
  destruct (m s) as [[a| e |] s']; cbn in *.
  - exists a, s'. split; [reflexivity | now apply (Hok a s')].
  - apply Hh.
  - congruence.
Qed.

Lemma bind_Ok_inv {S A B} (m : SE S A) (k : A -> SE S B) s b s' :
  bind m k s = (Ok b, s') ->
  exists a s1, m s = (Ok a, s1) /\ k a s1 = (Ok b, s').
Proof.
  unfold bind. destruct (m s) as [[a| e |] s1]; intros H; try discriminate. eauto.
Qed.

Lemma for_each_Ok_inv {S A} (f : A -> SE S unit) x xs s s' :
  for_each f (x :: xs) s = (Ok tt, s') -> exists s1, f x s = (Ok tt, s1).
Proof.
  cbn. intros H. apply bind_Ok_inv in H. destruct H as ([] & s1 & H & _). eauto.
Qed.

(** ** Facts about the agent cycle *)

Section Cycle.
Variable E : Env.

Local Abbreviation M := (SE (World E)).

Lemma Math_random_range :
  returns_with (Math_random E) (fun r => 0 <= r /\ r < 1).
Proof.
  intros w. unfold Math_random. destruct (random_bits E w) as [n w'].
  eexists _, w'. split; [reflexivity | apply unit_fraction_range].
Qed.

Lemma Math_random_returns : returns (Math_random E).
Proof. exact (returns_with_returns Math_random_range). Qed.

Lemma settles_settle A (c : World E -> outcome A * World E) : settles (settle E c).
Proof. intros w. unfold settle. destruct (c w) as [[a|e] w']; discriminate. Qed.

Lemma settles_call c a : settles (call E c a).
Proof. destruct a; [apply settles_throw | apply settles_settle]. Qed.

Lemma settles_learn a x : settles (learn E a x).
Proof. destruct a; [apply settles_throw | apply settles_settle]. Qed.

Lemma settles_act t a s : settles (act_or_timeout E t a s).
Proof.
  destruct a; [apply settles_throw|]. intros w. cbn.
  destruct (agent_act E id s t w) as [[[x|e]|] w']; discriminate.
Qed.

Lemma for_range_returns A (f : nat -> M A) n :
  (forall i, returns (f i)) ->
  forall i, returns_with (for_range E n i f) (fun xs => length xs = n).
Proof.
  intros Hf. induction n as [|n IH]; intros i; cbn.
  - now apply returns_with_ret.
  - apply returns_with_bind with (P := fun _ => True).
    { apply returns_returns_with, Hf. }
    intros x _. apply returns_with_bind with (P := fun xs => length xs = n).
    { apply IH. }
    intros xs Hxs. apply returns_with_ret. cbn. now rewrite Hxs.
Qed.

Ltac draw := apply returns_with_bind with (P := fun _ => True);
             [apply returns_returns_with, Math_random_returns | intros ? _].

Lemma mutation_experience_returns i : returns (mutation_experience E i).
Proof.
  apply returns_with_returns with (P := fun _ => True).
  unfold mutation_experience. do 9 draw. now apply returns_with_ret.
Qed.

Lemma crossover_experience_returns i : returns (crossover_experience E i).
Proof.
  apply returns_with_returns with (P := fun _ => True).
  unfold crossover_experience. do 9 draw. now apply returns_with_ret.
Qed.

Lemma generateMutationExperiences_returns : returns (generateMutationExperiences E).
Proof.
  apply returns_with_returns with (P := fun _ => True).
  unfold generateMutationExperiences. draw.
  eapply returns_with_weaken.
  - apply for_range_returns. apply mutation_experience_returns.
  - trivial.
Qed.

(** [generateCrossoverExperiences] yields at least two experiences. *)
Lemma generateCrossoverExperiences_nonempty :
  returns_with (generateCrossoverExperiences E) (fun xs => (2 <= length xs)%nat).
Proof.
  unfold generateCrossoverExperiences.
  apply returns_with_bind with (P := fun r => 0 <= r /\ r < 1).
  { apply Math_random_range. }
  intros r [Hr _].
  eapply returns_with_weaken.
  - apply for_range_returns. apply crossover_experience_returns.
  - cbn beta. intros xs ->.
    assert (0 <= Qfloor (r * 3))%Z.
    { change 0%Z with (Qfloor 0). apply Qfloor_resp_le.
      apply Qmult_le_0_compat; [assumption | discriminate]. }
    lia.
Qed.
End Cycle.

Lemma returns_with_run {S A} (m : SE S A) (P : A -> Prop) :
  returns_with m P -> forall s a s', m s = (Ok a, s') -> P a.
Proof.
  intros Hm s a s' Hs. destruct (Hm s) as (a' & s1 & Heq & Ha). congruence.
Qed.

Section Operators.
Variable E : Env.
Variable this : OakEvolutionLoop.

Lemma can_learn_undefined : ~ can_learn E undefined.
Proof. intros (x & w & w' & H). discriminate. Qed.

(** [mutateAgent] returns the very agent it was given. *)
Lemma mutateAgent_same a : returns_with (mutateAgent E a) (fun x => x = a).
Proof.
  unfold mutateAgent. apply returns_with_try_catch.
  - apply settles_bind.
    + apply returns_settles, generateMutationExperiences_returns.
    + intros xs. apply settles_bind.
      * apply settles_for_each. intros x. apply settles_learn.
      * intros _. apply settles_ret.
  - intros w x w' H.
    apply bind_Ok_inv in H. destruct H as (xs & w1 & _ & H).
    apply bind_Ok_inv in H. destruct H as (u & w2 & _ & H).
    now inversion H.
  - intros e. now apply returns_with_ret.
Qed.

(** [crossoverAgents] returns one of its two parents, and the second
    one only after that parent's [learn] has resolved. *)
Lemma crossoverAgents_parent parent1 parent2 :
  returns_with (crossoverAgents E parent1 parent2)
    (fun x => x = parent1 \/ (x = parent2 /\ can_learn E parent2)).
Proof.
  unfold crossoverAgents. apply returns_with_try_catch.
  - apply settles_bind.
    + apply returns_settles, Math_random_returns.
    + intros r. apply settles_bind.
      * apply returns_settles.
        exact (returns_with_returns (generateCrossoverExperiences_nonempty E)).
      * intros xs. apply settles_bind.
        -- apply settles_for_each. intros x. apply settles_learn.
        -- intros _. apply settles_ret.
  - intros w x w' H.
    apply bind_Ok_inv in H. destruct H as (r & w1 & _ & H).
    apply bind_Ok_inv in H. destruct H as (xs & w2 & Hxs & H).
    apply bind_Ok_inv in H. destruct H as ([] & w3 & Hlearn & H).
    inversion H; subst x w3; clear H.
    destruct (Qltb (5 # 10) r); [now left | right; split; [reflexivity|]].
    apply (returns_with_run (generateCrossoverExperiences_nonempty E)) in Hxs.
    destruct xs as [|x xs]; [cbn in Hxs; lia|].
    apply for_each_Ok_inv in Hlearn. destruct Hlearn as (w4 & Hlearn).
    now exists x, w2, w4.
  - intros e. apply returns_with_ret. now left.
Qed.

(** [selectRandomAgent] returns a member of the population, or
    [undefined] when no candidate is left. *)
Lemma selectRandomAgent_member excludeAgent :
  returns_with (selectRandomAgent E this excludeAgent)
    (fun x => x = undefined \/ In x (population this)).
Proof.
  unfold selectRandomAgent.
  apply returns_with_bind with (P := fun _ => True).
  { apply returns_returns_with, Math_random_returns. }
  intros r _. apply returns_with_ret.
  match goal with |- nth ?n ?l ?d = _ \/ _ => destruct (nth_in_or_default n l d) as [Hin | ->] end.
  - right. apply filter_In in Hin. tauto.
  - now left.
Qed.

Lemma applyEvolution_result a :
  returns_with (applyEvolution E this a) (cycle_result E this a).
Proof.
  unfold applyEvolution.
  apply returns_with_bind with (P := fun _ => True).
  { apply returns_returns_with, Math_random_returns. }
  intros r1 _.
  apply returns_with_bind with (P := fun x => x = a).
  { destruct (Qltb r1 _); [apply mutateAgent_same | now apply returns_with_ret]. }
  intros evolvedAgent ->.
  apply returns_with_bind with (P := fun _ => True).
  { apply returns_returns_with, Math_random_returns. }
  intros r2 _.
  destruct (_ && _).
  - apply returns_with_bind with (P := fun x => x = undefined \/ In x (population this)).
    { apply selectRandomAgent_member. }
    intros otherParent Hother.
    eapply returns_with_weaken; [apply crossoverAgents_parent|].
    cbn beta. intros x [-> | [-> Hlearn]]; [now left | right].
    destruct Hother as [-> | Hin]; [now apply can_learn_undefined in Hlearn | tauto].
  - apply returns_with_ret. now left.
Qed.

Lemma settles_eight_steps a : settles (eight_steps E a).
Proof.
  unfold eight_steps.
  repeat (apply settles_bind; [apply settles_call | intros _]).
  apply settles_call.
Qed.

(** One agent's cycle always returns, whatever the agent does. *)
Lemma executeAgentOakCycle_result a :
  returns_with (executeAgentOakCycle E this a) (cycle_result E this a).
Proof.
  unfold executeAgentOakCycle. apply returns_with_try_catch.
  - apply settles_bind; [apply settles_eight_steps|].
    intros _. apply returns_settles.
    exact (returns_with_returns (applyEvolution_result a)).
  - intros w x w' H.
    apply bind_Ok_inv in H. destruct H as (u & w1 & _ & H).
    exact (returns_with_run (applyEvolution_result a) _ H).
  - intros e. apply returns_with_ret. now left.
Qed.

(** The batches of [executeOakCycle] cover the population slot by slot. *)
Lemma oak_batches_slots (P : IMetaAgent -> IMetaAgent -> Prop) :
  (forall a, In a (population this) ->
             returns_with (executeAgentOakCycle E this a) (P a)) ->
  forall fuel i acc,
    (length (population this) - i
       <= fuel * Nat.min 10 (length (population this)))%nat ->
    returns_with
      (oak_batches E fuel this (Nat.min 10 (length (population this))) i acc)
      (fun r => exists ys, r = acc ++ ys /\ Forall2 P (skipn i (population this)) ys).
Proof.
  intros Hagent.
  set (p := population this). set (b := Nat.min 10 (length p)).
  induction fuel as [|fuel IH]; intros i acc Hfuel; cbn [oak_batches]; fold p;
    destruct (Nat.ltb_spec i (length p)) as [Hlt | Hge].
  - lia.
  - apply returns_with_ret. exists []. rewrite app_nil_r, skipn_all2 by lia.
    split; [reflexivity | constructor].
  - apply returns_with_bind
      with (P := Forall2 P (firstn b (skipn i p))).
    { apply returns_with_promise_all. intros a Ha. apply Hagent.
      fold p. rewrite <- (firstn_skipn i p). apply in_or_app. right.
      rewrite <- (firstn_skipn b (skipn i p)). apply in_or_app. now left. }
    intros ys1 Hys1.
    eapply returns_with_weaken.
    { apply (IH (i + b)%nat (acc ++ ys1)). assert (1 <= b)%nat by (subst b; lia). nia. }
    cbn beta. intros r (ys2 & -> & Hys2).
    exists (ys1 ++ ys2). rewrite app_assoc. split; [reflexivity|].
    rewrite <- (firstn_skipn b (skipn i p)). apply Forall2_app; [assumption|].
    rewrite skipn_skipn. now rewrite (Nat.add_comm b i).
  - apply returns_with_ret. exists []. rewrite app_nil_r, skipn_all2 by lia.
    split; [reflexivity | constructor].
Qed.

Lemma executeOakCycle_slots (P : IMetaAgent -> IMetaAgent -> Prop) :
  (forall a, In a (population this) ->
             returns_with (executeAgentOakCycle E this a) (P a)) ->
  returns_with (executeOakCycle E this) (Forall2 P (population this)).
Proof.
  intros Hagent. unfold executeOakCycle.
  eapply returns_with_weaken.
  - apply oak_batches_slots; [exact Hagent|].
    destruct (population this) as [|a0 p0]; [cbn; lia|].
    assert (1 <= Nat.min 10 (length (a0 :: p0)))%nat by (cbn [length]; lia). nia.
  - cbn beta. intros r (ys & -> & Hys). exact Hys.
Qed.
End Operators.

Lemma Forall2_Forall_r {A B} (P : A -> B -> Prop) (Q : B -> Prop) l l' :
  Forall2 P l l' -> (forall a x, In a l -> P a x -> Q x) -> Forall Q l'.
Proof.
  induction 1 as [|a x l l' Hax _ IH]; intros HQ; constructor.
  - apply (HQ a x); [now left | assumption].
  - apply IH. intros a' x' Ha'. apply HQ. now right.
Qed.

Lemma Forall2_count_occ (X : IMetaAgent) l l' :
  Forall2 (fun a x => x = X <-> a = X) l l' ->
  count_occ IMetaAgent_eq_dec l' X = count_occ IMetaAgent_eq_dec l X.
Proof.
  induction 1 as [|a x l l' Hax _ IH]; [reflexivity|]. cbn.
  destruct (IMetaAgent_eq_dec x X) as [Hx|Hx], (IMetaAgent_eq_dec a X) as [Ha|Ha];
    try tauto; now rewrite IH.
Qed.

(** ** The Oak cycle: which references it returns *)

Section CycleClaims.
Variable E : Env.
Variable this : OakEvolutionLoop.

(** When the Oak steps throw, the agent's cycle returns the agent in
    the state the failing call left: nothing else was run. *)
Lemma executeAgentOakCycle_catches a w e w1 :
  eight_steps E a w = (Throw e, w1) ->
  executeAgentOakCycle E this a w = (Ok a, w1).
Proof.
  intros H. unfold executeAgentOakCycle, try_catch, bind. now rewrite H.
Qed.

Lemma cycle_of_throwing_agent i :
  every_call_throws E i ->
  returns_with (executeAgentOakCycle E this (agent i)) (fun x => x = agent i).
Proof.
  intros [Hstep _]. apply returns_with_try_catch.
  - apply settles_bind; [apply settles_eight_steps|].
    intros _. apply returns_settles.
    exact (returns_with_returns (applyEvolution_result E this (agent i))).
  - intros w x w' H. exfalso.
    apply bind_Ok_inv in H. destruct H as (u & w1 & H & _).
    unfold eight_steps in H.
    apply bind_Ok_inv in H. destruct H as (u' & w2 & H & _).
    cbn in H. unfold settle in H.
    destruct (Hstep learnPoliciesAndValues w) as (e & w3 & Hrej).
    rewrite Hrej in H. discriminate.
  - intros e. now apply returns_with_ret.
Qed.

Lemma throwing_agent_cannot_learn i :
  every_call_throws E i -> ~ can_learn E (agent i).
Proof.
  intros [_ Hlearn] (x & w & w' & H). cbn in H. unfold settle in H.
  destruct (Hlearn x w) as (e & w1 & Hrej). rewrite Hrej in H. discriminate.
Qed.

Lemma cycle_slot_of_throwing_agent i a :
  every_call_throws E i ->
  returns_with (executeAgentOakCycle E this a)
    (fun x => x = agent i <-> a = agent i).
Proof.
  intros Hi. destruct (IMetaAgent_eq_dec a (agent i)) as [-> | Hne].
  - eapply returns_with_weaken; [now apply cycle_of_throwing_agent|].
    cbn beta. intros x ->. tauto.
  - eapply returns_with_weaken; [apply executeAgentOakCycle_result|].
    cbn beta. intros x [-> | [_ Hlearn]]; [tauto|].
    split; [|tauto]. intros ->. now apply throwing_agent_cannot_learn in Hlearn.
Qed.
End CycleClaims.

(** C10: every element of the array produced by one Oak cycle is a
    member of the population the cycle started from, slot for slot as
    many as before; [mutateAgent] returns the agent it was given and
    [crossoverAgents] returns one of its two parents, so no agent is
    created.  A slot may however come to hold another member: in the
    run given last, the slots of agents 0 and 1 end up holding agent 2. *)
Theorem oak_cycle_returns_population_members :
  (forall E this,
     returns_with (executeOakCycle E this)
       (fun post =>
          length post = length (population this) /\
          Forall (fun x => In x (population this)) post)) /\
  (forall E a, returns_with (mutateAgent E a) (fun x => x = a)) /\
  (forall E parent1 parent2,
     returns_with (crossoverAgents E parent1 parent2)
       (fun x => x = parent1 \/ x = parent2)) /\
  (let c := {| populationSize := 3; generationLimit := 1; mutationRate := 0;
               crossoverRate := 1; eliteSize := 1; evaluationTimeout := 10;
               convergenceThreshold := 0; diversityWeight := 0 |} in
   fst (executeOakCycle Sim.healthy
          (set_population [agent 0; agent 1; agent 2] (new_loop c)) Sim.start)
   = Ok [agent 2; agent 2; agent 2]).
Proof.
  split; [|split; [|split]].
  - intros E this. eapply returns_with_weaken.
    + apply executeOakCycle_slots with (P := cycle_result E this).
      intros a _. apply executeAgentOakCycle_result.
    + cbn beta. intros post Hpost. split.
      * symmetry. exact (Forall2_length Hpost).
      * eapply Forall2_Forall_r; [exact Hpost|].
        intros a x Ha [-> | [Hx _]]; assumption.
  - intros E a. apply mutateAgent_same.
  - intros E parent1 parent2. eapply returns_with_weaken.
    + apply crossoverAgents_parent.
    + cbn beta. tauto.
  - vm_compute. reflexivity.
Qed.

(** C7: an agent whose every capability call throws, [learn] included,
    keeps its place through one Oak cycle: slot by slot, the new array
    holds that agent exactly where the population held it, so it occurs
    as often as before (once, when it was there once), never dropped
    from its slot and never put into the slot of another agent.  A
    crossover that takes it as second parent returns the first parent. *)
Theorem throwing_agent_keeps_its_slot (E : Env) (this : OakEvolutionLoop) (i : nat) :
  every_call_throws E i ->
  returns_with (executeOakCycle E this)
    (fun post =>
       Forall2 (fun a x => x = agent i <-> a = agent i) (population this) post /\
       count_occ IMetaAgent_eq_dec post (agent i)
       = count_occ IMetaAgent_eq_dec (population this) (agent i) /\
       (count_occ IMetaAgent_eq_dec (population this) (agent i) = 1%nat ->
        count_occ IMetaAgent_eq_dec post (agent i) = 1%nat)) /\
  (forall parent1,
     returns_with (crossoverAgents E parent1 (agent i)) (fun x => x = parent1)).
Proof.
  intros Hi. split.
  - eapply returns_with_weaken.
    + apply executeOakCycle_slots
        with (P := fun a x => x = agent i <-> a = agent i).
      intros a _. now apply cycle_slot_of_throwing_agent.
    + cbn beta. intros post Hpost.
      pose proof (Forall2_count_occ Hpost) as Hcount.
      split; [assumption | split; [assumption | congruence]].
  - intros parent1. eapply returns_with_weaken; [apply crossoverAgents_parent|].
    cbn beta. intros x [-> | [_ Hlearn]]; [reflexivity|].
    now apply throwing_agent_cannot_learn in Hlearn.
Qed.

Lemma throwing_agent_keeps_its_slot_witness :
  let this := set_population [agent 0; agent 1; agent 2] (new_loop Sim.eager) in
  every_call_throws (Sim.broken 1) 1 /\
  returns_with (executeOakCycle (Sim.broken 1) this)
    (fun post =>
       Forall2 (fun a x => x = agent 1 <-> a = agent 1) (population this) post /\
       count_occ IMetaAgent_eq_dec post (agent 1)
       = count_occ IMetaAgent_eq_dec (population this) (agent 1) /\
       (count_occ IMetaAgent_eq_dec (population this) (agent 1) = 1%nat ->
        count_occ IMetaAgent_eq_dec post (agent 1) = 1%nat)).
Proof.
  intros this.
  assert (H : every_call_throws (Sim.broken 1) 1).
  { split; intros x w; exists (AgentError 1), w; reflexivity. }
  split; [exact H|].
  exact (proj1 (@throwing_agent_keeps_its_slot (Sim.broken 1) this 1%nat H)).
Defined.

(** C2, as the code has it: when one of the eight Oak steps of an agent
    throws, the exception is caught in that agent's own cycle and the
    agent itself is returned for its slot, in the very state the failing
    call left behind: the evolutionary operators are skipped for it, its
    cycle draws no random number and calls no [learn]. *)
Theorem failed_step_returns_agent_without_operators
    (E : Env) (this : OakEvolutionLoop) (a : IMetaAgent) (w w1 : World E) (e : error) :
  eight_steps E a w = (Throw e, w1) ->
  executeAgentOakCycle E this a w = (Ok a, w1).
Proof.
  intros H. unfold executeAgentOakCycle, try_catch, bind. now rewrite H.
Qed.

Lemma failed_step_returns_agent_without_operators_witness :
  let E := Sim.env (Sim.plan_rejects 0) Sim.never Sim.never Sim.never in
  let this := set_population [agent 0; agent 1] (new_loop Sim.eager) in
  eight_steps E (agent 0) Sim.start = (Throw (AgentError 0), Sim.start) /\
  executeAgentOakCycle E this (agent 0) Sim.start = (Ok (agent 0), Sim.start).
Proof.
  intros E this.
  assert (H : eight_steps E (agent 0) Sim.start = (Throw (AgentError 0), Sim.start))
    by reflexivity.
  split; [exact H|].
  exact (@failed_step_returns_agent_without_operators E this (agent 0) Sim.start Sim.start
           (AgentError 0) H).
Defined.

(** C2 as stated fails: agent 0 rejects [plan]; with mutation and
    crossover at rate 1 the operator stage would call [learn], yet the
    cycle of agent 0 ends with no [learn] call and no draw. *)
Lemma failed_step_is_not_passed_to_operators :
  let E := Sim.env (Sim.plan_rejects 0) Sim.never Sim.never Sim.never in
  let this := set_population [agent 0; agent 1] (new_loop Sim.eager) in
  eight_steps E (agent 0) Sim.start = (Throw (AgentError 0), Sim.start) /\
  Sim.learned (snd (executeAgentOakCycle E this (agent 0) Sim.start)) = [] /\
  Sim.learned (snd (applyEvolution E this (agent 0) Sim.start)) <> [] /\
  executeAgentOakCycle E this (agent 0) Sim.start
  <> applyEvolution E this (agent 0) Sim.start.
Proof.
  intros E this.
  assert (Hlearned : Sim.learned (snd (applyEvolution E this (agent 0) Sim.start)) <> []).
  { vm_compute. discriminate. }
  repeat split; try reflexivity; try assumption.
  intros Heq. apply Hlearned. rewrite <- Heq. reflexivity.
Qed.

(** ** Sorting by descending fitness *)

Section SortFacts.
Variable A : Type.
Implicit Types (x y : Q * A) (l : list (Q * A)).

Lemma insert_desc_perm x l : Permutation (insert_desc x l) (x :: l).
Proof.
  induction l as [|y l IH]; cbn; [reflexivity|].
  destruct (Qltb (fst x) (fst y)); [|reflexivity].
  rewrite IH. apply perm_swap.
Qed.

Lemma sort_desc_perm l : Permutation (sort_desc l) l.
Proof.
  induction l as [|x l IH]; cbn; [reflexivity|].
  rewrite insert_desc_perm. now constructor.
Qed.

Lemma sort_desc_length l : length (sort_desc l) = length l.
Proof. apply Permutation_length, sort_desc_perm. Qed.
End SortFacts.

Lemma insert_desc_sorted (x : Q * nat) l :
  StronglySorted before l ->
  Forall (fun y => (snd x < snd y)%nat) l ->
  StronglySorted before (insert_desc x l).
Proof.
  induction l as [|y l IH]; intros Hs Hidx; cbn.
  - repeat constructor.
  - apply StronglySorted_inv in Hs. destruct Hs as [Hs Hy].
    apply Forall_cons_iff in Hidx. destruct Hidx as [Hxy Hidx].
    destruct (Qltb (fst x) (fst y)) eqn:Hlt.
    + apply Qltb_lt in Hlt. constructor; [now apply IH|].
      eapply Permutation_Forall; [symmetry; apply insert_desc_perm|].
      constructor; [now left | assumption].
    + apply Qltb_ge in Hlt. constructor; [now constructor|].
      assert (Hle : forall z, fst z <= fst x -> (snd x < snd z)%nat -> before x z).
      { intros z Hz Hi. destruct (Qle_lt_or_eq _ _ Hz) as [H|H]; [now left|].
        right. split; [now symmetry | assumption]. }
      constructor; [now apply Hle|].
      rewrite Forall_forall in *. intros z Hz. apply Hle; [|now apply Hidx].
      destruct (Hy z Hz) as [H | [H _]].
      * apply Qlt_le_weak. eapply Qlt_le_trans; eassumption.
      * now rewrite <- H.
Qed.

Lemma with_index_snd fs i : map snd (with_index i fs) = seq i (length fs).
Proof.
  revert i. induction fs as [|f fs IH]; intros i; cbn; [reflexivity|].
  now rewrite IH.
Qed.

Lemma with_index_score fs i x :
  In x (with_index i fs) -> (i <= snd x)%nat /\ fst x = nth (snd x - i) fs 0.
Proof.
  revert i. induction fs as [|f fs IH]; intros i; cbn; [tauto|].
  intros [<- | Hin]; cbn.
  - rewrite Nat.sub_diag. split; [lia | reflexivity].
  - destruct (IH _ Hin) as [Hle Heq]. split; [lia|].
    rewrite Heq. replace (snd x - i)%nat with (S (snd x - S i)) by lia. reflexivity.
Qed.

Lemma sort_with_index_sorted fs i :
  StronglySorted before (sort_desc (with_index i fs)).
Proof.
  revert i. induction fs as [|f fs IH]; intros i; cbn; [constructor|].
  apply insert_desc_sorted; [apply IH|].
  eapply Permutation_Forall; [symmetry; apply sort_desc_perm|].
  apply Forall_forall. intros x Hx. apply with_index_score in Hx. cbn. lia.
Qed.

Lemma sortedIndices_perm fs : Permutation (sortedIndices fs) (seq 0 (length fs)).
Proof.
  unfold sortedIndices. rewrite <- with_index_snd.
  apply Permutation_map, sort_desc_perm.
Qed.

Lemma sortedIndices_length fs : length (sortedIndices fs) = length fs.
Proof.
  rewrite (Permutation_length (sortedIndices_perm fs)). apply length_seq.
Qed.

Lemma StronglySorted_map {X Y} (R : X -> X -> Prop) (R' : Y -> Y -> Prop)
    (g : X -> Y) l :
  (forall x y, In x l -> In y l -> R x y -> R' (g x) (g y)) ->
  StronglySorted R l -> StronglySorted R' (map g l).
Proof.
  induction l as [|x l IH]; intros Hg Hs; cbn; [constructor|].
  apply StronglySorted_inv in Hs. destruct Hs as [Hs Hx].
  constructor.
  - apply IH; [|assumption]. intros y z Hy Hz. apply Hg; now right.
  - rewrite Forall_forall in *. intros y' Hy'.
    apply in_map_iff in Hy'. destruct Hy' as (y & <- & Hy).
    apply Hg; [now left | now right | now apply Hx].
Qed.

Lemma sortedIndices_sorted fs : StronglySorted (ranks_before fs) (sortedIndices fs).
Proof.
  unfold sortedIndices.
  apply StronglySorted_map with (R := before); [|apply sort_with_index_sorted].
  intros x y Hx Hy Hxy.
  apply (Permutation_in _ (sort_desc_perm _)) in Hx, Hy.
  apply with_index_score in Hx, Hy. destruct Hx as [_ Hx], Hy as [_ Hy].
  rewrite Nat.sub_0_r in Hx, Hy. unfold ranks_before. rewrite <- Hx, <- Hy.
  exact Hxy.
Qed.

Lemma map_nth_seq {X} (l : list X) d k :
  (k <= length l)%nat -> map (fun i => nth i l d) (seq 0 k) = firstn k l.
Proof.
  revert k. induction l as [|x l IH]; intros k Hk.
  - cbn in Hk. replace k with 0%nat by lia. reflexivity.
  - destruct k as [|k]; [reflexivity|]. cbn [seq map firstn nth]. f_equal.
    rewrite <- seq_shift, map_map. apply IH. cbn in Hk. lia.
Qed.

(** ** Selection of the next generation *)

Section Selection.
Variable E : Env.
Variable this : OakEvolutionLoop.
Variable p : list IMetaAgent.
Variable fitnessScores : list Q.

Lemma elite_firstn :
  elite this p fitnessScores
  = map (fun idx => nth idx p undefined)
        (firstn (eliteSize (config this)) (sortedIndices fitnessScores)).
Proof.
  unfold elite. set (sorted := sortedIndices fitnessScores).
  rewrite <- (map_map (fun i => nth i sorted 0%nat) (fun idx => nth idx p undefined)).
  rewrite map_nth_seq by apply Nat.le_min_r.
  rewrite <- firstn_firstn. now rewrite firstn_all.
Qed.

Lemma elite_length :
  length (elite this p fitnessScores)
  = Nat.min (eliteSize (config this)) (length fitnessScores).
Proof.
  unfold elite. now rewrite length_map, length_seq, sortedIndices_length.
Qed.

Lemma tournamentSelection_returns : returns (tournamentSelection E p fitnessScores).
Proof.
  apply returns_with_returns with (P := fun _ => True).
  unfold tournamentSelection.
  apply returns_with_bind
    with (P := fun t : list (Q * IMetaAgent) =>
                 length t = Nat.max 2 (length p / 10)).
  - apply for_range_returns. intros _.
    apply returns_with_returns with (P := fun _ => True).
    apply returns_with_bind with (P := fun _ => True).
    + apply returns_returns_with, Math_random_returns.
    + intros r _. now apply returns_with_ret.
  - intros t Ht. pose proof (sort_desc_length t) as Hlen.
    destruct (sort_desc t) as [|[f a] rest].
    + cbn in Hlen. lia.
    + now apply returns_with_ret.
Qed.

(** The [while] loop pushes until the array has [populationSize]
    elements, and leaves what it found in place. *)
Lemma tournament_fill_length fuel : forall next,
  (populationSize (config this) - length next <= fuel)%nat ->
  returns_with (tournament_fill E fuel this p fitnessScores next)
    (fun r => length r = Nat.max (length next) (populationSize (config this)) /\
              firstn (length next) r = next).
Proof.
  induction fuel as [|fuel IH]; intros next Hfuel; cbn [tournament_fill];
    destruct (Nat.ltb_spec (length next) (populationSize (config this)))
      as [Hlt | Hge].
  - lia.
  - apply returns_with_ret. split; [lia | apply firstn_all].
  - apply returns_with_bind with (P := fun _ => True).
    { apply returns_returns_with, tournamentSelection_returns. }
    intros selected _. eapply returns_with_weaken.
    { apply (IH (next ++ [selected])). rewrite length_app. cbn. lia. }
    cbn beta. rewrite length_app. cbn [length]. intros r [Hlen Hfirst]. split; [lia|].
    assert (Hcut : firstn (length next) r
                   = firstn (length next) (firstn (length next + 1) r)).
    { rewrite firstn_firstn. f_equal. lia. }
    rewrite Hcut, Hfirst, firstn_app, Nat.sub_diag, firstn_all. cbn.
    apply app_nil_r.
  - apply returns_with_ret. split; [lia | apply firstn_all].
Qed.

Lemma selectNextGeneration_shape :
  returns_with (selectNextGeneration E this p fitnessScores)
    (fun next =>
       length next
       = Nat.max (Nat.min (eliteSize (config this)) (length fitnessScores))
                 (populationSize (config this)) /\
       firstn (Nat.min (eliteSize (config this)) (length fitnessScores)) next
       = elite this p fitnessScores).
Proof.
  unfold selectNextGeneration. rewrite <- elite_length.
  apply tournament_fill_length. lia.
Qed.
End Selection.

(** C5, as the code has it: elitism copies
    [min(eliteSize, number of evaluated agents)] agents, which is
    [min(eliteSize, populationSize)] whenever [populationSize] agents
    were evaluated; they are the agents at the first indices of the
    descending order of the scores, equal scores in the order of their
    indices; they open the array that selection returns from any state of
    the random source. *)
Theorem elite_are_top_scores (E : Env) (this : OakEvolutionLoop)
    (p : list IMetaAgent) (fitnessScores : list Q) :
  length (elite this p fitnessScores)
  = Nat.min (eliteSize (config this)) (length fitnessScores) /\
  (length fitnessScores = populationSize (config this) ->
   length (elite this p fitnessScores)
   = Nat.min (eliteSize (config this)) (populationSize (config this))) /\
  elite this p fitnessScores
  = map (fun idx => nth idx p undefined)
        (firstn (eliteSize (config this)) (sortedIndices fitnessScores)) /\
  Permutation (sortedIndices fitnessScores) (seq 0 (length fitnessScores)) /\
  StronglySorted (ranks_before fitnessScores) (sortedIndices fitnessScores) /\
  returns_with (selectNextGeneration E this p fitnessScores)
    (fun next =>
       firstn (length (elite this p fitnessScores)) next
       = elite this p fitnessScores).
Proof.
  pose proof (elite_length this p fitnessScores) as Hlen.
  repeat split.
  - exact Hlen.
  - intros Hsize. now rewrite Hlen, Hsize.
  - apply elite_firstn.
  - apply sortedIndices_perm.
  - apply sortedIndices_sorted.
  - rewrite Hlen. eapply returns_with_weaken; [apply selectNextGeneration_shape|].
    cbn beta. tauto.
Qed.

Lemma elite_are_top_scores_witness :
  let this := new_loop Sim.eager in
  let fitnessScores := [1 # 3; 1 # 2; 1 # 2] in
  let p := [agent 0; agent 1; agent 2] in
  length fitnessScores = populationSize (config this) /\
  length (elite this p fitnessScores)
  = Nat.min (eliteSize (config this)) (populationSize (config this)).
Proof.
  intros this fitnessScores p.
  assert (H : length fitnessScores = populationSize (config this)) by reflexivity.
  split; [exact H|].
  exact (proj1 (proj2 (@elite_are_top_scores Sim.healthy this p fitnessScores)) H).
Defined.

(** C5 as stated fails in a first generation: [run] starts from the
    caller's array, whatever its length.  With [populationSize = 4],
    [eliteSize = 3] and two agents supplied, two agents are carried over,
    not [min(3, 4) = 3]. *)
Lemma elite_count_follows_evaluated_population :
  let c := {| populationSize := 4; generationLimit := 1; mutationRate := 0;
              crossoverRate := 0; eliteSize := 3; evaluationTimeout := 1;
              convergenceThreshold := 0; diversityWeight := 0 |} in
  let this := set_population [agent 0; agent 1] (new_loop c) in
  length (elite this (population this) [1 # 2; 1 # 3]) = 2%nat /\
  Nat.min (eliteSize (config this)) (populationSize (config this)) = 3%nat /\
  length (elite this (population this) [1 # 2; 1 # 3])
  <> Nat.min (eliteSize (config this)) (populationSize (config this)).
Proof.
  cbn. repeat split. discriminate.
Qed.

(** ** Fitness evaluation *)

Lemma bind_assoc {S A B C} (m : SE S A) (k1 : A -> SE S B) (k2 : B -> SE S C) s :
  bind (bind m k1) k2 s = bind m (fun a => bind (k1 a) k2) s.
Proof.
  unfold bind. destruct (m s) as [[a| e |] s1]; reflexivity.
Qed.

Lemma bind_ext {S A B} (m : SE S A) (k1 k2 : A -> SE S B) s :
  (forall a s1, k1 a s1 = k2 a s1) -> bind m k1 s = bind m k2 s.
Proof.
  intros H. unfold bind. destruct (m s) as [[a| e |] s1]; auto.
Qed.

Section Evaluation.
Variable E : Env.
Variable this : OakEvolutionLoop.

Ltac draws :=
  repeat (apply returns_with_bind with (P := fun _ => True);
          [apply returns_returns_with, Math_random_returns | intros ? _]).

Lemma generateRandomState_returns : returns (generateRandomState E).
Proof.
  apply returns_with_returns with (P := fun _ => True).
  unfold generateRandomState.
  apply returns_with_bind with (P := fun _ => True).
  { intros w. now exists (date_now E w), w. }
  intros now _. draws. now apply returns_with_ret.
Qed.

Lemma simulateEnvironmentStep_returns s a : returns (simulateEnvironmentStep E s a).
Proof.
  apply returns_with_returns with (P := fun _ => True).
  unfold simulateEnvironmentStep. draws. now apply returns_with_ret.
Qed.

Lemma evaluation_loop_settles a remaining :
  forall step total s, settles (evaluation_loop E this a remaining step total s).
Proof.
  induction remaining as [|remaining IH]; intros step total s; cbn.
  - apply settles_ret.
  - apply settles_bind; [apply settles_act|]. intros action.
    apply settles_bind.
    { apply returns_settles, simulateEnvironmentStep_returns. }
    intros [nextState reward]. apply settles_bind; [apply settles_learn|].
    intros _. apply IH.
Qed.

Lemma evaluation_body_settles a : settles (evaluation_body E this a).
Proof.
  unfold evaluation_body.
  apply settles_bind; [apply returns_settles, generateRandomState_returns|].
  intros s. apply settles_bind; [apply evaluation_loop_settles|].
  intros after. apply returns_settles.
  apply returns_with_returns with (P := fun _ => True).
  unfold calculateComplexityBonus, calculateDiversityBonus.
  apply returns_with_bind with (P := fun _ => True).
  { draws. now apply returns_with_ret. }
  intros c _.
  apply returns_with_bind with (P := fun _ => True).
  { draws. now apply returns_with_ret. }
  intros d _. now apply returns_with_ret.
Qed.

Lemma evaluateAgent_returns a : returns (evaluateAgent E this a).
Proof.
  apply returns_try_catch; [apply evaluation_body_settles|].
  intros e. apply returns_ret.
Qed.

(** The first [k] steps of the loop, then the others. *)
Lemma evaluation_loop_split a k r :
  forall step total s w,
    evaluation_loop E this a (k + r) step total s w
    = bind (evaluation_loop E this a k step total s)
        (fun after => evaluation_loop E this a r (step + k) (fst after) (snd after)) w.
Proof.
  induction k as [|k IH]; intros step total s w.
  - cbn. now rewrite Nat.add_0_r.
  - cbn [Nat.add evaluation_loop].
    rewrite bind_assoc. apply bind_ext. intros action w1.
    rewrite bind_assoc. apply bind_ext. intros [nextState reward] w2.
    rewrite bind_assoc. apply bind_ext. intros _ w3.
    rewrite IH. now rewrite Nat.add_succ_comm.
Qed.

Lemma evaluateAgent_catches a w e w1 :
  evaluation_body E this a w = (Throw e, w1) ->
  evaluateAgent E this a w = (Ok (- (1)), w1).
Proof.
  intros H. unfold evaluateAgent, try_catch. now rewrite H.
Qed.

Lemma pending_act_times_out i s w w' :
  agent_act E i s (evaluationTimeout (config this)) w = (Pending, w') ->
  act_or_timeout E (evaluationTimeout (config this)) (agent i) s w
  = (Throw EvaluationTimeout, w').
Proof. intros H. cbn. now rewrite H. Qed.

Lemma evaluation_times_out i k w s0 w1 total sk wk w' :
  (k < evaluationSteps)%nat ->
  generateRandomState E w = (Ok s0, w1) ->
  evaluation_loop E this (agent i) k 0 0 s0 w1 = (Ok (total, sk), wk) ->
  agent_act E i sk (evaluationTimeout (config this)) wk = (Pending, w') ->
  evaluation_body E this (agent i) w = (Throw EvaluationTimeout, w').
Proof.
  intros Hk Hs0 Hloop Hact. unfold evaluation_body, bind at 1. rewrite Hs0.
  unfold bind at 1.
  replace evaluationSteps with (k + S (evaluationSteps - S k))%nat at 1 by lia.
  rewrite evaluation_loop_split. unfold bind at 1. rewrite Hloop.
  cbn [evaluation_loop fst snd]. unfold bind at 1.
  now rewrite (pending_act_times_out _ _ _ Hact).
Qed.
End Evaluation.

(** C6: [evaluateAgent] always returns a score and never throws; when
    its [try] block throws, for whatever reason, the score is -1; and
    that is what happens when, at some step [k] of the ten, the agent's
    [act] call has not settled when the timer fires. *)
Theorem failed_evaluation_scores_minus_one (E : Env) (this : OakEvolutionLoop)
    (a : IMetaAgent) :
  returns (evaluateAgent E this a) /\
  (forall w e w1,
     evaluation_body E this a w = (Throw e, w1) ->
     evaluateAgent E this a w = (Ok (- (1)), w1)) /\
  (forall i k w s0 w1 total sk wk w',
     a = agent i ->
     (k < evaluationSteps)%nat ->
     generateRandomState E w = (Ok s0, w1) ->
     evaluation_loop E this a k 0 0 s0 w1 = (Ok (total, sk), wk) ->
     agent_act E i sk (evaluationTimeout (config this)) wk = (Pending, w') ->
     evaluateAgent E this a w = (Ok (- (1)), w')).
Proof.
  split; [apply evaluateAgent_returns | split].
  - intros w e w1. apply evaluateAgent_catches.
  - intros i k w s0 w1 total sk wk w' -> Hk Hs0 Hloop Hact.
    apply evaluateAgent_catches with (e := EvaluationTimeout).
    eapply evaluation_times_out; eassumption.
Qed.

Lemma failed_evaluation_scores_minus_one_witness :
  let E := Sim.hanging 0 in
  let this := new_loop Sim.eager in
  evaluation_body E this (agent 0) Sim.start
  = (Throw EvaluationTimeout, snd (generateRandomState E Sim.start)) /\
  evaluateAgent E this (agent 0) Sim.start
  = (Ok (- (1)), snd (generateRandomState E Sim.start)).
Proof.
  intros E this.
  assert (H : evaluation_body E this (agent 0) Sim.start
              = (Throw EvaluationTimeout, snd (generateRandomState E Sim.start)))
    by (vm_compute; reflexivity).
  split; [exact H|].
  exact (proj1 (proj2 (@failed_evaluation_scores_minus_one E this (agent 0)))
           Sim.start EvaluationTimeout _ H).
Defined.

(** ** The driver *)

Lemma executeOakCycle_returns (E : Env) (this : OakEvolutionLoop) :
  returns_with (executeOakCycle E this)
    (fun post => length post = length (population this) /\
                 Forall (fun x => In x (population this)) post).
Proof.
  eapply returns_with_weaken.
  - apply executeOakCycle_slots with (P := cycle_result E this).
    intros a _. apply executeAgentOakCycle_result.
  - cbn beta. intros post Hpost. split.
    + symmetry. exact (Forall2_length Hpost).
    + eapply Forall2_Forall_r; [exact Hpost|].
      intros a x Ha [-> | [Hx _]]; assumption.
Qed.

Lemma evaluatePopulation_returns (E : Env) (this : OakEvolutionLoop) p :
  returns_with (evaluatePopulation E this p) (fun fs => length fs = length p).
Proof.
  eapply returns_with_weaken.
  - apply returns_with_promise_all with (P := fun _ _ => True).
    intros a _. apply returns_returns_with, evaluateAgent_returns.
  - cbn beta. intros fs Hfs. symmetry. exact (Forall2_length Hfs).
Qed.

Section StopIf.
Variables (b : bool) (this : OakEvolutionLoop).

Lemma config_stop_if : config (if b then stop this else this) = config this.
Proof. now destruct b. Qed.

Lemma population_stop_if : population (if b then stop this else this) = population this.
Proof. now destruct b. Qed.

Lemma generation_stop_if : generation (if b then stop this else this) = generation this.
Proof. now destruct b. Qed.

Lemma bestAgent_stop_if : bestAgent (if b then stop this else this) = bestAgent this.
Proof. now destruct b. Qed.

Lemma bestFitness_stop_if : bestFitness (if b then stop this else this) = bestFitness this.
Proof. now destruct b. Qed.

Lemma metrics_stop_if : metrics (if b then stop this else this) = metrics this.
Proof. now destruct b. Qed.

Lemma isRunning_stop_if :
  isRunning (if b then stop this else this) = isRunning this && negb b.
Proof. destruct b; cbn; [now rewrite andb_false_r | now rewrite andb_true_r]. Qed.

Lemma log_stop_if :
  log (if b then stop this else this) = log this ++ (if b then [stoppedLog] else []).
Proof. destruct b; cbn; [reflexivity | now rewrite app_nil_r]. Qed.
End StopIf.

Lemma In_stop_entry (b : bool) (ev : Event) :
  In ev (if b then [stoppedLog] else []) -> ev = stoppedLog /\ b = true.
Proof. destruct b; cbn; [intros [<- | []]; now split | tauto]. Qed.

Section Steps.
Variable E : Env.

Local Abbreviation M := (SE (World E)).
Local Abbreviation RM := (SE (OakEvolutionLoop * World E)).

Variables A B : Type.
Implicit Types (this : OakEvolutionLoop) (w : World E).

Lemma step_lift (m : OakEvolutionLoop -> M A) (k : A -> RM B) this w a w' :
  m this w = (Ok a, w') ->
  bind (lift E m) k (this, w) = k a (this, w').
Proof. intros H. unfold bind, lift. cbn [fst snd]. now rewrite H. Qed.

Lemma step_read (f : OakEvolutionLoop -> A) (k : A -> RM B) this w :
  bind (read E f) k (this, w) = k (f this) (this, w).
Proof. reflexivity. Qed.

Lemma step_update (f : OakEvolutionLoop -> OakEvolutionLoop) (k : unit -> RM B) this w :
  bind (update E f) k (this, w) = k tt (f this, w).
Proof. reflexivity. Qed.

Lemma step_suspend (k : unit -> RM B) this w :
  bind (suspend E) k (this, w)
  = k tt (if fst (external_calls E w) then stop this else this,
          snd (external_calls E w)).
Proof.
  unfold bind, suspend. cbn [fst snd]. now destruct (external_calls E w).
Qed.

Lemma step_console_log (ev : Event) (k : unit -> RM B) this w :
  bind (console_log E ev) k (this, w) = k tt (write_log ev this, w).
Proof. reflexivity. Qed.

Lemma step_emit (ev : Event) (k : unit -> RM B) this w :
  bind (emit E ev) k (this, w)
  = k tt (if fst (external_calls E w) then stop (write_log ev this)
          else write_log ev this,
          snd (external_calls E w)).
Proof.
  unfold emit. rewrite bind_assoc, step_update. apply step_suspend.
Qed.

Lemma step_await (m : RM A) (k : A -> RM B) s :
  bind (await E m) k s = bind m (fun x => bind (suspend E) (fun _ => k x)) s.
Proof.
  unfold await. rewrite bind_assoc. apply bind_ext. intros x s1.
  rewrite bind_assoc. apply bind_ext. now intros [] s2.
Qed.
End Steps.

Lemma calculateMetrics_fields (E : Env) this this' fs runtime :
  generation this' = generation this ->
  metrics this' = metrics this ->
  calculateMetrics E this' fs runtime = calculateMetrics E this fs runtime.
Proof.
  intros Hg Hm. unfold calculateMetrics, calculateConvergenceRate.
  now rewrite Hg, Hm.
Qed.

Lemma step_ret {S A B} (a : A) (k : A -> SE S B) s : bind (ret a) k s = k a s.
Proof. reflexivity. Qed.

Ltac fields :=
  repeat (progress
    (cbn [config population generation bestAgent bestFitness metrics isRunning log
          write_log set_best set_population set_generation push_metrics set_isRunning];
     rewrite ?config_stop_if, ?population_stop_if, ?generation_stop_if,
       ?bestAgent_stop_if, ?bestFitness_stop_if, ?metrics_stop_if,
       ?isRunning_stop_if, ?log_stop_if)).

Ltac tail_cases H :=
  repeat match type of H with
         | In _ (_ ++ _) => apply in_app_or in H; destruct H as [H|H]
         | In _ (_ :: _) => destruct H as [H|H]
         | In _ (if ?b then _ else _) => destruct b
         | In _ [] => destruct H
         end.

Section Body.
Variable E : Env.

Lemma generation_body_outcome this w :
  exists newGeneration fitnessScores tail exit this' w',
    generation_body E (this, w) = (Ok exit, (this', w')) /\
    generation_outcome E this newGeneration fitnessScores tail exit this'.
Proof.
  unfold generation_body.
  erewrite step_lift by reflexivity.
  rewrite !step_read, !step_console_log, step_await.
  set (t0 := write_log oakCycleLog _).
  destruct (executeOakCycle_returns E t0 w) as (newGen & w1 & HnewGen & Hlen & Hmem).
  erewrite step_lift by exact HnewGen.
  rewrite step_suspend.
  destruct (external_calls E w1) as [b1 w2]. cbn [fst snd].
  set (t1 := if b1 then stop t0 else t0).
  rewrite step_await, bind_assoc.
  destruct (evaluatePopulation_returns E t1 newGen w2) as (scores & w3 & Hsc & Hscores).
  erewrite step_lift by exact Hsc.
  rewrite bind_assoc, step_console_log, step_ret, step_suspend.
  destruct (external_calls E w3) as [b2 w4]. cbn [fst snd].
  set (t2 := if b2 then stop _ else _).
  exists newGen, scores.
  rewrite step_await. unfold updateBestAgent. rewrite bind_assoc, step_read.
  assert (Hbest2 : bestFitness t2 = bestFitness this) by (subst t2 t1 t0; fields; reflexivity).
  rewrite Hbest2.
  set (c := gtb (max_list scores) (bestFitness this)).
  set (best := at_index newGen (indexOf (max_list scores) scores 0)).
  set (nb := newBestAgentEvent best (max_list scores)
               (generation (set_best best (max_list scores) t2))).
  destruct (external_calls E w4) as [b3 w4'] eqn:Hext.
  set (t3 := if c
             then if b3
                  then stop (write_log nb (set_best best (max_list scores) t2))
                  else write_log nb (set_best best (max_list scores) t2)
             else t2).
  set (w5 := if c then w4' else w4).
  match goal with
  | |- context [bind (if c then ?m1 else ?m2) ?k (t2, w4)] =>
      assert (Hupd : bind (if c then m1 else m2) k (t2, w4) = k tt (t3, w5))
        by (subst t3 w5; destruct c;
            [rewrite bind_assoc, step_update, bind_assoc, step_read, step_emit, Hext
            | rewrite step_ret];
            reflexivity)
  end.
  rewrite Hupd; clear Hupd.
  rewrite step_suspend.
  destruct (external_calls E w5) as [b4 w6]. cbn [fst snd].
  set (t4 := if b4 then stop t3 else t3).
  erewrite step_lift by reflexivity.
  rewrite step_read, step_update, step_emit.
  set (m := calculateMetrics E t4 scores _).
  destruct (external_calls E w6) as [b5 w7]. cbn [fst snd].
  set (t5 := if b5 then stop _ else _).
  rewrite step_read.
  set (stopped := fun b : bool => if b then [stoppedLog] else []).
  set (tail5 := stopped b1 ++ fitnessLog newGen scores :: stopped b2
                ++ (if c then nb :: stopped b3 else [])
                ++ stopped b4 ++ generationComplete m :: stopped b5).
  assert (Ht4 : generation t4 = generation this /\ metrics t4 = metrics this).
  { subst t4 t3 t2 t1 t0. destruct c; fields; now split. }
  assert (Hm : m = calculateMetrics E this scores (date_now E w6 - date_now E w)).
  { subst m. now apply calculateMetrics_fields. }
  assert (H5 : config t5 = config this /\ population t5 = population this /\
               generation t5 = generation this /\
               metrics t5 = metrics this ++ [m] /\
               bestFitness t5 = (if c then max_list scores else bestFitness this) /\
               bestAgent t5 = (if c then Some best else bestAgent this) /\
               log t5 = log this
                        ++ generationLog (generation this + 1)
                             (generationLimit (config this))
                        :: oakCycleLog :: tail5 /\
               (isRunning t5 = true ->
                isRunning this = true /\ ~ In stoppedLog tail5)).
  { destruct Ht4 as [Hg4 Hm4].
    subst tail5 stopped. clearbody m. subst t5 t4 t3 t2 t1 t0.
    destruct c; fields; rewrite <- ?app_assoc; cbn [app];
      (repeat split; try reflexivity);
      destruct b1, b2, b3, b4, b5, (isRunning this); cbn; intros; try discriminate;
      try tauto; intuition discriminate. }
  assert (Htail5 : ~ In oakCycleLog tail5 /\
                   (forall p fs, In (fitnessLog p fs) tail5
                                 <-> p = newGen /\ fs = scores) /\
                   In (generationComplete m) tail5).
  { subst tail5 stopped nb. clearbody m best c. cbn beta. split; [|split].
    - intros H. tail_cases H; discriminate.
    - intros p fs. split.
      + intros H. tail_cases H; try discriminate. inversion H. now split.
      + intros [-> ->]. apply in_or_app. right. now left.
    - apply in_or_app. right. right. apply in_or_app. right.
      apply in_or_app. right. apply in_or_app. right. now left. }
  destruct H5 as (Hc5 & Hp5 & Hg5 & Hm5 & Hbf5 & Hba5 & Hlog5 & Hrun5).
  destruct Htail5 as (Hcycle5 & Hfit5 & Hcomplete5).
  clearbody t5 tail5.
  destruct (hasConverged t5).
  - exists (tail5 ++ [convergedLog]), true, (write_log convergedLog t5), w7.
    split; [reflexivity|].
    constructor;
      cbn [log metrics bestFitness bestAgent config generation population
           isRunning write_log];
      try assumption.
    + split; [exact Hlen | exact Hscores].
    + rewrite Hlog5, <- app_assoc. reflexivity.
    + intros H. apply in_app_or in H. destruct H as [H|H]; [tauto|].
      tail_cases H; discriminate.
    + intros p fs. rewrite <- Hfit5. split.
      * intros H. apply in_app_or in H. destruct H as [H|H]; [assumption|].
        tail_cases H; discriminate.
      * intros H. apply in_or_app. now left.
    + exists m. apply in_or_app. now left.
    + intros Hrun. destruct (Hrun5 Hrun) as [Hthis Hnostop].
      split; [|assumption]. intros H. apply in_app_or in H.
      destruct H as [H|H]; [tauto|]. tail_cases H; discriminate.
    + eexists. rewrite Hm5, Hm. reflexivity.
    + discriminate.
  - rewrite step_await.
    destruct (selectNextGeneration_shape E t5 newGen scores w7)
      as (next & w8 & Hnext & Hnextlen & _).
    erewrite step_lift by exact Hnext.
    rewrite step_suspend.
    destruct (external_calls E w8) as [b6 w9]. cbn [fst snd].
    rewrite !step_update.
    eexists (tail5 ++ stopped b6), false, _, w9.
    split; [reflexivity|].
    constructor; fields; try assumption.
    + split; [exact Hlen | exact Hscores].
    + rewrite Hlog5, <- app_assoc. reflexivity.
    + intros H. apply in_app_or in H. destruct H as [H|H]; [tauto|].
      subst stopped. cbn beta in H. tail_cases H; discriminate.
    + intros p fs. rewrite <- Hfit5. split.
      * intros H. apply in_app_or in H. destruct H as [H|H]; [assumption|].
        subst stopped. cbn beta in H. tail_cases H; discriminate.
      * intros H. apply in_or_app. now left.
    + exists m. apply in_or_app. now left.
    + intros Hrun. apply andb_true_iff in Hrun. destruct Hrun as [Hrun Hb6].
      destruct (Hrun5 Hrun) as [Hthis Hnostop].
      split; [|assumption]. intros H. apply in_app_or in H.
      destruct H as [H|H]; [tauto|].
      destruct b6; [discriminate | destruct H].
    + eexists. rewrite Hm5, Hm. reflexivity.
    + now rewrite Hg5.
    + intros _. rewrite Hnextlen. now rewrite Hc5.
Qed.
End Body.

(** C4: under [eliteSize <= populationSize], next-generation selection
    always returns, and the array it returns has exactly [populationSize]
    elements, whatever population and scores it is given; so a turn of
    the loop of [run] that does not leave by [break] installs a
    population of exactly [populationSize] agents for the next
    generation, under the same configuration. *)
Theorem selectNextGeneration_length (E : Env) (this : OakEvolutionLoop) :
  (eliteSize (config this) <= populationSize (config this))%nat ->
  (forall p fitnessScores,
     returns_with (selectNextGeneration E this p fitnessScores)
       (fun next => length next = populationSize (config this))) /\
  (forall w,
     exists exit this' w',
       generation_body E (this, w) = (Ok exit, (this', w')) /\
       config this' = config this /\
       (exit = false ->
        generation this' = S (generation this) /\
        length (population this') = populationSize (config this))).
Proof.
  intros Hle. split.
  - intros p fitnessScores.
    eapply returns_with_weaken; [apply selectNextGeneration_shape|].
    cbn beta. intros next [Hlen _]. lia.
  - intros w.
    destruct (generation_body_outcome E this w)
      as (newGen & scores & tail & exit & this' & w' & Hbody & Hout).
    exists exit, this', w'. split; [exact Hbody|]. split; [apply (go_config Hout)|].
    intros ->. split; [apply (go_generation Hout)|].
    rewrite (go_population Hout eq_refl). lia.
Qed.

Lemma selectNextGeneration_length_witness :
  let this := new_loop Sim.eager in
  (eliteSize (config this) <= populationSize (config this))%nat /\
  returns_with
    (selectNextGeneration Sim.healthy this [agent 0; agent 1] [1 # 2; 1 # 3])
    (fun next => length next = populationSize (config this)).
Proof.
  intros this.
  assert (H : (eliteSize (config this) <= populationSize (config this))%nat)
    by (cbn; lia).
  split; [exact H|].
  exact (proj1 (@selectNextGeneration_length Sim.healthy this H)
           [agent 0; agent 1] [1 # 2; 1 # 3]).
Defined.

Section Loop.
Variable E : Env.

(** With [generationLimit - generation] turns of fuel the loop ends. *)
Lemma generations_loop_run fuel : forall this w,
  (generationLimit (config this) - generation this <= fuel)%nat ->
  exists delta this' w',
    generations E fuel (this, w) = (Ok tt, (this', w')) /\
    log this' = log this ++ delta /\
    loop_run E this delta this'.
Proof.
  induction fuel as [|fuel IH]; intros this w Hfuel.
  - exists [], this, w. cbn [generations fst].
    assert (Hc : loop_condition this = false).
    { unfold loop_condition. destruct (Nat.ltb_spec (generation this)
        (generationLimit (config this))); [lia | apply andb_false_r]. }
    fold (loop_condition this). rewrite Hc.
    repeat split; [now rewrite app_nil_r | now constructor].
  - cbn [generations fst]. fold (loop_condition this).
    destruct (loop_condition this) eqn:Hc.
    + destruct (generation_body_outcome E this w)
        as (newGen & scores & tail & exit & this1 & w1 & Hbody & Hout).
      unfold bind at 1. rewrite Hbody. destruct exit.
      * exists (generationLog (generation this + 1) (generationLimit (config this))
                :: oakCycleLog :: tail), this1, w1.
        repeat split; [apply (go_log Hout) | econstructor; eassumption].
      * destruct (IH this1 w1) as (delta & this2 & w2 & Hrest & Hlog & Hrun).
        { rewrite (go_config Hout), (go_generation Hout). lia. }
        exists (generationLog (generation this + 1) (generationLimit (config this))
                :: oakCycleLog :: tail ++ delta), this2, w2.
        repeat split; [exact Hrest | | econstructor; eassumption].
        rewrite Hlog, (go_log Hout), <- app_assoc. reflexivity.
    + exists [], this, w.
      repeat split; [now rewrite app_nil_r | now constructor].
Qed.
End Loop.

Section Run.
Variable E : Env.

(** [run] always returns: the tracked best agent, after the turns of
    the loop. *)
Lemma run_outcome initialPopulation this w :
  exists b0 delta this1 b1 w',
    run E initialPopulation (this, w)
    = (Ok (bestAgent this1), (return_state b1 this1, w')) /\
    loop_run E (entry_state initialPopulation b0 this) delta this1.
Proof.
  unfold run. rewrite !step_update, step_read, step_emit.
  destruct (external_calls E w) as [b0 w0]. cbn [fst snd].
  cbn [config set_generation set_population set_isRunning].
  fold (entry_state initialPopulation b0 this).
  set (start := entry_state initialPopulation b0 this).
  destruct (@generations_loop_run E (generationLimit (config this)) start w0)
    as (delta & this1 & w1 & Hloop & Hlog & Hrun).
  { unfold start, entry_state. destruct b0; cbn; lia. }
  exists b0, delta, this1.
  unfold try_finally, try_catch.
  unfold bind at 1. rewrite Hloop.
  rewrite step_read, step_emit.
  destruct (external_calls E w1) as [b1 w2]. cbn [fst snd].
  exists b1, w2. split; [|exact Hrun].
  unfold read. cbn [fst snd]. unfold return_state. now destruct b1.
Qed.
End Run.

(** ** The running maximum *)

Lemma le_refl_num (a : num) : a <> NaN -> le a a.
Proof. destruct a; cbn; try tauto. intros _. apply Qle_refl. Qed.

Lemma le_trans_num (a b c : num) : le a b -> le b c -> le a c.
Proof.
  destruct a, b, c; cbn; try tauto. apply Qle_trans.
Qed.

Lemma gtb_true_le (a b : num) : gtb a b = true -> le b a.
Proof.
  unfold gtb. destruct a, b; cbn; try discriminate; try tauto.
  intros H. apply Qltb_lt in H. now apply Qlt_le_weak.
Qed.

Lemma gtb_false_le (a b : num) : a <> NaN -> b <> NaN -> gtb a b = false -> le a b.
Proof.
  unfold gtb. destruct a, b; cbn; try discriminate; try tauto.
  intros _ _ H. now apply Qltb_ge in H.
Qed.

(** [Math.max] of finite scores is [-Infinity] or one of the scores, and
    no score exceeds it. *)
Lemma max_fold_spec (fs : list Q) : forall acc,
  acc = NegInf \/ (exists a, acc = Fin a) ->
  let r := fold_left (fun m x => max2 m (Fin x)) fs acc in
  (r = acc \/ exists q, In q fs /\ r = Fin q) /\
  le acc r /\
  (forall f, In f fs -> le (Fin f) r).
Proof.
  induction fs as [|x fs IH]; intros acc Hacc; cbn [fold_left].
  - cbn zeta. repeat split.
    + now left.
    + apply le_refl_num. destruct Hacc as [-> | [a ->]]; discriminate.
    + intros f [].
  - assert (Hstep : (max2 acc (Fin x) = acc \/ max2 acc (Fin x) = Fin x) /\
                    le acc (max2 acc (Fin x)) /\ le (Fin x) (max2 acc (Fin x))).
    { destruct Hacc as [-> | [a ->]]; cbn.
      - repeat split; [now right | apply Qle_refl].
      - destruct (Qltb a x) eqn:Hlt; cbn.
        + apply Qltb_lt in Hlt. repeat split;
            [now right | now apply Qlt_le_weak | apply Qle_refl].
        + apply Qltb_ge in Hlt. repeat split;
            [now left | apply Qle_refl | assumption]. }
    destruct Hstep as (Hpick & Hle1 & Hle2).
    specialize (IH (max2 acc (Fin x))).
    destruct IH as (Hr & Hle & Hall).
    { destruct Hpick as [-> | ->]; [assumption | right; now exists x]. }
    cbn zeta in *. repeat split.
    + destruct Hr as [-> | (q & Hq & ->)].
      * destruct Hpick as [-> | ->]; [now left | right; exists x; split; [now left | reflexivity]].
      * right. exists q. split; [now right | reflexivity].
    + eapply le_trans_num; eassumption.
    + intros f [<- | Hf]; [eapply le_trans_num; eassumption | now apply Hall].
Qed.

Lemma max_list_spec (fs : list Q) :
  ((fs = [] /\ max_list fs = NegInf) \/ exists q, In q fs /\ max_list fs = Fin q) /\
  (forall f, In f fs -> le (Fin f) (max_list fs)).
Proof.
  destruct (max_fold_spec fs (acc := NegInf) (or_introl eq_refl)) as (Hr & _ & Hall).
  split; [|exact Hall].
  destruct fs as [|x fs]; [left; now split | right].
  destruct Hr as [Hr | Hr]; [|exact Hr].
  specialize (Hall x (or_introl eq_refl)). unfold max_list. rewrite Hr in Hall.
  destruct Hall.
Qed.

Lemma max_list_not_NaN (fs : list Q) : max_list fs <> NaN.
Proof.
  destruct (max_list_spec fs) as [[[_ ->] | (q & _ & ->)] _]; discriminate.
Qed.

(** The agent picked by [updateBestAgent] carries the maximal score. *)
Lemma indexOf_max (fs : list Q) (q : Q) : forall i,
  In q fs ->
  exists j, indexOf (Fin q) fs i = Some (i + j)%nat /\ (j < length fs)%nat /\
            nth j fs 0 == q.
Proof.
  induction fs as [|x fs IH]; intros i Hin; [destruct Hin|]. cbn [indexOf].
  destruct (Qeq_bool x q) eqn:Heq.
  - exists 0%nat. rewrite Nat.add_0_r. cbn. repeat split; [lia|].
    now apply Qeq_bool_iff.
  - destruct Hin as [-> | Hin].
    + rewrite Qeq_bool_refl in Heq. discriminate.
    + destruct (IH (S i) Hin) as (j & Hj & Hlt & Hnth).
      exists (S j). rewrite Hj. cbn. repeat split; [f_equal; lia | lia | assumption].
Qed.

Lemma replaced_by_a_maximal_score (fs : list Q) (best : num) :
  gtb (max_list fs) best = true ->
  exists j q,
    indexOf (max_list fs) fs 0 = Some j /\ (j < length fs)%nat /\
    max_list fs = Fin q /\ nth j fs 0 == q.
Proof.
  intros Hgt. destruct (max_list_spec fs) as [[[_ Hmax] | (q & Hq & Hmax)] _].
  - rewrite Hmax in Hgt. unfold gtb in Hgt. destruct best; discriminate.
  - rewrite Hmax. destruct (indexOf_max fs q 0 Hq) as (j & Hj & Hlt & Hnth).
    exists j, q. now repeat split.
Qed.

Section RunningMaximum.
Variable E : Env.

Lemma updateBestAgent_spec p fs this w :
  exists this' w',
    updateBestAgent E p fs (this, w) = (Ok tt, (this', w')) /\
    bestFitness this'
    = (if gtb (max_list fs) (bestFitness this) then max_list fs
       else bestFitness this) /\
    bestAgent this'
    = (if gtb (max_list fs) (bestFitness this)
       then Some (at_index p (indexOf (max_list fs) fs 0))
       else bestAgent this).
Proof.
  unfold updateBestAgent. rewrite step_read.
  destruct (gtb (max_list fs) (bestFitness this)).
  - rewrite step_update, step_read. unfold emit.
    rewrite step_update. unfold suspend. cbn [fst snd].
    destruct (external_calls E w) as [b w']. eexists _, w'.
    split; [reflexivity|]. now destruct b.
  - exists this, w. now repeat split.
Qed.

Lemma generation_tracking this newGeneration fitnessScores tail exit this1 :
  generation_outcome E this newGeneration fitnessScores tail exit this1 ->
  tracking this ->
  tracking this1 /\
  le (bestFitness this) (bestFitness this1) /\
  (forall f, In f fitnessScores -> le (Fin f) (bestFitness this1)) /\
  (population this <> [] -> bestAgent this1 <> None).
Proof.
  intros Hout Htrack.
  pose proof (go_bestFitness Hout) as Hbf. pose proof (go_bestAgent Hout) as Hba.
  destruct (max_list_spec fitnessScores) as [Hmax Hall].
  pose proof (max_list_not_NaN fitnessScores) as Hnan.
  assert (Hbest : bestFitness this <> NaN).
  { unfold tracking in Htrack. destruct (bestFitness this); congruence || tauto. }
  destruct (gtb (max_list fitnessScores) (bestFitness this)) eqn:Hgt.
  - assert (Hne : bestAgent this1 <> None) by (rewrite Hba; discriminate).
    repeat split.
    + unfold tracking. rewrite Hbf.
      destruct Hmax as [[_ ->] | (q & _ & ->)]; [exact I | exact Hne].
    + rewrite Hbf. now apply gtb_true_le.
    + intros f Hf. rewrite Hbf. now apply Hall.
    + intros _. exact Hne.
  - assert (Hle : le (max_list fitnessScores) (bestFitness this))
      by now apply gtb_false_le.
    repeat split.
    + unfold tracking in *. now rewrite Hbf, Hba.
    + rewrite Hbf. now apply le_refl_num.
    + intros f Hf. rewrite Hbf. eapply le_trans_num; [now apply Hall | exact Hle].
    + intros Hpop. rewrite Hba.
      destruct (go_sizes Hout) as [Hlen Hscores].
      destruct Hmax as [[-> _] | (q & _ & Hq)].
      { cbn in Hscores. rewrite <- Hscores in Hlen.
        destruct (population this); [congruence | discriminate]. }
      unfold tracking in Htrack. rewrite Hq in Hgt.
      destruct (bestFitness this); try tauto. discriminate.
Qed.

Lemma loop_run_tracking this delta this2 :
  loop_run E this delta this2 ->
  tracking this ->
  tracking this2 /\
  le (bestFitness this) (bestFitness this2) /\
  (forall p fs f, In (fitnessLog p fs) delta -> In f fs ->
                  le (Fin f) (bestFitness this2)) /\
  (bestAgent this <> None -> bestAgent this2 <> None) /\
  (population this <> [] -> delta <> [] -> bestAgent this2 <> None).
Proof.
  induction 1 as [this Hc | this newGen scores tail this1 Hc Hout
                 | this newGen scores tail this1 delta this2 Hc Hout Hrun IH];
    intros Htrack.
  - repeat split; try tauto.
    + apply le_refl_num. unfold tracking in Htrack.
      destruct (bestFitness this); congruence || tauto.
    + intros p fs f [].
  - destruct (generation_tracking Hout Htrack) as (Ht1 & Hle & Hall & Hsome).
    repeat split; try assumption.
    + intros p fs f [Hin | [Hin | Hin]] Hf; try discriminate.
      apply (go_evaluated Hout) in Hin. destruct Hin as [_ ->]. now apply Hall.
    + intros Hne. rewrite (go_bestAgent Hout).
      destruct (gtb _ _); [discriminate | assumption].
    + intros Hpop _. now apply Hsome.
  - destruct (generation_tracking Hout Htrack) as (Ht1 & Hle & Hall & Hsome).
    destruct (IH Ht1) as (Ht2 & Hle2 & Hall2 & Hkeep & _).
    assert (Hkeep1 : bestAgent this <> None -> bestAgent this1 <> None).
    { intros Hne. rewrite (go_bestAgent Hout).
      destruct (gtb _ _); [discriminate | assumption]. }
    repeat split; try assumption.
    + eapply le_trans_num; eassumption.
    + intros p fs f [Hin | [Hin | Hin]] Hf; try discriminate.
      apply in_app_or in Hin. destruct Hin as [Hin | Hin].
      * apply (go_evaluated Hout) in Hin. destruct Hin as [_ ->].
        eapply le_trans_num; [now apply Hall | exact Hle2].
      * eapply Hall2; eassumption.
    + tauto.
    + intros Hpop _. apply Hkeep. now apply Hsome.
Qed.
End RunningMaximum.

Lemma loop_run_log (E : Env) this delta this' :
  loop_run E this delta this' -> log this' = log this ++ delta.
Proof.
  induction 1 as [this Hc | this newGen scores tail this1 Hc Hout
                 | this newGen scores tail this1 delta this2 Hc Hout Hrun IH].
  - now rewrite app_nil_r.
  - apply (go_log Hout).
  - rewrite IH, (go_log Hout), <- app_assoc. reflexivity.
Qed.

(** What [run] leaves behind: the loop's turns between the start event
    and the closing events. *)
Lemma run_summary (E : Env) initialPopulation this w :
  exists b0 delta this1 closing this' w',
    run E initialPopulation (this, w) = (Ok (bestAgent this'), (this', w')) /\
    loop_run E (entry_state initialPopulation b0 this) delta this1 /\
    bestAgent this' = bestAgent this1 /\
    bestFitness this' = bestFitness this1 /\
    isRunning this' = false /\
    log this'
    = log this
      ++ evolutionStarted (config this) :: (if b0 then [stoppedLog] else [])
      ++ delta ++ closing /\
    (forall ev, In ev closing ->
                ev = stoppedLog \/ exists a f g ms, ev = evolutionComplete a f g ms).
Proof.
  destruct (run_outcome E initialPopulation this w)
    as (b0 & delta & this1 & b1 & w' & Hrun & Hloop).
  exists b0, delta, this1,
    (evolutionComplete (bestAgent this1) (bestFitness this1) (generation this1)
       (metrics this1) :: (if b1 then [stoppedLog] else [])),
    (return_state b1 this1), w'.
  assert (Hba : bestAgent (return_state b1 this1) = bestAgent this1)
    by now destruct b1.
  rewrite Hba. repeat split.
  - exact Hrun.
  - exact Hloop.
  - now destruct b1.
  - unfold return_state. cbn [log set_isRunning]. rewrite log_stop_if.
    cbn [log write_log]. rewrite (loop_run_log Hloop).
    unfold entry_state. rewrite log_stop_if. cbn [log write_log set_generation
      set_population set_isRunning].
    rewrite <- !app_assoc. reflexivity.
  - intros ev [<- | Hin]; [right; eauto|].
    left. now destruct b1; [destruct Hin as [<- | []] | destruct Hin].
Qed.

(** C1: from a state whose tracked pair is in order (as a new object's
    is), [run] returns the tracked best agent, and the tracked fitness is
    at least the score of every agent evaluated in every generation of
    the run, and at least what it was before; after a run over a
    non-empty population that completed a generation the agent is not
    [null].  [updateBestAgent] replaces the pair when the maximum of the
    generation strictly exceeds the tracked fitness, and leaves it alone
    otherwise; the agent it installs is one whose score is that
    maximum. *)
Theorem best_fitness_is_running_maximum (E : Env)
    (initialPopulation : list IMetaAgent) (this : OakEvolutionLoop) (w : World E) :
  tracking this ->
  (exists this' w' runlog,
     run E initialPopulation (this, w) = (Ok (bestAgent this'), (this', w')) /\
     log this' = log this ++ runlog /\
     tracking this' /\
     le (bestFitness this) (bestFitness this') /\
     (forall p fs f, In (fitnessLog p fs) runlog -> In f fs ->
                     le (Fin f) (bestFitness this')) /\
     (initialPopulation <> [] ->
      (exists m, In (generationComplete m) runlog) ->
      bestAgent this' <> None)) /\
  (forall p fs this0 w0,
     exists this1 w1,
       updateBestAgent E p fs (this0, w0) = (Ok tt, (this1, w1)) /\
       bestFitness this1
       = (if gtb (max_list fs) (bestFitness this0) then max_list fs
          else bestFitness this0) /\
       bestAgent this1
       = (if gtb (max_list fs) (bestFitness this0)
          then Some (at_index p (indexOf (max_list fs) fs 0))
          else bestAgent this0)) /\
  (forall fs best,
     gtb (max_list fs) best = true ->
     exists j q,
       indexOf (max_list fs) fs 0 = Some j /\ (j < length fs)%nat /\
       max_list fs = Fin q /\ nth j fs 0 == q).
Proof.
  intros Htrack.
  split; [|split; [intros p fs this0 w0; apply updateBestAgent_spec
                  | intros fs best; apply replaced_by_a_maximal_score]].
  destruct (run_summary E initialPopulation this w)
    as (b0 & delta & this1 & closing & this' & w' & Hrun & Hloop & Hba & Hbf
        & _ & Hlog & Hclosing).
  assert (Hentry : tracking (entry_state initialPopulation b0 this)).
  { unfold tracking, entry_state in *. now destruct b0. }
  destruct (loop_run_tracking Hloop Hentry) as (Ht1 & Hle & Hall & _ & Hsome).
  assert (Hbf0 : bestFitness (entry_state initialPopulation b0 this) = bestFitness this)
    by (unfold entry_state; now destruct b0).
  assert (Hpop0 : population (entry_state initialPopulation b0 this) = initialPopulation)
    by (unfold entry_state; now destruct b0).
  exists this', w', (evolutionStarted (config this)
                     :: (if b0 then [stoppedLog] else []) ++ delta ++ closing).
  repeat split.
  - exact Hrun.
  - exact Hlog.
  - unfold tracking in *. now rewrite Hbf, Hba.
  - rewrite Hbf, <- Hbf0. exact Hle.
  - intros p fs f Hin Hf. rewrite Hbf.
    destruct Hin as [Hin | Hin]; [discriminate|].
    apply in_app_or in Hin. destruct Hin as [Hin | Hin].
    { destruct b0; [destruct Hin as [Hin | []]; discriminate | destruct Hin]. }
    apply in_app_or in Hin. destruct Hin as [Hin | Hin].
    + eapply Hall; eassumption.
    + apply Hclosing in Hin. destruct Hin as [Hin | (a & f' & g & ms & Hin)];
        discriminate.
  - intros Hpop (m & Hin). rewrite Hba. apply Hsome.
    + now rewrite Hpop0.
    + destruct Hin as [Hin | Hin]; [discriminate|].
      apply in_app_or in Hin. destruct Hin as [Hin | Hin].
      { destruct b0; [destruct Hin as [Hin | []]; discriminate | destruct Hin]. }
      apply in_app_or in Hin. destruct Hin as [Hin | Hin].
      * intros ->. destruct Hin.
      * apply Hclosing in Hin. destruct Hin as [Hin | (a & f' & g & ms & Hin)];
          discriminate.
Qed.

Lemma best_fitness_is_running_maximum_witness :
  let this := new_loop Sim.eager in
  let p := [agent 0; agent 1; agent 2] in
  tracking this /\
  exists this' w' runlog,
    run Sim.healthy p (this, Sim.start) = (Ok (bestAgent this'), (this', w')) /\
    log this' = log this ++ runlog /\
    tracking this' /\
    le (bestFitness this) (bestFitness this') /\
    (forall p fs f, In (fitnessLog p fs) runlog -> In f fs ->
                    le (Fin f) (bestFitness this')) /\
    (p <> [] ->
     (exists m, In (generationComplete m) runlog) ->
     bestAgent this' <> None).
Proof.
  intros this p.
  assert (H : tracking this) by exact I.
  split; [exact H|].
  exact (proj1 (@best_fitness_is_running_maximum Sim.healthy p this Sim.start H)).
Defined.

(** ** The ends of a run *)

(** C9: with [generationLimit = 0] the loop body never runs (no Oak
    cycle is logged), and [run], on an object whose tracked agent is
    still [null], returns [null]; the tracked agent stays [null]. *)
Theorem zero_generation_limit_returns_null (E : Env)
    (initialPopulation : list IMetaAgent) (this : OakEvolutionLoop) (w : World E) :
  generationLimit (config this) = 0%nat ->
  bestAgent this = None ->
  exists this' w' runlog,
    run E initialPopulation (this, w) = (Ok None, (this', w')) /\
    bestAgent this' = None /\
    log this' = log this ++ runlog /\
    ~ In oakCycleLog runlog.
Proof.
  intros Hlimit Hnull.
  destruct (run_summary E initialPopulation this w)
    as (b0 & delta & this1 & closing & this' & w' & Hrun & Hloop & Hba & _
        & _ & Hlog & Hclosing).
  assert (Hc : loop_condition (entry_state initialPopulation b0 this) = false).
  { unfold loop_condition, entry_state. destruct b0; cbn; [reflexivity|].
    rewrite Hlimit. reflexivity. }
  inversion Hloop as [t Hc' | t newGen scores tail t1 Hc' | t newGen scores tail t1 d t2 Hc'];
    subst; try congruence.
  assert (Hnone : bestAgent this' = None).
  { rewrite Hba. unfold entry_state. now destruct b0. }
  rewrite Hnone in Hrun.
  exists this', w', (evolutionStarted (config this)
                     :: (if b0 then [stoppedLog] else []) ++ [] ++ closing).
  repeat split; try assumption.
  intros [Hin | Hin]; [discriminate|].
  apply in_app_or in Hin. destruct Hin as [Hin | Hin].
  { destruct b0; [destruct Hin as [Hin | []]; discriminate | destruct Hin]. }
  cbn [app] in Hin. apply Hclosing in Hin.
  destruct Hin as [Hin | (a & f' & g & ms & Hin)]; discriminate.
Qed.

Lemma zero_generation_limit_returns_null_witness :
  let c := {| populationSize := 2; generationLimit := 0; mutationRate := 1 # 10;
              crossoverRate := 7 # 10; eliteSize := 1; evaluationTimeout := 30000;
              convergenceThreshold := 1 # 1000; diversityWeight := 3 # 10 |} in
  let this := new_loop c in
  generationLimit (config this) = 0%nat /\
  bestAgent this = None /\
  exists this' w' runlog,
    run Sim.healthy [agent 0; agent 1] (this, Sim.start) = (Ok None, (this', w')) /\
    bestAgent this' = None /\
    log this' = log this ++ runlog /\
    ~ In oakCycleLog runlog.
Proof.
  intros c this.
  assert (H1 : generationLimit (config this) = 0%nat) by reflexivity.
  assert (H2 : bestAgent this = None) by reflexivity.
  split; [exact H1 | split; [exact H2|]].
  exact (@zero_generation_limit_returns_null Sim.healthy [agent 0; agent 1] this
           Sim.start H1 H2).
Defined.

Lemma split_in_app {A} (l d l1 l2 : list A) (y : A) :
  l ++ d = l1 ++ y :: l2 ->
  (exists l2', l = l1 ++ y :: l2' /\ l2 = l2' ++ d) \/
  (exists l1', l1 = l ++ l1' /\ d = l1' ++ y :: l2).
Proof.
  revert l1. induction l as [|x l IH]; intros l1 H.
  - right. exists l1. now split.
  - destruct l1 as [|x1 l1]; cbn in H; inversion H; subst.
    + left. exists l. now split.
    + destruct (IH l1 H2) as [(l2' & -> & ->) | (l1' & -> & ->)].
      * left. exists l2'. now split.
      * right. exists l1'. now split.
Qed.

Lemma no_cycle_after_stop_app (l l' : list Event) :
  no_cycle_after_stop l -> no_cycle_after_stop l' ->
  (In stoppedLog l -> ~ In oakCycleLog l') ->
  no_cycle_after_stop (l ++ l').
Proof.
  intros Hl Hl' Hboth l1 l2 Heq.
  apply split_in_app in Heq. destruct Heq as [(l2' & -> & ->) | (l1' & -> & ->)].
  - intros Hin. apply in_app_or in Hin. destruct Hin as [Hin | Hin].
    + exact (Hl l1 l2' eq_refl Hin).
    + apply Hboth; [|assumption]. apply in_or_app. right. now left.
  - exact (Hl' l1' l2 eq_refl).
Qed.

Lemma no_cycle_no_cycle_after_stop (l : list Event) :
  ~ In oakCycleLog l -> no_cycle_after_stop l.
Proof.
  intros Hl l1 l2 -> Hin. apply Hl. apply in_or_app. right. now right.
Qed.

Lemma no_stop_no_cycle_after_stop (l : list Event) :
  ~ In stoppedLog l -> no_cycle_after_stop l.
Proof.
  intros Hl l1 l2 -> _. apply Hl. apply in_or_app. right. now left.
Qed.

Lemma cycles_complete_app (l l' : list Event) :
  cycles_complete l -> cycles_complete l' -> cycles_complete (l ++ l').
Proof.
  intros Hl Hl' l1 l2 Heq.
  apply split_in_app in Heq. destruct Heq as [(l2' & -> & ->) | (l1' & -> & ->)].
  - destruct (Hl l1 l2' eq_refl) as (m & Hm). exists m. apply in_or_app. now left.
  - exact (Hl' l1' l2 eq_refl).
Qed.

Lemma no_cycle_cycles_complete (l : list Event) :
  ~ In oakCycleLog l -> cycles_complete l.
Proof.
  intros Hl l1 l2 ->. exfalso. apply Hl. apply in_or_app. right. now left.
Qed.

Section Stop.
Variable E : Env.

(** The flag is read at the top of every turn. *)
Lemma generations_not_running fuel this w :
  isRunning this = false ->
  generations E fuel (this, w) = (Ok tt, (this, w)).
Proof. intros H. destruct fuel; cbn [generations fst]; now rewrite H. Qed.

Lemma loop_run_not_running this delta this' :
  loop_run E this delta this' -> isRunning this = false -> delta = [].
Proof.
  intros Hrun Hstop.
  assert (Hc : loop_condition this = false)
    by (unfold loop_condition; now rewrite Hstop).
  inversion Hrun; subst; congruence.
Qed.

Lemma generation_events this newGeneration fitnessScores tail exit this1 :
  generation_outcome E this newGeneration fitnessScores tail exit this1 ->
  let turn := generationLog (generation this + 1) (generationLimit (config this))
              :: oakCycleLog :: tail in
  no_cycle_after_stop turn /\ cycles_complete turn /\
  (In stoppedLog turn -> isRunning this1 = false).
Proof.
  intros Hout turn. repeat split.
  - apply (@no_cycle_after_stop_app [_; _] tail).
    + apply no_stop_no_cycle_after_stop. intros [H | [H | []]]; discriminate.
    + apply no_cycle_no_cycle_after_stop, (go_one_cycle Hout).
    + intros _. apply (go_one_cycle Hout).
  - intros l1 l2 Heq. subst turn.
    destruct l1 as [|x1 l1]; [discriminate|]. inversion Heq; subst.
    destruct l1 as [|x2 l1]; inversion H1; subst.
    + apply (go_complete Hout).
    + exfalso. apply (go_one_cycle Hout). apply in_or_app. right. now left.
  - intros [H | [H | Hin]]; try discriminate.
    destruct (isRunning this1) eqn:Hrun; [|reflexivity].
    now destruct (go_running Hout Hrun).
Qed.

Lemma loop_run_events this delta this' :
  loop_run E this delta this' ->
  no_cycle_after_stop delta /\ cycles_complete delta.
Proof.
  induction 1 as [this Hc | this newGen scores tail this1 Hc Hout
                 | this newGen scores tail this1 delta this2 Hc Hout Hrun IH].
  - split; intros l1 l2 Heq; now destruct l1.
  - destruct (generation_events Hout) as (H1 & H2 & _). now split.
  - destruct (generation_events Hout) as (H1 & H2 & H3). destruct IH as [IH1 IH2].
    change (generationLog (generation this + 1) (generationLimit (config this))
            :: oakCycleLog :: tail ++ delta)
      with ((generationLog (generation this + 1) (generationLimit (config this))
             :: oakCycleLog :: tail) ++ delta).
    split.
    + apply no_cycle_after_stop_app; try assumption.
      intros Hstop. rewrite (loop_run_not_running Hrun (H3 Hstop)). intros [].
    + now apply cycles_complete_app.
Qed.
End Stop.

(** C8: the loop reads the running flag at the top of every turn and
    does nothing once it is off; in the log of any run, no Oak cycle
    begins after a [stop()], every Oak cycle that began is followed by
    the completion of its generation, and [run] returns the tracked best
    agent with the flag off.  In the run given last, of at most ten
    generations, [stop()] is called during the third Oak cycle: that
    generation is evaluated and completed, and the run ends after three
    generations. *)
Theorem stop_takes_effect_between_generations :
  (forall (E : Env) fuel this w,
     isRunning this = false ->
     generations E fuel (this, w) = (Ok tt, (this, w))) /\
  (forall (E : Env) initialPopulation this w,
     exists this' w' runlog,
       run E initialPopulation (this, w) = (Ok (bestAgent this'), (this', w')) /\
       isRunning this' = false /\
       log this' = log this ++ runlog /\
       no_cycle_after_stop runlog /\
       cycles_complete runlog) /\
  (let c := {| populationSize := 2; generationLimit := 10; mutationRate := 0;
               crossoverRate := 0; eliteSize := 1; evaluationTimeout := 10;
               convergenceThreshold := 0; diversityWeight := 3 # 10 |} in
   let E := Sim.env Sim.no_step Sim.never Sim.never (Nat.eqb 13) in
   let r := run E [agent 0; agent 1] (new_loop c, Sim.start) in
   fst r = Ok (Some (agent 0)) /\
   generation (fst (snd r)) = 3%nat /\
   map mark_of (log (fst (snd r)))
   = [Started;
      GenerationBegins 1; OakCycle; Evaluated; NewBest; GenerationDone 0;
      GenerationBegins 2; OakCycle; Evaluated; NewBest; GenerationDone 1;
      GenerationBegins 3; OakCycle; Stopped; Evaluated; GenerationDone 2;
      Completed 3]).
Proof.
  split; [|split].
  - intros E fuel this w. apply generations_not_running.
  - intros E initialPopulation this w.
    destruct (run_summary E initialPopulation this w)
      as (b0 & delta & this1 & closing & this' & w' & Hrun & Hloop & _ & _
          & Hoff & Hlog & Hclosing).
    destruct (loop_run_events Hloop) as [Hstop Hcomplete].
    assert (Hno : ~ In oakCycleLog closing).
    { intros Hin. apply Hclosing in Hin.
      destruct Hin as [Hin | (a & f & g & ms & Hin)]; discriminate. }
    exists this', w', ((evolutionStarted (config this)
                        :: (if b0 then [stoppedLog] else [])) ++ delta ++ closing).
    repeat split; try assumption.
    + apply no_cycle_after_stop_app.
      * apply no_cycle_no_cycle_after_stop.
        intros [Hin | Hin]; [discriminate|].
        destruct b0; [destruct Hin as [Hin | []]; discriminate | destruct Hin].
      * apply no_cycle_after_stop_app; [assumption | |].
        -- now apply no_cycle_no_cycle_after_stop.
        -- intros _. exact Hno.
      * intros [Hin | Hin]; [discriminate|]. destruct b0; [|destruct Hin].
        assert (Hd : delta = []).
        { apply (loop_run_not_running Hloop). reflexivity. }
        rewrite Hd. exact Hno.
    + apply cycles_complete_app.
      * apply no_cycle_cycles_complete.
        intros [Hin | Hin]; [discriminate|].
        destruct b0; [destruct Hin as [Hin | []]; discriminate | destruct Hin].
      * apply cycles_complete_app; [assumption|].
        now apply no_cycle_cycles_complete.
  - vm_compute. repeat split.
Qed.

(** C3, on the code: the convergence rate stored for a generation is
    computed before that generation's entry is appended, from the two
    entries already there; it is 0 while fewer than two exist, and it
    does not depend on the scores of the generation it is stored for.
    In the two-generation run given last the best fitness changes from
    generation 0 to generation 1, and the rate stored for generation 1
    is 0. *)
Theorem convergence_rate_lags_one_generation :
  (forall (E : Env) this fitnessScores runtime,
     m_convergenceRate (calculateMetrics E this fitnessScores runtime)
     = calculateConvergenceRate this) /\
  (forall this ms previous current,
     metrics this = ms ++ [previous; current] ->
     calculateConvergenceRate this
     = abs (sub (m_bestFitness current) (m_bestFitness previous))) /\
  (forall this, (length (metrics this) < 2)%nat ->
                calculateConvergenceRate this = Fin 0) /\
  (let c := {| populationSize := 2; generationLimit := 2; mutationRate := 0;
               crossoverRate := 0; eliteSize := 1; evaluationTimeout := 10;
               convergenceThreshold := 0; diversityWeight := 0 |} in
   let r := run Sim.healthy [agent 0; agent 1] (new_loop c, Sim.start) in
   exists m0 m1,
     metrics (fst (snd r)) = [m0; m1] /\
     m_generation m0 = 0%nat /\ m_generation m1 = 1%nat /\
     m_convergenceRate m1 = Fin 0 /\
     ltb (Fin 0) (abs (sub (m_bestFitness m1) (m_bestFitness m0))) = true).
Proof.
  split; [|split; [|split]].
  - reflexivity.
  - intros this ms previous current Hms. unfold calculateConvergenceRate.
    rewrite Hms, rev_app_distr. reflexivity.
  - intros this Hlen. unfold calculateConvergenceRate.
    destruct (metrics this) as [|m0 [|m1 ms]]; cbn in *; try reflexivity. lia.
  - vm_compute. eexists _, _. repeat split.
Qed.

(** ** Random indices *)

Lemma same_ref_eq (a b : IMetaAgent) : same_ref a b = true <-> a = b.
Proof.
  destruct a as [|i], b as [|j]; cbn; split; try discriminate; try reflexivity.
  - intros H. apply Nat.eqb_eq in H. now subst.
  - intros H. inversion H. apply Nat.eqb_refl.
Qed.

(** [Math.floor(Math.random() * n)] is an index of an array of [n > 0]
    elements. *)
Lemma random_index_in_range (r : Q) (n : nat) :
  0 <= r -> r < 1 -> (0 < n)%nat ->
  (Z.to_nat (Qfloor (r * inject_Z (Z.of_nat n))) < n)%nat.
Proof.
  intros H0 H1 Hn.
  assert (Hpos : 0 < inject_Z (Z.of_nat n)).
  { change 0 with (inject_Z 0). rewrite <- Zlt_Qlt. lia. }
  assert (Hlo : (0 <= Qfloor (r * inject_Z (Z.of_nat n)))%Z).
  { change 0%Z with (Qfloor 0). apply Qfloor_resp_le.
    apply Qmult_le_0_compat; [assumption | now apply Qlt_le_weak]. }
  assert (Hhi : (Qfloor (r * inject_Z (Z.of_nat n)) < Z.of_nat n)%Z).
  { rewrite Zlt_Qlt. eapply Qle_lt_trans; [apply Qfloor_le|].
    rewrite <- (Qmult_1_l (inject_Z (Z.of_nat n))) at 2.
    now apply Qmult_lt_compat_r. }
  lia.
Qed.

Section RandomAgent.
Variable E : Env.
Variable this : OakEvolutionLoop.

Lemma selectRandomAgent_other excludeAgent :
  returns_with (selectRandomAgent E this excludeAgent)
    (fun x =>
       (x = undefined /\ forall y, In y (population this) -> y = excludeAgent) \/
       (In x (population this) /\ x <> excludeAgent)).
Proof.
  unfold selectRandomAgent.
  set (candidates := filter _ (population this)).
  apply returns_with_bind with (P := fun r => 0 <= r /\ r < 1).
  { apply Math_random_range. }
  intros r [H0 H1]. apply returns_with_ret.
  destruct candidates as [|c cs] eqn:Hc.
  - left. split; [now destruct (Z.to_nat _)|].
    intros y Hy. destruct (same_ref y excludeAgent) eqn:Hsame.
    + now apply same_ref_eq.
    + assert (Hin : In y candidates).
      { apply filter_In. split; [assumption | now rewrite Hsame]. }
      rewrite Hc in Hin. destruct Hin.
  - right. rewrite <- Hc.
    assert (Hin : In (nth (Z.to_nat (Qfloor (r * inject_Z (Z.of_nat (length candidates)))))
                        candidates undefined) candidates).
    { apply nth_In. apply random_index_in_range; try assumption.
      rewrite Hc. cbn. lia. }
    apply filter_In in Hin. destruct Hin as [Hin Hne]. split; [assumption|].
    intros Heq. apply same_ref_eq in Heq. rewrite Heq in Hne. discriminate.
Qed.
End RandomAgent.

(** ** When the Oak cycle leaves the population as it is *)

Lemma Forall2_eq_r {A} (l l' : list A) : Forall2 (fun a x => x = a) l l' -> l' = l.
Proof. induction 1; [reflexivity | now subst]. Qed.

Section Unchanged.
Variable E : Env.
Variable this : OakEvolutionLoop.

Lemma applyEvolution_without_crossover a :
  crossoverRate (config this) <= 0 \/
  (forall y, In y (population this) -> y = a) ->
  returns_with (applyEvolution E this a) (fun x => x = a).
Proof.
  intros Hcond. unfold applyEvolution.
  apply returns_with_bind with (P := fun _ => True).
  { apply returns_returns_with, Math_random_returns. }
  intros r1 _.
  apply returns_with_bind with (P := fun x => x = a).
  { destruct (Qltb r1 _); [apply mutateAgent_same | now apply returns_with_ret]. }
  intros evolvedAgent ->.
  apply returns_with_bind with (P := fun r => 0 <= r /\ r < 1).
  { apply Math_random_range. }
  intros r2 [H0 _].
  destruct (Qltb r2 (crossoverRate (config this))) eqn:Hrate; cbn [andb];
    [|now apply returns_with_ret].
  destruct (1 <? length (population this))%nat; [|now apply returns_with_ret].
  destruct Hcond as [Hzero | Hsame].
  { apply Qltb_lt in Hrate. exfalso.
    apply (Qlt_irrefl r2). eapply Qlt_le_trans; [exact Hrate|].
    eapply Qle_trans; eassumption. }
  apply returns_with_bind
    with (P := fun x => x = undefined).
  { eapply returns_with_weaken; [apply selectRandomAgent_other|].
    cbn beta. intros x [[-> _] | [Hin Hne]]; [reflexivity|].
    now apply Hsame in Hin. }
  intros otherParent ->.
  eapply returns_with_weaken; [apply crossoverAgents_parent|].
  cbn beta. intros x [-> | [_ Hlearn]]; [reflexivity|].
  now apply can_learn_undefined in Hlearn.
Qed.

Lemma executeAgentOakCycle_without_crossover a :
  crossoverRate (config this) <= 0 \/
  (forall y, In y (population this) -> y = a) ->
  returns_with (executeAgentOakCycle E this a) (fun x => x = a).
Proof.
  intros Hcond. unfold executeAgentOakCycle. apply returns_with_try_catch.
  - apply settles_bind; [apply settles_eight_steps|].
    intros _. apply returns_settles.
    exact (returns_with_returns (applyEvolution_result E this a)).
  - intros w x w' H.
    apply bind_Ok_inv in H. destruct H as (u & w1 & _ & H).
    exact (returns_with_run (applyEvolution_without_crossover Hcond) _ H).
  - intros e. now apply returns_with_ret.
Qed.
End Unchanged.

(** X1: the Oak cycle can change the population array only through
    crossover.  When the crossover rate is not positive, or when all
    slots hold one and the same agent (a single-agent population among
    them), the array it returns is the population, slot for slot,
    whatever the agents do and whatever the mutation rate. *)
Theorem oak_cycle_without_crossover_keeps_population (E : Env)
    (this : OakEvolutionLoop) :
  crossoverRate (config this) <= 0 \/
  (forall x y, In x (population this) -> In y (population this) -> x = y) ->
  returns_with (executeOakCycle E this) (fun post => post = population this).
Proof.
  intros Hcond. eapply returns_with_weaken.
  - apply executeOakCycle_slots with (P := fun a x => x = a).
    intros a Ha. apply executeAgentOakCycle_without_crossover.
    destruct Hcond as [Hzero | Hsame]; [now left | right].
    intros y Hy. now apply Hsame.
  - cbn beta. intros post Hpost. now apply Forall2_eq_r.
Qed.

Lemma oak_cycle_without_crossover_keeps_population_witness :
  let c := {| populationSize := 3; generationLimit := 2; mutationRate := 1;
              crossoverRate := 0; eliteSize := 1; evaluationTimeout := 1;
              convergenceThreshold := 0; diversityWeight := 0 |} in
  let this := set_population [agent 0; agent 1; agent 2] (new_loop c) in
  (crossoverRate (config this) <= 0 \/
   (forall x y, In x (population this) -> In y (population this) -> x = y)) /\
  returns_with (executeOakCycle (Sim.broken 1) this)
    (fun post => post = population this).
Proof.
  intros c this.
  assert (H : crossoverRate (config this) <= 0 \/
              (forall x y, In x (population this) -> In y (population this) -> x = y)).
  { left. cbn. discriminate. }
  split; [exact H|].
  exact (@oak_cycle_without_crossover_keeps_population (Sim.broken 1) this H).
Defined.

(** X2: [selectRandomAgent] returns a member of the population other
    than the excluded agent whenever there is one; [undefined] comes
    back only when every slot holds the excluded agent (the candidate
    array is empty) or when the population itself holds [undefined].
    It never returns the agent it was told to exclude. *)
Theorem selectRandomAgent_picks_another (E : Env) (this : OakEvolutionLoop)
    (i : nat) :
  returns_with (selectRandomAgent E this (agent i))
    (fun x =>
       x <> agent i /\
       ((x = undefined /\ forall y, In y (population this) -> y = agent i) \/
        In x (population this))).
Proof.
  eapply returns_with_weaken; [apply selectRandomAgent_other|].
  cbn beta. intros x [[-> Hall] | [Hin Hne]].
  - split; [discriminate | now left].
  - split; [assumption | now right].
Qed.

(** ** Tournaments *)

Section SortHead.
Variable A : Type.
Implicit Types (x y : Q * A) (l : list (Q * A)).

Local Abbreviation scores_at_most := (fun x y : Q * A => fst y <= fst x).

Lemma insert_desc_descending x l :
  StronglySorted scores_at_most l -> StronglySorted scores_at_most (insert_desc x l).
Proof.
  induction l as [|y l IH]; intros Hs; cbn.
  - repeat constructor.
  - apply StronglySorted_inv in Hs. destruct Hs as [Hs Hy].
    destruct (Qltb (fst x) (fst y)) eqn:Hlt.
    + apply Qltb_lt in Hlt. constructor; [now apply IH|].
      eapply Permutation_Forall; [symmetry; apply insert_desc_perm|].
      constructor; [now apply Qlt_le_weak | assumption].
    + apply Qltb_ge in Hlt. constructor; [now constructor|].
      constructor; [assumption|].
      rewrite Forall_forall in *. intros z Hz.
      cbn beta in *. eapply Qle_trans; [now apply Hy | assumption].
Qed.

Lemma sort_desc_descending l : StronglySorted scores_at_most (sort_desc l).
Proof.
  induction l as [|x l IH]; cbn; [constructor | now apply insert_desc_descending].
Qed.

(** The first entry after sorting is an entry with the largest score. *)
Lemma sort_desc_head x rest l :
  sort_desc l = x :: rest -> In x l /\ forall y, In y l -> fst y <= fst x.
Proof.
  intros Hsort. pose proof (sort_desc_descending l) as Hs.
  pose proof (sort_desc_perm l) as Hperm. rewrite Hsort in Hs, Hperm.
  split.
  - apply (Permutation_in _ Hperm). now left.
  - intros y Hy. apply (Permutation_in _ (Permutation_sym Hperm)) in Hy.
    destruct Hy as [<- | Hy]; [apply Qle_refl|].
    apply StronglySorted_inv in Hs. destruct Hs as [_ Hx].
    rewrite Forall_forall in Hx. now apply Hx.
Qed.
End SortHead.

Lemma Forall_exists_Forall2 {A B} (R : A -> B -> Prop) (l : list B) :
  Forall (fun b => exists a, R a b) l -> exists la, Forall2 R la l.
Proof.
  induction 1 as [|b l [a Ha] _ [la IH]].
  - exists []. constructor.
  - exists (a :: la). now constructor.
Qed.

Section Tournament.
Variable E : Env.

Lemma for_range_Forall A (f : nat -> SE (World E) A) (P : A -> Prop) :
  (forall i, returns_with (f i) P) ->
  forall n i, returns_with (for_range E n i f)
                (fun xs => length xs = n /\ Forall P xs).
Proof.
  intros Hf. induction n as [|n IH]; intros i; cbn.
  - apply returns_with_ret. split; [reflexivity | constructor].
  - apply returns_with_bind with (P := P); [apply Hf|].
    intros x Hx.
    apply returns_with_bind with (P := fun xs => length xs = n /\ Forall P xs);
      [apply IH|].
    intros xs [Hlen Hxs]. apply returns_with_ret. split; [cbn; now rewrite Hlen|].
    now constructor.
Qed.

(** What a tournament returns: the agent at a sampled index whose score
    no sampled index exceeds. *)
Lemma tournamentSelection_winner (p : list IMetaAgent) (fitnessScores : list Q) :
  returns_with (tournamentSelection E p fitnessScores)
    (fun x =>
       exists sampled i,
         length sampled = Nat.max 2 (length p / 10) /\
         Forall (fun j => p <> [] -> (j < length p)%nat) sampled /\
         In i sampled /\
         x = nth i p undefined /\
         Forall (fun j => nth j fitnessScores 0 <= nth i fitnessScores 0) sampled).
Proof.
  unfold tournamentSelection.
  set (entry := fun j : nat => (nth j fitnessScores 0, nth j p undefined)).
  apply returns_with_bind
    with (P := fun t : list (Q * IMetaAgent) =>
                 length t = Nat.max 2 (length p / 10) /\
                 Forall (fun e => exists j,
                           (fun j e => (p <> [] -> (j < length p)%nat) /\ e = entry j) j e) t).
  - apply for_range_Forall. intros _.
    apply returns_with_bind with (P := fun r => 0 <= r /\ r < 1).
    { apply Math_random_range. }
    intros r [H0 H1]. apply returns_with_ret.
    eexists. split; [|reflexivity].
    intros Hp. apply random_index_in_range; try assumption.
    destruct p; [congruence | cbn; lia].
  - intros t [Hlen Ht].
    apply Forall_exists_Forall2 in Ht. destruct Ht as (sampled & Hsampled).
    pose proof (sort_desc_length t) as Hsl.
    destruct (sort_desc t) as [|[f a] rest] eqn:Hsort.
    { cbn in Hsl. lia. }
    apply returns_with_ret.
    destruct (sort_desc_head _ Hsort) as [Hin Hmax].
    assert (Hentries : forall j, In j sampled -> In (entry j) t).
    { clear - Hsampled. induction Hsampled as [|j e js es [_ ->] _ IH];
        intros k Hk; [destruct Hk|].
      destruct Hk as [<- | Hk]; [now left | right; now apply IH]. }
    assert (Hwin : exists i, In i sampled /\ (f, a) = entry i).
    { clear - Hsampled Hin. induction Hsampled as [|j e js es [_ ->] _ IH];
        [destruct Hin|].
      destruct Hin as [Heq | Hin].
      - exists j. split; [now left | now symmetry].
      - destruct (IH Hin) as (i & Hi & Heq). exists i. split; [now right | assumption]. }
    destruct Hwin as (i & Hi & Heq). inversion Heq; subst f a.
    exists sampled, i. repeat split.
    + rewrite (Forall2_length Hsampled). exact Hlen.
    + clear - Hsampled. induction Hsampled as [|j e js es [Hj _] _ IH];
        constructor; assumption.
    + exact Hi.
    + apply Forall_forall. intros j Hj.
      exact (Hmax (entry j) (Hentries j Hj)).
Qed.
End Tournament.



Section Members.
Variable E : Env.
Variable this : OakEvolutionLoop.
Variable p : list IMetaAgent.
Variable fitnessScores : list Q.

Lemma tournament_fill_Forall (P : IMetaAgent -> Prop) fuel :
  populationSize (config this) = 0%nat \/
  returns_with (tournamentSelection E p fitnessScores) P ->
  forall next,
    (populationSize (config this) - length next <= fuel)%nat ->
    Forall P next ->
    returns_with (tournament_fill E fuel this p fitnessScores next) (Forall P).
Proof.
  intros Hsel. induction fuel as [|fuel IH]; intros next Hfuel Hnext;
    cbn [tournament_fill];
    destruct (Nat.ltb_spec (length next) (populationSize (config this)))
      as [Hlt | Hge].
  - lia.
  - now apply returns_with_ret.
  - destruct Hsel as [Hzero | Hsel]; [lia|].
    apply returns_with_bind with (P := P); [exact Hsel|].
    intros selected Hselected. apply IH.
    + rewrite length_app. cbn. lia.
    + apply Forall_app. split; [assumption | now constructor].
  - now apply returns_with_ret.
Qed.

Lemma elite_members :
  length fitnessScores = length p ->
  Forall (fun x => In x p) (elite this p fitnessScores).
Proof.
  intros Hlen. rewrite elite_firstn. apply Forall_forall. intros x Hx.
  apply in_map_iff in Hx. destruct Hx as (idx & <- & Hidx).
  apply nth_In. rewrite <- Hlen.
  assert (Hin : In idx (sortedIndices fitnessScores)).
  { rewrite <- (firstn_skipn (eliteSize (config this)) (sortedIndices fitnessScores)).
    apply in_or_app. now left. }
  apply (Permutation_in _ (sortedIndices_perm fitnessScores)) in Hin.
  apply in_seq in Hin. lia.
Qed.

Lemma selectNextGeneration_members :
  length fitnessScores = length p ->
  p <> [] \/ populationSize (config this) = 0%nat ->
  returns_with (selectNextGeneration E this p fitnessScores)
    (Forall (fun x => In x p)).
Proof.
  intros Hlen Hcase. unfold selectNextGeneration.
  apply tournament_fill_Forall; [| lia | now apply elite_members].
  destruct Hcase as [Hp | Hzero]; [right | now left].
  eapply returns_with_weaken; [apply tournamentSelection_winner|].
  cbn beta. intros x (sampled & i & _ & Hrange & Hi & -> & _).
  apply nth_In. rewrite Forall_forall in Hrange. now apply Hrange.
Qed.
End Members.

Lemma Forall_eq_repeat {A} (a : A) (l : list A) :
  Forall (fun x => x = a) l -> l = repeat a (length l).
Proof. induction 1; cbn; [reflexivity | now f_equal]. Qed.

(** X4: given one score per agent, next-generation selection only
    returns agents of the evaluated population, as long as that
    population is not empty or no slot is to be filled.  Over an empty
    evaluated population it fills all [populationSize] slots with
    [undefined]. *)
Theorem selection_returns_evaluated_agents (E : Env) (this : OakEvolutionLoop) :
  (forall p fitnessScores,
     length fitnessScores = length p ->
     p <> [] \/ populationSize (config this) = 0%nat ->
     returns_with (selectNextGeneration E this p fitnessScores)
       (Forall (fun x => In x p))) /\
  returns_with (selectNextGeneration E this [] [])
    (fun next => next = repeat undefined (populationSize (config this))).
Proof.
  split.
  - intros p fitnessScores. apply selectNextGeneration_members.
  - intros w.
    destruct (selectNextGeneration_shape E this [] [] w)
      as (next & w' & Hrun & Hlen & _).
    assert (Hundef : Forall (fun x => x = undefined) next).
    { assert (Hret : returns_with (selectNextGeneration E this [] [])
                       (Forall (fun x => x = undefined))).
      { unfold selectNextGeneration. apply tournament_fill_Forall.
        - right. eapply returns_with_weaken; [apply tournamentSelection_winner|].
          cbn beta. intros x (sampled & i & _ & _ & _ & -> & _). now destruct i.
        - lia.
        - unfold elite. cbn. rewrite Nat.min_0_r. constructor. }
      exact (returns_with_run Hret _ Hrun). }
    exists next, w'. split; [exact Hrun|].
    rewrite (Forall_eq_repeat Hundef). f_equal. rewrite Hlen. cbn.
    rewrite Nat.min_0_r. apply Nat.max_0_l.
Qed.

Lemma selection_returns_evaluated_agents_witness :
  let this := new_loop Sim.eager in
  let p := [agent 0; agent 1] in
  let fitnessScores := [1 # 2; 1 # 3] in
  length fitnessScores = length p /\
  (p <> [] \/ populationSize (config this) = 0%nat) /\
  returns_with (selectNextGeneration Sim.healthy this p fitnessScores)
    (Forall (fun x => In x p)).
Proof.
  intros this p fitnessScores.
  assert (H1 : length fitnessScores = length p) by reflexivity.
  assert (H2 : p <> [] \/ populationSize (config this) = 0%nat)
    by (left; discriminate).
  split; [exact H1 | split; [exact H2|]].
  exact (proj1 (@selection_returns_evaluated_agents Sim.healthy this)
           p fitnessScores H1 H2).
Defined.

(** ** The best agent of a generation and elitism *)

Lemma indexOf_first (q : Q) (fs : list Q) : forall i k,
  indexOf (Fin q) fs i = Some k ->
  (i <= k)%nat /\ nth (k - i) fs 0 == q /\
  forall m, (m < k - i)%nat -> ~ nth m fs 0 == q.
Proof.
  induction fs as [|x fs IH]; intros i k H; [discriminate|]. cbn [indexOf] in H.
  destruct (Qeq_bool x q) eqn:Heq.
  - inversion H; subst k. rewrite Nat.sub_diag. repeat split; [lia | |].
    + now apply Qeq_bool_iff.
    + intros m Hm. lia.
  - destruct (IH _ _ H) as (Hle & Hnth & Hmin).
    repeat split; [lia | |].
    + replace (k - i)%nat with (S (k - S i)) by lia. exact Hnth.
    + intros m Hm. destruct m as [|m]; cbn.
      * now apply Qeq_bool_neq.
      * apply Hmin. lia.
Qed.

Lemma sortedIndices_head (fs : list Q) :
  fs <> [] ->
  exists i0 rest,
    sortedIndices fs = i0 :: rest /\ (i0 < length fs)%nat /\
    forall j, (j < length fs)%nat -> j <> i0 -> ranks_before fs i0 j.
Proof.
  intros Hfs. pose proof (sortedIndices_perm fs) as Hperm.
  pose proof (sortedIndices_sorted fs) as Hs.
  destruct (sortedIndices fs) as [|i0 rest] eqn:Hsorted.
  { apply Permutation_length in Hperm. rewrite length_seq in Hperm.
    destruct fs; [congruence | discriminate]. }
  exists i0, rest. repeat split.
  - assert (Hin : In i0 (seq 0 (length fs)))
      by (apply (Permutation_in _ Hperm); now left).
    apply in_seq in Hin. lia.
  - intros j Hj Hne.
    assert (Hin : In j (i0 :: rest)).
    { apply (Permutation_in _ (Permutation_sym Hperm)). apply in_seq. lia. }
    destruct Hin as [-> | Hin]; [congruence|].
    apply StronglySorted_inv in Hs. destruct Hs as [_ Hi0].
    rewrite Forall_forall in Hi0. now apply Hi0.
Qed.

(** The index [updateBestAgent] looks up is the index elitism puts first. *)
Lemma best_index_is_first_elite (fs : list Q) :
  fs <> [] ->
  exists i0 rest,
    sortedIndices fs = i0 :: rest /\ indexOf (max_list fs) fs 0 = Some i0.
Proof.
  intros Hfs. destruct (sortedIndices_head Hfs) as (i0 & rest & Hsorted & Hi0 & Hfirst).
  exists i0, rest. split; [exact Hsorted|].
  destruct (max_list_spec fs) as [[[Hnil _] | (q & Hq & Hmax)] Hall]; [congruence|].
  rewrite Hmax in *.
  destruct (indexOf_max fs q 0 Hq) as (j & Hj & Hjlt & Hjq).
  rewrite Hj. f_equal. cbn [Nat.add].
  destruct (indexOf_first _ _ _ Hj) as (_ & _ & Hmin). rewrite Nat.sub_0_r in Hmin.
  destruct (Nat.eq_dec j i0) as [Heq | Hne]; [exact Heq | exfalso].
  assert (Hle0 : nth i0 fs 0 <= q) by (apply (Hall (nth i0 fs 0)); now apply nth_In).
  destruct (Hfirst j Hjlt Hne) as [Hlt | [Heq Hlt]].
  - rewrite Hjq in Hlt. exact (Qlt_not_le _ _ Hlt Hle0).
  - apply (Hmin i0 Hlt). now rewrite Heq.
Qed.

(** X5: with at least one elite slot and at least one score, the first
    agent of the array that selection returns is the agent at the first
    index of the maximal score: the very agent [updateBestAgent] records
    when that generation sets a new best.  A new best agent is therefore
    always carried into the next generation. *)
Theorem best_agent_is_carried_over (E : Env) (this : OakEvolutionLoop)
    (p : list IMetaAgent) (fitnessScores : list Q) :
  (1 <= eliteSize (config this))%nat ->
  fitnessScores <> [] ->
  returns_with (selectNextGeneration E this p fitnessScores)
    (fun next =>
       nth 0 next undefined
       = at_index p (indexOf (max_list fitnessScores) fitnessScores 0)).
Proof.
  intros Helite Hfs.
  destruct (best_index_is_first_elite Hfs) as (i0 & rest & Hsorted & Hidx).
  eapply returns_with_weaken; [apply selectNextGeneration_shape|].
  cbn beta. intros next [_ Hfirst].
  rewrite elite_firstn, Hsorted in Hfirst. rewrite Hidx. cbn [at_index].
  destruct (eliteSize (config this)) as [|e]; [lia|].
  destruct fitnessScores as [|f fs]; [congruence|].
  cbn [length Nat.min firstn map] in Hfirst.
  destruct next as [|x next]; [discriminate|]. now inversion Hfirst.
Qed.

Lemma best_agent_is_carried_over_witness :
  let this := new_loop Sim.eager in
  let p := [agent 0; agent 1; agent 2] in
  let fitnessScores := [1 # 3; 1 # 2; 1 # 2] in
  (1 <= eliteSize (config this))%nat /\
  fitnessScores <> [] /\
  returns_with (selectNextGeneration Sim.healthy this p fitnessScores)
    (fun next =>
       nth 0 next undefined
       = at_index p (indexOf (max_list fitnessScores) fitnessScores 0)).
Proof.
  intros this p fitnessScores.
  assert (H1 : (1 <= eliteSize (config this))%nat) by (cbn; lia).
  assert (H2 : fitnessScores <> []) by discriminate.
  split; [exact H1 | split; [exact H2|]].
  exact (@best_agent_is_carried_over Sim.healthy this p fitnessScores H1 H2).
Defined.

(** ** The synthetic experiences of the operators *)

Section Experiences.
Variable E : Env.

Ltac draw_in_range :=
  apply returns_with_bind with (P := fun r => 0 <= r /\ r < 1);
  [apply Math_random_range | intros ? [? ?]].

Lemma mutation_experience_shape i :
  returns_with (mutation_experience E i) mutation_shaped.
Proof.
  unfold mutation_experience. do 9 draw_in_range. apply returns_with_ret.
  unfold mutation_shaped, three_features; cbn.
  repeat split; try assumption; try lra; repeat constructor; cbn; assumption.
Qed.

Lemma crossover_experience_shape i :
  returns_with (crossover_experience E i) crossover_shaped.
Proof.
  unfold crossover_experience. do 9 draw_in_range. apply returns_with_ret.
  unfold crossover_shaped, three_features; cbn.
  repeat split; try assumption; try lra.
  - repeat constructor; cbn; assumption.
  - eexists _, _, _. split; [reflexivity|]. cbn. repeat split; try assumption; lra.
Qed.

Lemma experience_count (r : Q) (n : nat) (base : Z) :
  0 <= r -> r < 1 -> (0 < n)%nat -> (0 <= base)%Z ->
  (Z.to_nat base <= Z.to_nat (Qfloor (r * inject_Z (Z.of_nat n)) + base)
   <= Z.to_nat base + (n - 1))%nat.
Proof.
  intros H0 H1 Hn Hbase.
  pose proof (random_index_in_range H0 H1 Hn) as Hidx.
  assert (Hlo : (0 <= Qfloor (r * inject_Z (Z.of_nat n)))%Z).
  { change 0%Z with (Qfloor 0). apply Qfloor_resp_le.
    apply Qmult_le_0_compat; [assumption|].
    change 0 with (inject_Z 0). rewrite <- Zle_Qle. lia. }
  lia.
Qed.
End Experiences.

(** X6: [generateMutationExperiences] returns between one and five
    experiences; each is a non-terminal [mutate] step whose reward lies
    in [-0.05, 0.05) and whose two states carry the features
    exploration, adaptation and novelty with values in [0, 1). *)
Theorem mutation_experiences_shape (E : Env) :
  returns_with (generateMutationExperiences E)
    (fun xs => (1 <= length xs <= 5)%nat /\ Forall mutation_shaped xs).
Proof.
  unfold generateMutationExperiences.
  apply returns_with_bind with (P := fun r => 0 <= r /\ r < 1).
  { apply Math_random_range. }
  intros r [H0 H1]. eapply returns_with_weaken.
  - apply for_range_Forall. apply mutation_experience_shape.
  - cbn beta. intros xs [Hlen Hxs]. split; [|exact Hxs]. rewrite Hlen.
    apply (@experience_count r 5 1 H0 H1); lia.
Qed.


(** ** The evaluation harness in numbers *)

Lemma assessActionQuality_values (s : IState) (a : IAction) :
  3 # 10 <= assessActionQuality s a /\ assessActionQuality s a <= 1.
Proof.
  unfold assessActionQuality.
  destruct (gtb _ _ && Qltb _ _), (ltb _ _ && Qltb _ _), (includes _ _ || includes _ _);
    vm_compute; split; discriminate.
Qed.

Lemma max2_Fin (a b : Q) :
  exists y, max2 (Fin a) (Fin b) = Fin y /\ a <= y /\ b <= y /\ (y = a \/ y = b).
Proof.
  cbn. destruct (Qltb a b) eqn:H.
  - apply Qltb_lt in H. exists b. repeat split; [lra | lra | now right].
  - apply Qltb_ge in H. exists a. repeat split; [lra | lra | now left].
Qed.

Lemma min2_Fin (a b : Q) :
  exists y, min2 (Fin a) (Fin b) = Fin y /\ y <= a /\ y <= b /\ (y = a \/ y = b).
Proof.
  cbn. destruct (Qltb b a) eqn:H.
  - apply Qltb_lt in H. exists b. repeat split; [lra | lra | now right].
  - apply Qltb_ge in H. exists a. repeat split; [lra | lra | now left].
Qed.

Lemma clamp_low (x d : Q) :
  exists y, max2 (Fin 0) (plus_undefined (Some (Fin x)) d) = Fin y /\ 0 <= y.
Proof.
  cbn [plus_undefined add]. destruct (max2_Fin 0 (x + d)) as (y & -> & H0 & _).
  now exists y.
Qed.

Lemma clamp_unit (x d : Q) :
  exists y,
    max2 (Fin 0) (min2 (Fin 1) (plus_undefined (Some (Fin x)) d)) = Fin y /\
    0 <= y /\ y <= 1.
Proof.
  cbn [plus_undefined add]. destruct (min2_Fin 1 (x + d)) as (m & -> & Hm1 & _ & _).
  destruct (max2_Fin 0 m) as (y & -> & H0 & _ & [-> | ->]).
  - exists 0. repeat split; lra.
  - exists m. repeat split; lra.
Qed.

Lemma get_spread_set_same {A} (o : list (string * A)) (k : string) (v : A) :
  get k (spread_set o k v) = Some v.
Proof.
  induction o as [|[k' v'] o IH]; cbn.
  - now rewrite String.eqb_refl.
  - destruct (String.eqb k k') eqn:Hk; cbn; rewrite ?String.eqb_refl, ?Hk; auto.
Qed.

Lemma get_spread_set_other {A} (o : list (string * A)) (k k' : string) (v : A) :
  k' <> k -> get k' (spread_set o k v) = get k' o.
Proof.
  intros Hne. induction o as [|[k0 v0] o IH]; cbn.
  - apply String.eqb_neq in Hne. now rewrite Hne.
  - destruct (String.eqb k k0) eqn:Hk; cbn.
    + apply String.eqb_eq in Hk. subst k0.
      apply String.eqb_neq in Hne. now rewrite Hne.
    + destruct (String.eqb k' k0); [reflexivity | exact IH].
Qed.

Section Harness.
Variable E : Env.

Ltac draw_in_range :=
  apply returns_with_bind with (P := fun r => 0 <= r /\ r < 1);
  [apply Math_random_range | intros ? [? ?]].

Ltac draw_as r :=
  apply returns_with_bind with (P := fun r => 0 <= r /\ r < 1);
  [apply Math_random_range | intros r [? ?]].

Lemma generateRandomState_shape :
  returns_with (generateRandomState E) evaluation_state.
Proof.
  unfold generateRandomState.
  apply returns_with_bind with (P := fun _ => True).
  { intros w. now exists (date_now E w), w. }
  intros now _. do 7 draw_in_range. apply returns_with_ret.
  eexists _, _, _, _, _. split; [reflexivity|]. repeat split; lra.
Qed.

Lemma simulateEnvironmentStep_shape (s : IState) (a : IAction) :
  evaluation_state s ->
  returns_with (simulateEnvironmentStep E s a)
    (fun out =>
       evaluation_state (fst out) /\
       s_id (fst out) = next_ (s_id s) /\
       get "previous_action" (s_context (fst out)) = Some (JStr (a_type a)) /\
       (forall k, k <> "previous_action"%string ->
                  get k (s_context (fst out)) = get k (s_context s))).
Proof.
  intros (cl & cx & nl & ra & tp & Hfeatures & Hcl & Hcx & Hnl & Hra & Htp).
  unfold simulateEnvironmentStep. draw_in_range.
  draw_as d1. draw_as d2. draw_as d3. draw_as d4. draw_as d5.
  apply returns_with_ret.
  cbn [fst s_id s_context s_features]. rewrite Hfeatures. cbn [get String.eqb].
  repeat split.
  - cbn.
    match goal with
    | |- evaluation_state ?st => unfold evaluation_state; cbn [s_features]
    end.
    destruct (clamp_low cl ((d1 - (5 # 10)) * (2 # 10))) as (y1 & Hy1 & ?).
    destruct (clamp_low cx ((d2 - (5 # 10)) * (1 # 10))) as (y2 & Hy2 & ?).
    destruct (clamp_unit nl ((d3 - (5 # 10)) * (1 # 10))) as (y3 & Hy3 & ? & ?).
    destruct (clamp_unit ra ((d4 - (5 # 10)) * (15 # 100))) as (y4 & Hy4 & ? & ?).
    destruct (clamp_unit tp ((d5 - (5 # 10)) * (1 # 10))) as (y5 & Hy5 & ? & ?).
    exists y1, y2, y3, y4, y5.
    split; [|repeat split; assumption].
    cbn [plus_undefined] in *. repeat f_equal; assumption.
  - apply get_spread_set_same.
  - intros k Hk. now apply get_spread_set_other.
Qed.

Lemma simulateEnvironmentStep_reward (s : IState) (a : IAction) :
  returns_with (simulateEnvironmentStep E s a)
    (fun out => - (1) <= r_value (snd out) /\ r_value (snd out) < 1).
Proof.
  unfold simulateEnvironmentStep. do 6 draw_in_range. apply returns_with_ret.
  cbn [snd r_value].
  destruct (assessActionQuality_values s a) as [Hlo Hhi].
  set (q := assessActionQuality s a) in *. clearbody q.
  split; nra.
Qed.
End Harness.

Section Fitness.
Variable E : Env.
Variable this : OakEvolutionLoop.

Lemma evaluation_loop_bounds a remaining :
  forall step total s w t s' w',
    evaluation_loop E this a remaining step total s w = (Ok (t, s'), w') ->
    (evaluation_state s -> evaluation_state s') /\
    total - inject_Z (Z.of_nat remaining) <= t /\
    t <= total + inject_Z (Z.of_nat remaining).
Proof.
  induction remaining as [|remaining IH]; intros step total s w t s' w' H.
  - cbn in H. inversion H; subst. change (inject_Z (Z.of_nat 0)) with 0.
    repeat split; [tauto | lra | lra].
  - cbn [evaluation_loop] in H.
    apply bind_Ok_inv in H. destruct H as (action & w1 & _ & H).
    apply bind_Ok_inv in H. destruct H as ([nextState reward] & w2 & Hsim & H).
    apply bind_Ok_inv in H. destruct H as (u & w3 & _ & H).
    apply IH in H. destruct H as (Hstate & Hlo & Hhi).
    pose proof (returns_with_run (simulateEnvironmentStep_reward E s action) _ Hsim)
      as [Hr1 Hr2].
    cbn [snd] in Hr1, Hr2.
    rewrite Nat2Z.inj_succ, <- Z.add_1_r, inject_Z_plus.
    change (inject_Z 1) with 1.
    repeat split; [| lra | lra].
    intros Hs. apply Hstate.
    exact (proj1 (returns_with_run (simulateEnvironmentStep_shape E action Hs) _ Hsim)).
Qed.

Lemma evaluation_body_bounds a w f w' :
  0 <= diversityWeight (config this) ->
  evaluation_body E this a w = (Ok f, w') ->
  - (1) <= f /\ f < (11 # 10) + (5 # 100) * diversityWeight (config this).
Proof.
  intros Hdw H. unfold evaluation_body in H.
  apply bind_Ok_inv in H. destruct H as (s0 & w1 & _ & H).
  apply bind_Ok_inv in H. destruct H as ([t s'] & w2 & Hloop & H).
  apply bind_Ok_inv in H. destruct H as (c & w3 & Hc & H).
  apply bind_Ok_inv in H. destruct H as (d & w4 & Hd & H).
  inversion H; subst f w4; clear H.
  apply evaluation_loop_bounds in Hloop. destruct Hloop as (_ & Hlo & Hhi).
  unfold calculateComplexityBonus in Hc.
  apply bind_Ok_inv in Hc. destruct Hc as (r1 & w5 & Hr1 & Hc).
  inversion Hc; subst c w5; clear Hc.
  unfold calculateDiversityBonus in Hd.
  apply bind_Ok_inv in Hd. destruct Hd as (r2 & w6 & Hr2 & Hd).
  inversion Hd; subst d w6; clear Hd.
  apply (returns_with_run (Math_random_range E)) in Hr1, Hr2.
  destruct Hr1 as [Hr1 Hr1'], Hr2 as [Hr2 Hr2'].
  cbn [fst]. change (inject_Z (Z.of_nat evaluationSteps)) with 10 in *.
  set (dw := diversityWeight (config this)) in *. clearbody dw.
  assert (Hdiv : - (1) <= t / 10 /\ t / 10 <= 1).
  { unfold Qdiv. change (/ 10) with (1 # 10). lra. }
  destruct Hdiv as [Hd1 Hd2].
  assert (Hbonus : 0 <= r2 * (5 # 100) * dw /\ r2 * (5 # 100) * dw <= (5 # 100) * dw)
    by (split; nra).
  change (t / inject_Z 10) with (t / 10).
  split; lra.
Qed.
End Fitness.

(** X8: every fitness is at least -1, the score of a failed evaluation,
    and below [1.1 + 0.05 * diversityWeight], provided the diversity
    weight is not negative: a failed evaluation never scores above a
    successful one. *)
Theorem fitness_bounds (E : Env) (this : OakEvolutionLoop) (a : IMetaAgent) :
  0 <= diversityWeight (config this) ->
  returns_with (evaluateAgent E this a)
    (fun f => - (1) <= f /\ f < (11 # 10) + (5 # 100) * diversityWeight (config this)).
Proof.
  intros Hdw. unfold evaluateAgent. apply returns_with_try_catch.
  - apply evaluation_body_settles.
  - intros w f w' H. exact (@evaluation_body_bounds E this a w f w' Hdw H).
  - intros e. apply returns_with_ret. split; lra.
Qed.

Lemma fitness_bounds_witness :
  let this := new_loop Sim.eager in
  0 <= diversityWeight (config this) /\
  returns_with (evaluateAgent Sim.healthy this (agent 0))
    (fun f => - (1) <= f /\ f < (11 # 10) + (5 # 100) * diversityWeight (config this)).
Proof.
  intros this.
  assert (H : 0 <= diversityWeight (config this)) by (cbn; discriminate).
  split; [exact H|].
  exact (@fitness_bounds Sim.healthy this (agent 0) H).
Defined.

(** X9: the evaluation harness works on well-formed states only:
    [generateRandomState] yields the five features with finite values in
    range, [simulateEnvironmentStep] keeps them so (the first two
    non-negative, the other three in [0, 1]), names the next state after
    the current one, records the action's type as [previous_action] and
    keeps every other context entry; the reward of a step lies in
    [-1, 1) and the action quality in [0.3, 1]. *)
Theorem evaluation_harness_keeps_states_in_range (E : Env) :
  returns_with (generateRandomState E) evaluation_state /\
  (forall s a,
     evaluation_state s ->
     returns_with (simulateEnvironmentStep E s a)
       (fun out =>
          evaluation_state (fst out) /\
          s_id (fst out) = next_ (s_id s) /\
          get "previous_action" (s_context (fst out)) = Some (JStr (a_type a)) /\
          (forall k, k <> "previous_action"%string ->
                     get k (s_context (fst out)) = get k (s_context s)))) /\
  (forall s a,
     returns_with (simulateEnvironmentStep E s a)
       (fun out => - (1) <= r_value (snd out) /\ r_value (snd out) < 1)) /\
  (forall s a, 3 # 10 <= assessActionQuality s a /\ assessActionQuality s a <= 1).
Proof.
  split; [apply generateRandomState_shape|].
  split; [intros s a; apply simulateEnvironmentStep_shape|].
  split; [intros s a; apply simulateEnvironmentStep_reward|].
  apply assessActionQuality_values.
Qed.

Lemma evaluation_harness_keeps_states_in_range_witness :
  let act := {| a_type := "adapt"; a_parameters := [] |} in
  exists s,
    evaluation_state s /\
    returns_with (simulateEnvironmentStep Sim.healthy s act)
      (fun out => evaluation_state (fst out)).
Proof.
  intros act.
  destruct (proj1 (evaluation_harness_keeps_states_in_range Sim.healthy) Sim.start)
    as (s & w' & _ & Hs).
  exists s. split; [exact Hs|].
  eapply returns_with_weaken.
  - exact (proj1 (proj2 (evaluation_harness_keeps_states_in_range Sim.healthy))
             s act Hs).
  - cbn beta. intros out H. exact (proj1 H).
Defined.

(** X10: evaluation needs a working [learn] as much as a working [act]:
    an agent whose [learn] rejects every time scores -1, and so does an
    [undefined] slot. *)
Theorem unable_to_learn_scores_minus_one (E : Env) (this : OakEvolutionLoop) (i : nat) :
  (forall x w, exists e w', agent_learn E i x w = (Rejects e, w')) ->
  returns_with (evaluateAgent E this (agent i)) (fun f => f = - (1)) /\
  returns_with (evaluateAgent E this undefined) (fun f => f = - (1)).
Proof.
  intros Hlearn. split; unfold evaluateAgent; apply returns_with_try_catch;
    try apply evaluation_body_settles;
    try (intros e; now apply returns_with_ret);
    intros w f w' H; exfalso; unfold evaluation_body in H;
    apply bind_Ok_inv in H; destruct H as (s0 & w1 & _ & H);
    apply bind_Ok_inv in H; destruct H as (after & w2 & H & _);
    unfold evaluationSteps in H; cbn [evaluation_loop] in H;
    apply bind_Ok_inv in H; destruct H as (action & w3 & Hact & H).
  - apply bind_Ok_inv in H. destruct H as ([nextState reward] & w4 & _ & H).
    apply bind_Ok_inv in H. destruct H as (u & w5 & H & _).
    cbn in H. unfold settle in H.
    match type of H with
    | context [agent_learn E i ?x ?w] => destruct (Hlearn x w) as (e & w6 & Hrej)
    end.
    rewrite Hrej in H. discriminate.
  - discriminate.
Qed.

Lemma unable_to_learn_scores_minus_one_witness :
  let this := new_loop Sim.eager in
  (forall x w, exists e w', agent_learn (Sim.broken 1) 1 x w = (Rejects e, w')) /\
  returns_with (evaluateAgent (Sim.broken 1) this (agent 1)) (fun f => f = - (1)).
Proof.
  intros this.
  assert (H : forall x w, exists e w',
                agent_learn (Sim.broken 1) 1 x w = (Rejects e, w')).
  { intros x w. exists (AgentError 1), w. reflexivity. }
  split; [exact H|].
  exact (proj1 (@unable_to_learn_scores_minus_one (Sim.broken 1) this 1%nat H)).
Defined.

(** ** The turns of the loop, by their calls *)

Lemma hasConverged_fields this this' :
  config this' = config this -> metrics this' = metrics this ->
  hasConverged this' = hasConverged this.
Proof. intros Hc Hm. unfold hasConverged. now rewrite Hc, Hm. Qed.

Section Turn.
Variable E : Env.

Lemma generation_body_turn this w :
  exists newGeneration fitnessScores stops exit this' w',
    generation_body E (this, w) = (Ok exit, (this', w')) /\
    generation_turn E this newGeneration fitnessScores stops exit this'.
Proof.
  unfold generation_body.
  erewrite step_lift by reflexivity.
  rewrite !step_read, !step_console_log, step_await.
  set (t0 := write_log oakCycleLog _).
  destruct (executeOakCycle_returns E t0 w) as (newGen & w1 & HnewGen & _).
  erewrite step_lift by exact HnewGen.
  rewrite step_suspend.
  destruct (external_calls E w1) as [b1 w2] eqn:H1. cbn [fst snd].
  set (t1 := if b1 then stop t0 else t0).
  rewrite step_await, bind_assoc.
  destruct (evaluatePopulation_returns E t1 newGen w2) as (scores & w3 & Hsc & _).
  erewrite step_lift by exact Hsc.
  rewrite bind_assoc, step_console_log, step_ret, step_suspend.
  destruct (external_calls E w3) as [b2 w4] eqn:H2. cbn [fst snd].
  set (t2 := if b2 then stop _ else _).
  exists newGen, scores.
  rewrite step_await. unfold updateBestAgent. rewrite bind_assoc, step_read.
  assert (Hbest2 : bestFitness t2 = bestFitness this) by (subst t2 t1 t0; fields; reflexivity).
  rewrite Hbest2.
  set (c := gtb (max_list scores) (bestFitness this)).
  set (best := at_index newGen (indexOf (max_list scores) scores 0)).
  set (nb := newBestAgentEvent best (max_list scores)
               (generation (set_best best (max_list scores) t2))).
  destruct (external_calls E w4) as [b3 w4'] eqn:H3.
  set (t3 := if c
             then if b3
                  then stop (write_log nb (set_best best (max_list scores) t2))
                  else write_log nb (set_best best (max_list scores) t2)
             else t2).
  set (w5 := if c then w4' else w4).
  match goal with
  | |- context [bind (if c then ?m1 else ?m2) ?k (t2, w4)] =>
      assert (Hupd : bind (if c then m1 else m2) k (t2, w4) = k tt (t3, w5))
        by (subst t3 w5; destruct c;
            [rewrite bind_assoc, step_update, bind_assoc, step_read, step_emit, H3
            | rewrite step_ret];
            reflexivity)
  end.
  rewrite Hupd; clear Hupd.
  rewrite step_suspend.
  destruct (external_calls E w5) as [b4 w6] eqn:H4. cbn [fst snd].
  set (t4 := if b4 then stop t3 else t3).
  erewrite step_lift by reflexivity.
  rewrite step_read, step_update, step_emit.
  set (m := calculateMetrics E t4 scores _).
  destruct (external_calls E w6) as [b5 w7] eqn:H5. cbn [fst snd].
  set (t5 := if b5 then stop _ else _).
  rewrite step_read.
  set (stops5 := w1 :: w3 :: (if c then [w4] else []) ++ [w5; w6]).
  assert (Ht4 : generation t4 = generation this /\ metrics t4 = metrics this).
  { subst t4 t3 t2 t1 t0. destruct c; fields; now split. }
  assert (Hm : m = calculateMetrics E this scores (date_now E w6 - date_now E w)).
  { subst m. now apply calculateMetrics_fields. }
  assert (Hcycle : config t0 = config this /\ population t0 = population this)
    by (subst t0; now split).
  assert (Heval : config t1 = config this) by (subst t1 t0; fields; reflexivity).
  assert (F5 : config t5 = config this /\ population t5 = population this /\
               generation t5 = generation this /\
               metrics t5 = metrics this ++ [m] /\
               bestAgent t5 = (if c then Some best else bestAgent this) /\
               isRunning t5
               = isRunning this
                 && forallb (fun w => negb (fst (external_calls E w))) stops5).
  { subst stops5. clearbody m. subst t5 t4 t3 t2 t1 t0.
    destruct c; fields; cbn [app forallb];
      rewrite ?H1, ?H2, ?H3, ?H4, ?H5; cbn [fst];
      (repeat split; try reflexivity);
      destruct b1, b2, b3, b4, b5, (isRunning this); reflexivity. }
  destruct F5 as (Hc5 & Hp5 & Hg5 & Hm5 & Hba5 & Hrun5).
  assert (Hexit : hasConverged t5 = hasConverged (push_metrics m this))
    by (apply hasConverged_fields; [exact Hc5 | exact Hm5]).
  clearbody t5.
  destruct (hasConverged t5) eqn:Hconv.
  - exists stops5, true, (write_log convergedLog t5), w7.
    split; [reflexivity|].
    constructor;
      cbn [log metrics bestFitness bestAgent config generation population
           isRunning write_log];
      try assumption.
    + exists t0, w, w1. tauto.
    + exists t1, w2, w3. tauto.
    + eexists. rewrite Hm5, Hm. reflexivity.
    + exists m. now split.
  - rewrite step_await.
    destruct (selectNextGeneration_shape E t5 newGen scores w7)
      as (next & w8 & Hnext & _).
    erewrite step_lift by exact Hnext.
    rewrite step_suspend.
    destruct (external_calls E w8) as [b6 w9] eqn:H6. cbn [fst snd].
    rewrite !step_update.
    eexists (stops5 ++ [w8]), false, _, w9.
    split; [reflexivity|].
    constructor; fields; try assumption.
    + exists t0, w, w1. tauto.
    + exists t1, w2, w3. tauto.
    + eexists. rewrite Hm5, Hm. reflexivity.
    + exists m. now split.
    + now rewrite Hg5.
    + exists t5, w7, w8. now split.
    + rewrite forallb_app, Hrun5. cbn [forallb]. rewrite H6. cbn [fst].
      now rewrite andb_true_r, andb_assoc.
Qed.
End Turn.

Section LoopRule.
Variable E : Env.
Variables I Q : OakEvolutionLoop -> Prop.

Hypothesis leave : forall this, I this -> loop_condition this = false -> Q this.
Hypothesis turn :
  forall this newGeneration fitnessScores stops exit this',
    I this -> loop_condition this = true ->
    generation_turn E this newGeneration fitnessScores stops exit this' ->
    if exit then Q this' else I this'.

(** The loop, entered under the invariant [I], ends in a state of [Q]. *)
Lemma generations_rule fuel : forall this w,
  (generationLimit (config this) - generation this <= fuel)%nat ->
  I this ->
  exists this' w', generations E fuel (this, w) = (Ok tt, (this', w')) /\ Q this'.
Proof.
  induction fuel as [|fuel IH]; intros this w Hfuel HI;
    cbn [generations fst]; fold (loop_condition this).
  - assert (Hc : loop_condition this = false).
    { unfold loop_condition. destruct (Nat.ltb_spec (generation this)
        (generationLimit (config this))); [lia | apply andb_false_r]. }
    rewrite Hc. exists this, w. split; [reflexivity | now apply leave].
  - destruct (loop_condition this) eqn:Hc.
    + destruct (generation_body_turn E this w)
        as (newGen & scores & stops & exit & this1 & w1 & Hbody & Hturn).
      unfold bind at 1. rewrite Hbody.
      pose proof (turn HI Hc Hturn) as Hnext. destruct exit.
      * exists this1, w1. now split.
      * apply IH; [|exact Hnext].
        rewrite (gt_config Hturn), (gt_generation Hturn). lia.
    + exists this, w. split; [reflexivity | now apply leave].
Qed.

(** [run] returns the tracked agent of the state in which the loop
    ended. *)
Lemma run_rule initialPopulation this w :
  I (entry_state initialPopulation (fst (external_calls E w)) this) ->
  exists this1 stopCalled w',
    run E initialPopulation (this, w)
    = (Ok (bestAgent this1), (return_state stopCalled this1, w')) /\
    Q this1.
Proof.
  intros HI. unfold run. rewrite !step_update, step_read, step_emit.
  destruct (external_calls E w) as [b0 w0]. cbn [fst snd] in *.
  cbn [config set_generation set_population set_isRunning].
  fold (entry_state initialPopulation b0 this).
  set (start := entry_state initialPopulation b0 this) in *.
  destruct (@generations_rule (generationLimit (config this)) start w0)
    as (this1 & w1 & Hloop & HQ); [|exact HI|].
  { unfold start, entry_state. destruct b0; cbn; lia. }
  unfold try_finally, try_catch.
  unfold bind at 1. rewrite Hloop.
  rewrite step_read, step_emit.
  destruct (external_calls E w1) as [b1 w2]. cbn [fst snd].
  exists this1, b1, w2. split; [|exact HQ].
  unfold read. cbn [fst snd]. unfold return_state. now destruct b1.
Qed.
End LoopRule.

Lemma entry_state_fields initialPopulation b this :
  config (entry_state initialPopulation b this) = config this /\
  population (entry_state initialPopulation b this) = initialPopulation /\
  generation (entry_state initialPopulation b this) = 0%nat /\
  bestAgent (entry_state initialPopulation b this) = bestAgent this /\
  bestFitness (entry_state initialPopulation b this) = bestFitness this /\
  metrics (entry_state initialPopulation b this) = metrics this /\
  isRunning (entry_state initialPopulation b this) = negb b.
Proof. unfold entry_state. destruct b; cbn; repeat split. Qed.

Lemma return_state_fields b this1 :
  config (return_state b this1) = config this1 /\
  population (return_state b this1) = population this1 /\
  generation (return_state b this1) = generation this1 /\
  bestAgent (return_state b this1) = bestAgent this1 /\
  bestFitness (return_state b this1) = bestFitness this1 /\
  metrics (return_state b this1) = metrics this1 /\
  isRunning (return_state b this1) = false.
Proof. unfold return_state. destruct b; cbn; repeat split. Qed.

(** ** Where the returned agent comes from *)

Lemma gtb_max_list_nonempty (fs : list Q) (b : num) :
  gtb (max_list fs) b = true -> fs <> [].
Proof. intros H ->. cbn in H. destruct b; discriminate. Qed.

Lemma best_of_generation (p : list IMetaAgent) (fs : list Q) :
  length fs = length p -> fs <> [] ->
  In (at_index p (indexOf (max_list fs) fs 0)) p.
Proof.
  intros Hlen Hfs.
  destruct (max_list_spec fs) as [[[Hnil _] | (q & Hq & ->)] _]; [congruence|].
  destruct (indexOf_max fs q 0 Hq) as (j & -> & Hj & _).
  cbn [Nat.add at_index]. apply nth_In. lia.
Qed.

Section Origin.
Variable E : Env.
Variables (initialPopulation : list IMetaAgent) (this0 : OakEvolutionLoop).

Local Abbreviation from_start := (from_start initialPopulation this0).

Lemma from_start_turn this newGeneration fitnessScores stops exit this' :
  from_start this ->
  generation_turn E this newGeneration fitnessScores stops exit this' ->
  from_start this'.
Proof.
  intros (Hc & Hpop & Hsize & Hbest) Hturn.
  destruct (gt_cycle Hturn) as (t & w & w1 & Htc & Htp & Hcycle).
  destruct (gt_scores Hturn) as (t1 & w2 & w3 & _ & Heval).
  destruct (returns_with_run (executeOakCycle_returns E t) _ Hcycle) as [Hlen Hmem].
  pose proof (returns_with_run (evaluatePopulation_returns E t1 newGeneration) _ Heval)
    as Hscores.
  cbn beta in Hscores. rewrite Htp in Hlen, Hmem.
  assert (Hnew : Forall (fun x => In x initialPopulation) newGeneration).
  { rewrite Forall_forall in *. intros x Hx. apply Hpop. now apply Hmem. }
  assert (Hne : newGeneration <> [] \/ populationSize (config this0) = 0%nat).
  { destruct Hsize as [Hp | Hz]; [left | now right].
    intros ->. destruct (population this); [congruence | discriminate]. }
  unfold from_start. rewrite (gt_config Hturn). split; [exact Hc|].
  assert (Hpop' : Forall (fun x => In x initialPopulation) (population this') /\
                  (population this' <> [] \/ populationSize (config this0) = 0%nat)).
  { pose proof (gt_population Hturn) as Hp. destruct exit.
    - rewrite Hp. now split.
    - destruct Hp as (t2 & w4 & w5 & Ht2 & Hsel).
      assert (Hne2 : newGeneration <> [] \/ populationSize (config t2) = 0%nat)
        by (rewrite Ht2, Hc; exact Hne).
      pose proof (returns_with_run
                    (@selectNextGeneration_members E t2 newGeneration fitnessScores
                       Hscores Hne2) _ Hsel) as Hin.
      pose proof (returns_with_run
                    (selectNextGeneration_shape E t2 newGeneration fitnessScores)
                    _ Hsel) as [Hshape _].
      cbn beta in Hin. split.
      + rewrite Forall_forall in *. intros x Hx. apply Hnew. now apply Hin.
      + destruct (Nat.eq_dec (populationSize (config this0)) 0) as [Hz | Hnz];
          [now right | left].
        intros Hnil. rewrite Hnil, Ht2, Hc in Hshape. cbn [length] in Hshape. lia. }
  destruct Hpop' as [Hp1 Hp2]. repeat split; try assumption.
  rewrite (gt_bestAgent Hturn).
  destruct (gtb (max_list fitnessScores) (bestFitness this)) eqn:Hgt;
    [right | exact Hbest].
  eexists. split; [reflexivity|].
  rewrite Forall_forall in Hnew. apply Hnew.
  apply best_of_generation; [exact Hscores|].
  exact (@gtb_max_list_nonempty _ _ Hgt).
Qed.

Lemma run_from_start w :
  initialPopulation <> [] \/ populationSize (config this0) = 0%nat ->
  exists this1 stopCalled w',
    run E initialPopulation (this0, w)
    = (Ok (bestAgent this1), (return_state stopCalled this1, w')) /\
    from_start this1.
Proof.
  intros Hsize. apply run_rule with (I := from_start).
  - tauto.
  - intros this newGeneration fitnessScores stops exit this' HI _ Hturn.
    pose proof (from_start_turn HI Hturn). now destruct exit.
  - destruct (entry_state_fields initialPopulation (fst (external_calls E w)) this0)
      as (Hc & Hp & _ & Hb & _).
    unfold from_start. rewrite Hc, Hp, Hb. repeat split; try tauto.
    apply Forall_forall. tauto.
Qed.
End Origin.

(** X11: the agent returned by [run] is one of the agents it was given,
    unless no generation improved on the best fitness kept from before,
    in which case it is the best agent kept from before; the population
    left in the object is made of the given agents too.  This holds
    for a non-empty initial population (or a population size of 0). *)
Theorem run_returns_given_agent (E : Env) (initialPopulation : list IMetaAgent)
    (this : OakEvolutionLoop) (w : World E) :
  initialPopulation <> [] \/ populationSize (config this) = 0%nat ->
  exists result this' w',
    run E initialPopulation (this, w) = (Ok result, (this', w')) /\
    (result = bestAgent this \/ exists a, result = Some a /\ In a initialPopulation) /\
    bestAgent this' = result /\
    Forall (fun x => In x initialPopulation) (population this').
Proof.
  intros Hsize.
  destruct (@run_from_start E initialPopulation this w Hsize)
    as (this1 & b & w' & Hrun & _ & Hpop & _ & Hbest).
  destruct (return_state_fields b this1) as (_ & Hp & _ & Hb & _).
  exists (bestAgent this1), (return_state b this1), w'.
  rewrite Hp, Hb. repeat split; assumption.
Qed.

Lemma run_returns_given_agent_witness :
  let this := new_loop Sim.eager in
  ([agent 0; agent 1] <> [] \/ populationSize (config this) = 0%nat) /\
  exists result this' w',
    run Sim.healthy [agent 0; agent 1] (this, Sim.start) = (Ok result, (this', w')) /\
    (result = bestAgent this \/
     exists a, result = Some a /\ In a [agent 0; agent 1]) /\
    bestAgent this' = result /\
    Forall (fun x => In x [agent 0; agent 1]) (population this').
Proof.
  intros this.
  assert (H : [agent 0; agent 1] <> [] \/ populationSize (config this) = 0%nat)
    by (left; discriminate).
  split; [exact H|].
  exact (@run_returns_given_agent Sim.healthy [agent 0; agent 1] this Sim.start H).
Defined.

(** ** The metrics history *)

Section History.
Variable E : Env.
Variables (initialPopulation : list IMetaAgent) (this0 : OakEvolutionLoop).

Local Abbreviation numbered := (numbered this0).

Lemma numbered_turn this newGeneration fitnessScores stops exit this' :
  numbered false this -> loop_condition this = true ->
  generation_turn E this newGeneration fitnessScores stops exit this' ->
  numbered exit this'.
Proof.
  intros (Hc & Hg & ms & Hms & Hnum & Hlim & Hlen) Hcond Hturn.
  assert (Hlt : (generation this < generationLimit (config this0))%nat).
  { unfold loop_condition in Hcond. apply andb_true_iff in Hcond.
    destruct Hcond as [_ Hcond]. apply Nat.ltb_lt in Hcond. now rewrite <- Hc. }
  destruct (gt_metrics Hturn) as (runtime & Hm).
  unfold numbered. rewrite (gt_config Hturn). split; [exact Hc|].
  split; [rewrite (gt_generation Hturn); destruct exit; lia|].
  exists (ms ++ [calculateMetrics E this fitnessScores runtime]).
  rewrite Hm, Hms, <- app_assoc, map_app, length_app, Hnum. cbn [map length].
  rewrite Nat.add_1_r, seq_S. cbn [m_generation calculateMetrics Nat.add].
  rewrite Hlen. repeat split; [lia|].
  rewrite (gt_generation Hturn). destruct exit; [split; [reflexivity|] | reflexivity].
  destruct (gt_exit Hturn) as (m & Hexit & Hm').
  rewrite Hexit. apply hasConverged_fields; [apply (gt_config Hturn) | exact Hm'].
Qed.

Lemma run_numbered w :
  exists this1 stopCalled w',
    run E initialPopulation (this0, w)
    = (Ok (bestAgent this1), (return_state stopCalled this1, w')) /\
    exists converged, numbered converged this1.
Proof.
  apply run_rule with (I := numbered false).
  - intros this H _. now exists false.
  - intros this newGeneration fitnessScores stops exit this' HI Hcond Hturn.
    pose proof (numbered_turn HI Hcond Hturn) as H.
    destruct exit; [now exists true | exact H].
  - destruct (entry_state_fields initialPopulation (fst (external_calls E w)) this0)
      as (Hc & _ & Hg & _ & _ & Hm & _).
    unfold numbered. rewrite Hc, Hg, Hm. repeat split; [lia|].
    exists []. rewrite app_nil_r. repeat split. cbn. lia.
Qed.
End History.

(** X12: [run] appends one metrics entry per generation it executes to
    the history the object already holds, numbered from 0, and never
    clears that history; it executes at most [generationLimit]
    generations; the generation counter it leaves equals the number of
    entries appended, except after convergence, where it is one less (and
    [hasConverged] holds of the state left); [isRunning] is reset. *)
Theorem run_appends_metrics (E : Env) (initialPopulation : list IMetaAgent)
    (this : OakEvolutionLoop) (w : World E) :
  exists result this' w' ms,
    run E initialPopulation (this, w) = (Ok result, (this', w')) /\
    metrics this' = metrics this ++ ms /\
    map m_generation ms = seq 0 (length ms) /\
    (length ms <= generationLimit (config this))%nat /\
    (length ms = generation this' \/
     (length ms = S (generation this') /\ hasConverged this' = true)) /\
    isRunning this' = false.
Proof.
  destruct (run_numbered E initialPopulation this w)
    as (this1 & b & w' & Hrun & converged & Hc & _ & ms & Hms & Hnum & Hlim & Hlen).
  destruct (return_state_fields b this1) as (Hc' & _ & Hg' & _ & _ & Hm' & Hr').
  exists (bestAgent this1), (return_state b this1), w', ms.
  rewrite Hm', Hg'. repeat split; try assumption.
  destruct converged; [right | now left].
  destruct Hlen as [Hlen Hconv]. split; [exact Hlen|].
  rewrite <- Hconv. now apply hasConverged_fields.
Qed.

(** ** Runs that nobody stops *)

Lemma not_negative_add (a b : num) :
  not_negative a -> not_negative b -> not_negative (add a b).
Proof.
  destruct a, b; cbn; try tauto. intros Ha Hb.
  setoid_replace 0 with (0 + 0) by reflexivity. now apply Qplus_le_compat.
Qed.

Lemma not_negative_sum (rates : list num) : forall acc,
  not_negative acc -> Forall not_negative rates ->
  not_negative (fold_left add rates acc).
Proof.
  induction rates as [|r rates IH]; intros acc Hacc Hall; [exact Hacc|].
  inversion Hall; subst. cbn [fold_left]. apply IH; [|assumption].
  now apply not_negative_add.
Qed.

Lemma not_negative_div_len (a : num) (n : nat) :
  not_negative a -> not_negative (div_len a n).
Proof.
  destruct a; cbn; try tauto; destruct n; cbn [div_len]; try tauto.
  - intros H. destruct (Qltb 0 q) eqn:H1; [exact I|].
    destruct (Qltb q 0) eqn:H2; [|exact I].
    apply Qltb_lt in H2. exfalso. apply (Qlt_not_le _ _ H2 H).
  - intros H. cbn [not_negative]. apply Qle_shift_div_l.
    + change 0 with (inject_Z 0). rewrite <- Zlt_Qlt. lia.
    + now rewrite Qmult_0_l.
Qed.

Lemma not_negative_ltb (a : num) (threshold : Q) :
  not_negative a -> threshold <= 0 -> ltb a (Fin threshold) = false.
Proof.
  destruct a; cbn; try tauto. intros Ha Ht.
  apply Qltb_ge. now apply Qle_trans with 0.
Qed.

Lemma calculateConvergenceRate_not_negative (this : OakEvolutionLoop) :
  not_negative (calculateConvergenceRate this).
Proof.
  unfold calculateConvergenceRate.
  destruct (rev (metrics this)) as [|current [|previous rest]];
    try (cbn; apply Qle_refl).
  destruct (sub (m_bestFitness current) (m_bestFitness previous)); cbn;
    try exact I. apply Qabs_nonneg.
Qed.

(** With a threshold that is not positive, rates that are never negative
    cannot average below it. *)
Lemma hasConverged_never (this : OakEvolutionLoop) :
  convergenceThreshold (config this) <= 0 ->
  Forall rate_not_negative (metrics this) ->
  hasConverged this = false.
Proof.
  intros Ht Hall. unfold hasConverged.
  destruct (length (metrics this) <? 5)%nat; [reflexivity|].
  cbn zeta. apply not_negative_ltb; [|exact Ht].
  apply not_negative_div_len, not_negative_sum; [cbn; apply Qle_refl|].
  apply Forall_map.
  rewrite <- (firstn_skipn (length (metrics this) - 5) (metrics this)) in Hall.
  apply Forall_app in Hall. tauto.
Qed.

Lemma hasConverged_short (this : OakEvolutionLoop) :
  (length (metrics this) < 5)%nat -> hasConverged this = false.
Proof.
  intros H. unfold hasConverged. apply Nat.ltb_lt in H. now rewrite H.
Qed.

Section Undisturbed.
Variable E : Env.
Variables (initialPopulation : list IMetaAgent) (this0 : OakEvolutionLoop).
Hypothesis quiet : never_stopped E.

Local Abbreviation undisturbed := (undisturbed this0).

Lemma quiet_stops (stops : list (World E)) :
  forallb (fun w => negb (fst (external_calls E w))) stops = true.
Proof.
  apply forallb_forall. intros w _. now rewrite quiet.
Qed.

Lemma undisturbed_turn this newGeneration fitnessScores stops exit this' :
  undisturbed this -> loop_condition this = true ->
  generation_turn E this newGeneration fitnessScores stops exit this' ->
  exit = false /\ undisturbed this'.
Proof.
  intros (Hc & Hrun & Hg & Hlen & Hcase) Hcond Hturn.
  assert (Hlt : (generation this < generationLimit (config this0))%nat).
  { unfold loop_condition in Hcond. apply andb_true_iff in Hcond.
    destruct Hcond as [_ Hcond]. apply Nat.ltb_lt in Hcond. now rewrite <- Hc. }
  destruct (gt_metrics Hturn) as (runtime & Hm).
  destruct (gt_exit Hturn) as (m & Hexit & Hm').
  assert (Hcase' : (convergenceThreshold (config this0) <= 0 /\
                    Forall rate_not_negative (metrics this')) \/
                   (length (metrics this0) + generationLimit (config this0) < 5)%nat).
  { destruct Hcase as [[Ht Hall] | Hshort]; [left | now right].
    split; [exact Ht|]. rewrite Hm. apply Forall_app. split; [exact Hall|].
    constructor; [|constructor].
    apply calculateConvergenceRate_not_negative. }
  assert (Hno : exit = false).
  { rewrite Hexit. destruct Hcase' as [[Ht Hall] | Hshort].
    - apply hasConverged_never; cbn [config metrics push_metrics].
      + now rewrite Hc.
      + now rewrite <- Hm'.
    - apply hasConverged_short. cbn [metrics push_metrics].
      rewrite length_app, Hlen. cbn [length]. lia. }
  split; [exact Hno|]. subst exit.
  unfold undisturbed. rewrite (gt_config Hturn), (gt_generation Hturn),
    (gt_running Hturn), quiet_stops, Hrun, Hm, length_app, Hlen.
  cbn [length]. rewrite Hm in Hcase'. rewrite Hno.
  repeat split; try assumption; lia.
Qed.

Lemma run_undisturbed w :
  (convergenceThreshold (config this0) <= 0 /\
   Forall rate_not_negative (metrics this0)) \/
  (length (metrics this0) + generationLimit (config this0) < 5)%nat ->
  exists this1 stopCalled w',
    run E initialPopulation (this0, w)
    = (Ok (bestAgent this1), (return_state stopCalled this1, w')) /\
    undisturbed this1 /\ generation this1 = generationLimit (config this0).
Proof.
  intros Hcase.
  apply run_rule
    with (I := undisturbed)
         (Q := fun this => undisturbed this /\
                           generation this = generationLimit (config this0)).
  - intros this H Hcond. split; [exact H|].
    destruct H as (Hc & Hrun & Hg & _).
    unfold loop_condition in Hcond. rewrite Hrun, Hc in Hcond. cbn in Hcond.
    apply Nat.ltb_ge in Hcond. lia.
  - intros this newGeneration fitnessScores stops exit this' HI Hcond Hturn.
    destruct (undisturbed_turn HI Hcond Hturn) as [-> H]. exact H.
  - destruct (entry_state_fields initialPopulation (fst (external_calls E w)) this0)
      as (Hc & _ & Hg & _ & _ & Hm & Hr).
    unfold undisturbed. rewrite Hc, Hg, Hm, Hr, quiet. cbn [negb].
    repeat split; try lia. exact Hcase.
Qed.
End Undisturbed.

(** X13: when nobody calls [stop()] and convergence is ruled out (the
    threshold is not positive and the history holds no negative rate, or
    the history stays shorter than the five entries [hasConverged]
    needs), [run] executes exactly [generationLimit] generations: the
    counter ends at the limit and the history grows by that many
    entries. *)
Theorem run_executes_every_generation (E : Env) (initialPopulation : list IMetaAgent)
    (this : OakEvolutionLoop) (w : World E) :
  never_stopped E ->
  (convergenceThreshold (config this) <= 0 /\
   Forall rate_not_negative (metrics this)) \/
  (length (metrics this) + generationLimit (config this) < 5)%nat ->
  exists result this' w',
    run E initialPopulation (this, w) = (Ok result, (this', w')) /\
    generation this' = generationLimit (config this) /\
    length (metrics this')
    = (length (metrics this) + generationLimit (config this))%nat.
Proof.
  intros Hquiet Hcase.
  destruct (@run_undisturbed E initialPopulation this Hquiet w Hcase)
    as (this1 & b & w' & Hrun & (_ & _ & _ & Hlen & _) & Hgen).
  destruct (return_state_fields b this1) as (_ & _ & Hg' & _ & _ & Hm' & _).
  exists (bestAgent this1), (return_state b this1), w'.
  rewrite Hg', Hm', Hlen, Hgen. repeat split. exact Hrun.
Qed.

Lemma run_executes_every_generation_witness :
  let this := new_loop Sim.eager in
  never_stopped Sim.healthy /\
  ((convergenceThreshold (config this) <= 0 /\
    Forall rate_not_negative (metrics this)) \/
   (length (metrics this) + generationLimit (config this) < 5)%nat) /\
  exists result this' w',
    run Sim.healthy [agent 0; agent 1] (this, Sim.start) = (Ok result, (this', w')) /\
    generation this' = generationLimit (config this) /\
    length (metrics this')
    = (length (metrics this) + generationLimit (config this))%nat.
Proof.
  intros this.
  assert (Hquiet : never_stopped Sim.healthy) by (intros w; reflexivity).
  assert (Hcase : (convergenceThreshold (config this) <= 0 /\
                   Forall rate_not_negative (metrics this)) \/
                  (length (metrics this) + generationLimit (config this) < 5)%nat)
    by (right; cbn; lia).
  split; [exact Hquiet|]. split; [exact Hcase|].
  exact (@run_executes_every_generation Sim.healthy [agent 0; agent 1] this Sim.start
           Hquiet Hcase).
Defined.

(** ** The metrics of a generation *)

Lemma sumQ_le (fs : list Q) (top : Q) : forall acc,
  (forall f, In f fs -> f <= top) ->
  fold_left Qplus fs acc <= acc + inject_Z (Z.of_nat (length fs)) * top.
Proof.
  induction fs as [|x fs IH]; intros acc Hall.
  - cbn [fold_left length Z.of_nat]. change (inject_Z 0) with 0. lra.
  - cbn [fold_left length]. rewrite Nat2Z.inj_succ, <- Z.add_1_r, inject_Z_plus.
    specialize (IH (acc + x) (fun f Hf => Hall f (or_intror Hf))).
    pose proof (Hall x (or_introl eq_refl)) as Hx.
    change (inject_Z 1) with 1. nra.
Qed.

Lemma square_not_negative (y : Q) : 0 <= y * y.
Proof. nra. Qed.

Lemma squares_sum (fs : list Q) (mean : Q) : forall acc,
  0 <= acc ->
  exists v,
    fold_left (fun sum score => add sum (sq (sub (Fin score) (Fin mean)))) fs (Fin acc)
    = Fin v /\ 0 <= v.
Proof.
  induction fs as [|x fs IH]; intros acc Hacc; cbn [fold_left].
  - now exists acc.
  - cbn [sub neg add sq]. apply IH.
    pose proof (square_not_negative (x + - mean)). lra.
Qed.



(** ** The Kimi K2 adapter in the loop *)

Lemma Kimi_learnPoliciesAndValues_throws (k : Kimi.KimiK2Adapter) :
  fst (Kimi.learnPoliciesAndValues k) = Throw TypeError.
Proof.
  unfold Kimi.learnPoliciesAndValues, Kimi.console_log, Kimi.updateValueFunction,
    bind, throw.
  cbn [Kimi.performance_metrics]. now destruct (Kimi.performance_metrics k).
Qed.

(** X15: [learnPoliciesAndValues] of the adapter rejects on every call,
    with the TypeError of calling the missing [refineDecisionPolicies],
    after it has written its console line and run
    [updateValueFunction]: an adapter that was never initialised keeps
    having no metrics, and an accuracy [a] in (0, 1] has become
    [min(1, a + 0.001)]. *)
Theorem learnPoliciesAndValues_always_rejects (k : Kimi.KimiK2Adapter) :
  exists k',
    Kimi.learnPoliciesAndValues k = (Throw TypeError, k') /\
    Kimi.console k'
    = Kimi.console k ++ ["Kimi K2: Learning policies and value functions..."%string] /\
    (Kimi.performance_metrics k = None -> Kimi.performance_metrics k' = None) /\
    (forall pm a,
       Kimi.performance_metrics k = Some pm ->
       Kimi.reasoning_accuracy pm = Some (Fin a) -> 0 < a -> a <= 1 ->
       exists pm' a',
         Kimi.performance_metrics k' = Some pm' /\
         Kimi.reasoning_accuracy pm' = Some (Fin a') /\
         a' == Qmin 1 (a + (1 # 1000)) /\
         Kimi.knowledge_coverage pm' = Kimi.knowledge_coverage pm /\
         Kimi.response_coherence pm' = Kimi.response_coherence pm).
Proof.
  unfold Kimi.learnPoliciesAndValues, Kimi.console_log, Kimi.updateValueFunction,
    bind, throw.
  cbn [Kimi.performance_metrics Kimi.console].
  destruct (Kimi.performance_metrics k) as [pm|] eqn:Hpm; eexists;
    (split; [reflexivity|]); cbn [Kimi.performance_metrics Kimi.console];
    (split; [reflexivity|]); (split; [try discriminate; reflexivity|]);
    [|discriminate].
  intros pm0 a Heq Ha Hpos Hle. inversion Heq; subst pm0. rewrite Ha.
  cbn [or_default].
  assert (Hnz : Qeq_bool a 0 = false).
  { destruct (Qeq_bool a 0) eqn:Hz; [|reflexivity].
    apply Qeq_bool_iff in Hz. rewrite Hz in Hpos. now apply Qlt_irrefl in Hpos. }
  rewrite Hnz. cbn [add min2 ltb].
  destruct (Qltb (a + (1 # 1000)) 1) eqn:Hlt.
  - eexists _, _. repeat split. apply Qltb_lt in Hlt.
    symmetry. apply Q.min_r. now apply Qlt_le_weak.
  - eexists _, _. repeat split. apply Qltb_ge in Hlt.
    symmetry. now apply Q.min_l.
Qed.

Section KimiInLoop.
Variable E : Env.
Variable this : OakEvolutionLoop.
Variables (get : World E -> Kimi.KimiK2Adapter)
          (put : Kimi.KimiK2Adapter -> World E -> World E).

Local Abbreviation is_adapter := (is_adapter E get put).

Lemma adapter_cycle i w :
  is_adapter i ->
  executeAgentOakCycle E this (agent i) w
  = (Ok (agent i), put (snd (Kimi.learnPoliciesAndValues (get w))) w).
Proof.
  intros H. unfold executeAgentOakCycle, try_catch, eight_steps, bind.
  cbn [call]. unfold settle. rewrite H. unfold Kimi.as_step.
  pose proof (Kimi_learnPoliciesAndValues_throws (get w)) as Hthrow.
  destruct (Kimi.learnPoliciesAndValues (get w)) as [r k]. cbn [fst snd] in *.
  now subst r.
Qed.
End KimiInLoop.



Lemma or_default_cases (x : option num) (d : Q) :
  or_default x d = PosInf \/ or_default x d = NegInf \/ exists q, or_default x d = Fin q.
Proof.
  destruct x as [[| | |q]|]; cbn; try tauto; try (right; right; now eexists).
  destruct (Qeq_bool q 0); right; right; now eexists.
Qed.

(** X17: the planning confidence of the adapter is a number, never
    below 0.5, and does not grow with the step. *)
Theorem planning_confidence_decreases (k : Kimi.KimiK2Adapter) (step step' : nat) :
  le (Fin (1 # 2)) (Kimi.calculatePlanningConfidence k step) /\
  ((step <= step')%nat ->
   le (Kimi.calculatePlanningConfidence k step')
      (Kimi.calculatePlanningConfidence k step)).
Proof.
  unfold Kimi.calculatePlanningConfidence. cbn zeta.
  set (base := or_default _ _).
  destruct (or_default_cases
              (match Kimi.performance_metrics k with
               | Some pm => Kimi.reasoning_accuracy pm
               | None => None
               end) (9 # 10)) as [H | [H | [q H]]]; fold base in H; rewrite H.
  - cbn. tauto.
  - cbn. split; [apply Qle_refl | intros _; apply Qle_refl].
  - cbn [sub neg add max2 ltb].
    assert (Hstep : forall n,
              le (Fin (1 # 2))
                 (if Qltb (1 # 2) (q + - (inject_Z (Z.of_nat n) * (1 # 10)))
                  then Fin (q + - (inject_Z (Z.of_nat n) * (1 # 10)))
                  else Fin (1 # 2))).
    { intros n. destruct (Qltb _ _) eqn:Hlt; cbn [le].
      - apply Qltb_lt in Hlt. now apply Qlt_le_weak.
      - apply Qle_refl. }
    split; [apply Hstep|]. intros Hle.
    assert (Hz : inject_Z (Z.of_nat step) <= inject_Z (Z.of_nat step')).
    { rewrite <- Zle_Qle. lia. }
    destruct (Qltb (1 # 2) (q + - (inject_Z (Z.of_nat step') * (1 # 10)))) eqn:H1;
      destruct (Qltb (1 # 2) (q + - (inject_Z (Z.of_nat step) * (1 # 10)))) eqn:H2;
      cbn [le]; try apply Qltb_lt in H1; try apply Qltb_ge in H1;
      try apply Qltb_lt in H2; try apply Qltb_ge in H2; lra.
Qed.

Lemma planning_confidence_decreases_witness :
  (2 <= 3)%nat /\
  le (Kimi.calculatePlanningConfidence Kimi.created 3)
     (Kimi.calculatePlanningConfidence Kimi.created 2).
Proof.
  assert (H : (2 <= 3)%nat) by lia.
  split; [exact H|].
  exact (proj2 (planning_confidence_decreases Kimi.created 2 3) H).
Defined.
